(** * Pioneer DDJ-400 four-deck mapping: channel rebinding, blink timers,
      shift gestures, loop adjust and beatjump scaling.

    A shallow embedding of [Pioneer-DDJ-400-quirx-4D-script.js].  The script
    object [PioneerDDJ400.state] becomes the record [state]; the Mixxx host
    (control values, live connections, running timers, and everything the
    script sends out) becomes the record [engine]; script functions become
    commands of a state-and-exception monad over the pair of both. *)

From Stdlib Require Import ZArith List String Ascii Bool Lia DecimalString
  RelationClasses.
From Stdlib Require DecimalPos DecimalZ.
Import ListNotations.
Open Scope string_scope.
Open Scope list_scope.
Open Scope Z_scope.

(** ** JavaScript values *)

(** Control values are JavaScript numbers.  Every control the embedded code
    reads is integer valued in Mixxx (flags, counts, slot numbers); the one
    exception, the [VuMeter] level, is only multiplied by a constant and sent
    on.  Values are therefore taken in [Z]. *)
Definition truthy (v : Z) : bool := negb (v =? 0).

(** [String(n)] for an integer [n]. *)
Definition number_to_string (n : Z) : string :=
  NilZero.string_of_int (Z.to_int n).

(** String concatenation with a value that may be [undefined]. *)
Definition optnum_to_string (n : option Z) : string :=
  match n with
  | Some n => number_to_string n
  | None => "undefined"
  end.

(** [a == b] where [a] may be [undefined] and [b] is a number. *)
Definition opt_eqb (a : option Z) (b : Z) : bool :=
  match a with
  | Some a => a =? b
  | None => false
  end.

(** A plain object used as a table.  Keys are enumerated in insertion order
    by [for .. in]; a key whose value was overwritten with [undefined] stays
    in the table. *)
Definition jsobj (A : Type) : Type := list (string * option A).

Fixpoint obj_get {A} (o : jsobj A) (k : string) : option A :=
  match o with
  | [] => None
  | (k', v) :: o' => if String.eqb k' k then v else obj_get o' k
  end.

Fixpoint obj_set {A} (o : jsobj A) (k : string) (v : option A) : jsobj A :=
  match o with
  | [] => [(k, v)]
  | (k', v') :: o' =>
      if String.eqb k' k then (k', v) :: o' else (k', v') :: obj_set o' k v
  end.

(** The values a [for (k in o) if (o[k] !== undefined)] loop visits. *)
Fixpoint obj_values {A} (o : jsobj A) : list A :=
  match o with
  | [] => []
  | (_, Some v) :: o' => v :: obj_values o'
  | (_, None) :: o' => obj_values o'
  end.

(** [for (i = from; i < to; i++)]. *)
Definition js_range (from to : Z) : list Z :=
  map (fun i => from + Z.of_nat i) (seq 0 (Z.to_nat (to - from))).

(** ** Hardware channels *)

(** [channel] is the hardware deck index; the script header states that it is
    always 0 or 1, and every array indexed by it has exactly two cells. *)
Inductive channel : Type := Ch0 | Ch1.

Definition channel_index (c : channel) : Z :=
  match c with Ch0 => 0 | Ch1 => 1 end.

Definition channel_eqb (a b : channel) : bool :=
  match a, b with
  | Ch0, Ch0 | Ch1, Ch1 => true
  | _, _ => false
  end.

Definition other (c : channel) : channel :=
  match c with Ch0 => Ch1 | Ch1 => Ch0 end.

(** A two-cell array indexed by [channel]. *)
Record per_channel (A : Type) : Type := PerChannel { cell0 : A; cell1 : A }.
Arguments PerChannel {A} _ _.
Arguments cell0 {A} _.
Arguments cell1 {A} _.

Definition at_channel {A} (a : per_channel A) (c : channel) : A :=
  match c with Ch0 => cell0 a | Ch1 => cell1 a end.

Definition set_channel {A} (a : per_channel A) (c : channel) (x : A)
  : per_channel A :=
  match c with
  | Ch0 => PerChannel x (cell1 a)
  | Ch1 => PerChannel (cell0 a) x
  end.

Notation "a .[ c ]" := (at_channel a c) (at level 1, format "a .[ c ]").

(** ** PioneerDDJ400.constants *)

Record midi_out : Type := MidiOut { status : Z; data1 : Z }.

Module constants.
Definition default_effect_unit : list Z := [1; 1; 2; 2].
Definition primary_deck : per_channel Z := PerChannel 0 1.
Definition sampler_groups : list (list string) :=
    [ ["[Sampler1]"; "[Sampler2]"; "[Sampler3]"; "[Sampler4]";
       "[Sampler5]"; "[Sampler6]"; "[Sampler7]"; "[Sampler8]"];
      ["[Sampler9]"; "[Sampler10]"; "[Sampler11]"; "[Sampler12]";
       "[Sampler13]"; "[Sampler14]"; "[Sampler15]"; "[Sampler16]"];
      ["[Sampler1]"; "[Sampler2]"; "[Sampler3]"; "[Sampler4]";
       "[Sampler5]"; "[Sampler6]"; "[Sampler7]"; "[Sampler8]"];
      ["[Sampler9]"; "[Sampler10]"; "[Sampler11]"; "[Sampler12]";
       "[Sampler13]"; "[Sampler14]"; "[Sampler15]"; "[Sampler16]"] ].
Definition always_toggle_both : bool := false.
Definition backspin_length : Z := 0x20.

Module times.
Definition loop_active : Z := 500.
Definition loop_adjust : Z := 250.
Definition double_press : Z := 290.
End times.

Module loop_modifiers.
Definition none : Z := 0.
Definition adjust_in : Z := 1.
Definition adjust_out : Z := 2.
End loop_modifiers.

Module lights.
Definition vu_meter := MidiOut 0xB0 0x02.
Definition beat_fx := MidiOut 0x94 0x47.
Definition shift_beat_fx := MidiOut 0x94 0x43.
Definition play_pause := MidiOut 0x90 0x0B.
Definition shift_play_pause := MidiOut 0x90 0x47.
Definition cue := MidiOut 0x90 0x0C.
Definition shift_cue := MidiOut 0x90 0x48.
Definition load_animation := MidiOut 0x9F 0x00.
Definition reloop := MidiOut 0x90 0x4D.
Definition shift_reloop := MidiOut 0x90 0x50.
Definition loop_in := MidiOut 0x90 0x10.
Definition shift_loop_in := MidiOut 0x90 0x4C.
Definition loop_out := MidiOut 0x90 0x11.
Definition shift_loop_out := MidiOut 0x90 0x4E.
Definition beatsync := MidiOut 0x90 0x58.
Definition shift_beatsync := MidiOut 0x90 0x60.
Definition headphone_cue := MidiOut 0x90 0x54.
Definition shift_headphone_cue := MidiOut 0x90 0x68.
End lights.

Module pad_modes.
Definition hot_cue : Z := 0x00.
Definition beat_loop : Z := 0x60.
Definition beat_jump : Z := 0x20.
Definition sampler : Z := 0x30.
Definition keyboard : Z := 0x40.
Definition fx_1 : Z := 0x10.
Definition fx_2 : Z := 0x50.
Definition key_shift : Z := 0x70.
End pad_modes.

Module controller_settings.
Definition backspin_length := MidiOut 0xBF 0x45.
End controller_settings.
End constants.

(** ** Host objects *)

(** The functions the script hands to [engine.makeConnection]. *)
Inductive callback : Type :=
| cb_play_indicator | cb_cue_indicator | cb_vu_meter_update
| cb_track_loaded_animation | cb_beatsync_update | cb_beatmaster_update
| cb_headphone_cue_update | cb_quantize_update | cb_keylock_update
| cb_set_loop_enabled
| cb_update_beatloop (padnum : Z)  (* update_beatloop_025 .. update_beatloop_32 *)
| cb_update_hotcue (padnum : Z)    (* update_hotcue_1 .. update_hotcue_8 *)
| cb_update_sampler
| cb_update_head_split_light
| cb_update_fx_light.

(** A connection object as returned by [engine.makeConnection]. *)
Record connection : Type := Connection {
  conn_id : nat;
  conn_group : string;
  conn_control : string;
  conn_fun : callback
}.

(** The three closures [update_loop_inout_lights] passes to
    [engine.beginTimer]: which lights they drive. *)
Inductive blink : Type := blink_both | blink_in | blink_out.

(** A running timer: its id, period, and the closure with the [channel] and
    the [blink_state] variable it captured. *)
Record timer : Type := Timer {
  timer_no : nat;
  timer_period : Z;
  timer_blink : blink;
  timer_channel : channel;
  timer_blink_state : bool
}.

(** Everything the script asks of the host, in the order it asks. *)
Inductive event : Type :=
| midi_sendShortMsg (st d1 d2 : Z)
| print (msg : string)
| engine_setValue (group control : string) (v : Z)
| script_toggleControl (group control : string)
| engine_softTakeover (group control : string) (on : bool)
| engine_softTakeoverIgnoreNextValue (group control : string)
| engine_makeConnection (c : connection)
| connection_trigger (c : connection)
| connection_disconnect (c : connection)
| engine_beginTimer (t : timer)
| engine_stopTimer (id : nat).

(** The host.  [log] holds the requests newest first.  Connection and timer
    ids are handed out from counters, so an id is never reused. *)
Record engine : Type := Engine {
  controls : string -> string -> Z;
  live_connections : list connection;
  live_timers : list timer;
  next_connection : nat;
  next_timer : nat;
  log : list event
}.

(** ** PioneerDDJ400.state *)

(** One cell of [state.channel]; a field that was never assigned is
    [undefined].  For [beatjump_scalestep], [None] also stands for [NaN],
    which compares and propagates the same way. *)
Record channel_state : Type := ChannelState {
  shift_button_pressed : option bool;
  shift_double : option bool;
  shift_time : option Z;
  beatjump_scalestep : option Z;
  current_loop_modifier : option Z
}.

(** One cell of [state.deck]. *)
Record deck_state : Type := DeckState {
  loop_adjust : option Z;
  effect_unit : option Z
}.

Record state : Type := State {
  channel_mapping : per_channel Z;
  connections : per_channel (jsobj connection);
  timers : per_channel (jsobj nat);
  channel_cells : per_channel channel_state;
  deck : list deck_state;
  persistent_connections : jsobj connection;
  last_shift_button_pressed : channel
}.

Record world : Type := World { js : state; host : engine }.

Definition empty_channel_state : channel_state :=
  ChannelState None None None None None.

Definition empty_deck_state : deck_state := DeckState None None.

(** The object literal [PioneerDDJ400.state]. *)
Definition initial_state : state :=
  State (PerChannel 0 1)
        (PerChannel [] [])
        (PerChannel [] [])
        (PerChannel empty_channel_state empty_channel_state)
        [empty_deck_state; empty_deck_state; empty_deck_state; empty_deck_state]
        []
        Ch0.

(** ** Record updates *)

Definition with_log (f : list event -> list event) (e : engine) : engine :=
  match e with
  | Engine c lc lt nc nt l => Engine c lc lt nc nt (f l)
  end.

Definition with_controls (f : string -> string -> Z) (e : engine) : engine :=
  match e with
  | Engine _ lc lt nc nt l => Engine f lc lt nc nt l
  end.

Definition with_live_connections (f : list connection -> list connection)
  (e : engine) : engine :=
  match e with
  | Engine c lc lt nc nt l => Engine c (f lc) lt nc nt l
  end.

Definition with_live_timers (f : list timer -> list timer) (e : engine)
  : engine :=
  match e with
  | Engine c lc lt nc nt l => Engine c lc (f lt) nc nt l
  end.

Definition with_next_connection (n : nat) (e : engine) : engine :=
  match e with
  | Engine c lc lt _ nt l => Engine c lc lt n nt l
  end.

Definition with_next_timer (n : nat) (e : engine) : engine :=
  match e with
  | Engine c lc lt nc _ l => Engine c lc lt nc n l
  end.

Definition with_channel_mapping (f : per_channel Z -> per_channel Z)
  (s : state) : state :=
  match s with
  | State m c t cc d p l => State (f m) c t cc d p l
  end.

Definition with_connections
  (f : per_channel (jsobj connection) -> per_channel (jsobj connection))
  (s : state) : state :=
  match s with
  | State m c t cc d p l => State m (f c) t cc d p l
  end.

Definition with_timers
  (f : per_channel (jsobj nat) -> per_channel (jsobj nat)) (s : state)
  : state :=
  match s with
  | State m c t cc d p l => State m c (f t) cc d p l
  end.

Definition with_channel_cells
  (f : per_channel channel_state -> per_channel channel_state) (s : state)
  : state :=
  match s with
  | State m c t cc d p l => State m c t (f cc) d p l
  end.

Definition with_deck (f : list deck_state -> list deck_state) (s : state)
  : state :=
  match s with
  | State m c t cc d p l => State m c t cc (f d) p l
  end.

Definition with_persistent_connections
  (f : jsobj connection -> jsobj connection) (s : state) : state :=
  match s with
  | State m c t cc d p l => State m c t cc d (f p) l
  end.

Definition with_last_shift_button_pressed (c : channel) (s : state) : state :=
  match s with
  | State m cs t cc d p _ => State m cs t cc d p c
  end.

Definition on_js (f : state -> state) (w : world) : world :=
  match w with
  | World s e => World (f s) e
  end.

Definition on_host (f : engine -> engine) (w : world) : world :=
  match w with
  | World s e => World s (f e)
  end.

(** ** The monad of script commands *)

(** A command runs on the script state and the host and either finishes with
    a result or throws ([None]); what a throwing command did before it threw
    is not kept. *)
Definition M (A : Type) : Type := world -> option (A * world).

Definition ret {A} (a : A) : M A := fun w => Some (a, w).

Definition bind {A B} (m : M A) (k : A -> M B) : M B :=
  fun w => match m w with
           | Some (a, w') => k a w'
           | None => None
           end.

Definition throw {A} : M A := fun _ => None.

Definition gets {A} (f : world -> A) : M A := fun w => Some (f w, w).

Definition modify (f : world -> world) : M unit := fun w => Some (tt, f w).

Declare Scope cmd_scope.
Delimit Scope cmd_scope with cmd.
Notation "x <- m ;; k" := (bind m (fun x => k))
  (at level 61, m at next level, right associativity) : cmd_scope.
Notation "m ;; k" := (bind m (fun _ => k))
  (at level 61, right associativity) : cmd_scope.
Open Scope cmd_scope.

Fixpoint for_each {A} (l : list A) (body : A -> M unit) : M unit :=
  match l with
  | [] => ret tt
  | x :: l' => body x ;; for_each l' body
  end.

(** The final world of a command, when it does not throw. *)
Definition exec {A} (m : M A) (w : world) : option world :=
  match m w with
  | Some (_, w') => Some w'
  | None => None
  end.

(** ** Host interface *)

Definition emit (e : event) : M unit :=
  modify (on_host (with_log (cons e))).

Definition midi_send (st d1 d2 : Z) : M unit := emit (midi_sendShortMsg st d1 d2).

Definition engine_getValue (group control : string) (w : world) : Z :=
  controls (host w) group control.

(** [engine.makeConnection(group, control, fun)] *)
Definition makeConnection (group control : string) (f : callback)
  : M connection :=
  n <- gets (fun w => next_connection (host w)) ;;
  let c := Connection n group control f in
  modify (on_host (fun e =>
    with_next_connection (S n)
      (with_live_connections (fun l => l ++ [c]) e))) ;;
  emit (engine_makeConnection c) ;;
  ret c.

(** [conn.disconnect()] *)
Definition disconnect (c : connection) : M unit :=
  modify (on_host (with_live_connections
    (filter (fun c' => negb (Nat.eqb (conn_id c') (conn_id c)))))) ;;
  emit (connection_disconnect c).

(** [engine.beginTimer(period, closure)]; the closure starts with
    [blink_state = false]. *)
Definition beginTimer (period : Z) (b : blink) (ch : channel) : M nat :=
  n <- gets (fun w => next_timer (host w)) ;;
  let t := Timer n period b ch false in
  modify (on_host (fun e =>
    with_next_timer (S n) (with_live_timers (fun l => l ++ [t]) e))) ;;
  emit (engine_beginTimer t) ;;
  ret n.

(** [engine.stopTimer(id)] *)
Definition stopTimer (id : nat) : M unit :=
  modify (on_host (with_live_timers
    (filter (fun t => negb (Nat.eqb (timer_no t) id))))) ;;
  emit (engine_stopTimer id).

Definition print_line (msg : string) : M unit := emit (print msg).

Definition softTakeoverIgnoreNextValue (group control : string) : M unit :=
  emit (engine_softTakeoverIgnoreNextValue group control).

Definition softTakeover (group control : string) (on : bool) : M unit :=
  emit (engine_softTakeover group control on).

(** The script's own [engine.setValue] and [script.toggleControl] requests are
    recorded; the host's answer to them (the changed value and the observers
    it calls) arrives as a later [engine_notify]. *)
Definition setValue (group control : string) (v : Z) : M unit :=
  emit (engine_setValue group control v).

Definition toggleControl (group control : string) : M unit :=
  emit (script_toggleControl group control).

(** ** Array cells *)

(** [a[i]], [undefined] outside the array. *)
Definition lookupZ {A} (l : list A) (i : Z) : option A :=
  if i <? 0 then None else nth_error l (Z.to_nat i).

Fixpoint list_set {A} (l : list A) (n : nat) (x : A) : list A :=
  match l, n with
  | [], _ => []
  | _ :: l', O => x :: l'
  | y :: l', S n' => y :: list_set l' n' x
  end.

(** [for (i = 0; i < a.length; i++)] together with [a[i]]. *)
Definition enumerate {A} (l : list A) : list (Z * A) :=
  combine (js_range 0 (Z.of_nat (List.length l))) l.

(** [state.deck[deck]]; reading or writing a property of it throws a
    [TypeError] when the cell does not exist. *)
Definition deck_cell (d : Z) : M deck_state :=
  fun w => match lookupZ (deck (js w)) d with
           | Some c => Some (c, w)
           | None => None
           end.

Definition update_deck_cell (d : Z) (f : deck_state -> deck_state) : M unit :=
  c <- deck_cell d ;;
  modify (on_js (with_deck (fun l => list_set l (Z.to_nat d) (f c)))).

Definition channel_cell (c : channel) (w : world) : channel_state :=
  (channel_cells (js w)).[c].

Definition update_channel_cell (c : channel)
  (f : channel_state -> channel_state) : M unit :=
  modify (on_js (with_channel_cells (fun a => set_channel a c (f a.[c])))).

Definition set_timer (c : channel) (key : string) (v : option nat) : M unit :=
  modify (on_js (with_timers (fun a => set_channel a c (obj_set a.[c] key v)))).

Definition set_connection (c : channel) (key : string) (v : connection)
  : M unit :=
  modify (on_js (with_connections
    (fun a => set_channel a c (obj_set a.[c] key (Some v))))).

(** ** PioneerDDJ400.internal: helpers *)

Definition padchannel_to_channel (padchannel : Z) : channel :=
  if padchannel >=? 9 then Ch1 else Ch0.

Definition padchannel_has_shift (padchannel : Z) : bool :=
  if truthy (Z.land padchannel 0x01) then false else true.

Definition channel_to_deck (c : channel) (w : world) : Z :=
  (channel_mapping (js w)).[c].

Definition group_to_deck (group : string) : Z :=
  if String.eqb group "[Channel1]" then 0
  else if String.eqb group "[Channel2]" then 1
  else if String.eqb group "[Channel3]" then 2
  else if String.eqb group "[Channel4]" then 3
  else 0.

Definition deck_to_group (d : Z) : string :=
  ("[Channel" ++ number_to_string (d + 1) ++ "]")%string.

Definition channel_to_group (c : channel) (w : world) : string :=
  deck_to_group (channel_to_deck c w).

Definition deck_to_channel (d : Z) : M channel :=
  m <- gets (fun w => channel_mapping (js w)) ;;
  if m.[Ch0] =? d then ret Ch0
  else if m.[Ch1] =? d then ret Ch1
  else
    print_line ("Warning: called deck_to_channel(" ++ number_to_string d
                ++ ") but deck not active?!")%string ;;
    ret Ch0.

Definition group_to_channel (group : string) : M channel :=
  deck_to_channel (group_to_deck group).

Definition get_num_decks (w : world) : Z :=
  engine_getValue "[Master]" "num_decks" w.

(** [a % b] on integers: the sign follows the dividend, and a zero divisor
    gives [NaN]. *)
Definition js_rem (a b : Z) : option Z :=
  if b =? 0 then None else Some (Z.rem a b).

(** [(old_deck + 2) % num_decks].  With zero decks the result is [NaN]:
    the source returns it, and the only caller, [toggle_deck_channel], goes
    on with it until [connect_samplers] throws on
    [sampler_groups[NaN].length].  A throw discards the state here, so the
    caller ends the same way with the throw put at the origin of the
    [NaN]. *)
Definition next_deck (_channel : channel) (old_deck : Z) : M Z :=
  num_decks <- gets get_num_decks ;;
  match js_rem (old_deck + 2) num_decks with
  | Some d => ret d
  | None => throw
  end.

Definition is_deck_active (d : Z) (w : world) : bool :=
  ((channel_mapping (js w)).[Ch0] =? d) || ((channel_mapping (js w)).[Ch1] =? d).

Definition is_group_active (group : string) (w : world) : bool :=
  is_deck_active (group_to_deck group) w.

Definition update_light (c : channel) (m : midi_out) (active : bool) : M unit :=
  midi_send (status m + channel_index c) (data1 m) (if active then 0x7F else 0).

Definition set_pad_light (mode : Z) (c : channel) (padnum : Z) (shift : bool)
  (value : Z) : M unit :=
  midi_send (0x97 + 2 * channel_index c + (if shift then 1 else 0))
            (mode + padnum) value.

(** ** PioneerDDJ400.internal: outputs *)

Definition set_backspin_length (length : Z) : M unit :=
  let cmd := constants.controller_settings.backspin_length in
  midi_send (status cmd) (data1 cmd) length.

Definition vu_meter_update (value : Z) (group : string) : M unit :=
  let scaled_value := value * 140 in
  c <- group_to_channel group ;;
  midi_send (status constants.lights.vu_meter + channel_index c)
            (data1 constants.lights.vu_meter) scaled_value.

Definition track_loaded_animation (value : Z) (group : string) : M unit :=
  c <- group_to_channel group ;;
  midi_send (status constants.lights.load_animation) (channel_index c)
            (if 0 <? value then 0x7f else 0x00).

Definition update_indicator (value : Z) (group : string) (m : midi_out)
  (shift_midi_out : option midi_out) : M unit :=
  active <- gets (is_group_active group) ;;
  if negb active then ret tt
  else
    c <- group_to_channel group ;;
    update_light c m (truthy value) ;;
    match shift_midi_out with
    | Some sm => update_light c sm (truthy value)
    | None => ret tt
    end.

Definition play_indicator (value : Z) (group : string) : M unit :=
  update_indicator value group constants.lights.play_pause
                   (Some constants.lights.shift_play_pause).

Definition cue_indicator (value : Z) (group : string) : M unit :=
  update_indicator value group constants.lights.cue
                   (Some constants.lights.shift_cue).

Definition beatsync_update (value : Z) (group : string) : M unit :=
  update_indicator value group constants.lights.beatsync None.

Definition beatmaster_update (value : Z) (group : string) : M unit :=
  update_indicator value group constants.lights.shift_beatsync None.

Definition headphone_cue_update (value : Z) (group : string) : M unit :=
  update_indicator value group constants.lights.headphone_cue None.

Definition quantize_update (value : Z) (group : string) : M unit :=
  update_indicator value group constants.lights.shift_headphone_cue None.

Definition keylock_update (value : Z) (group : string) : M unit :=
  active <- gets (is_group_active group) ;;
  if negb active then ret tt
  else
    c <- group_to_channel group ;;
    set_pad_light constants.pad_modes.beat_jump c 3 true
                  (if truthy value then 0x7f else 0x00).

(** ** PioneerDDJ400.internal: loop *)

Definition timer_id : string := "loop_inout_blink".

Definition get_loop_active (group : string) (w : world) : Z :=
  engine_getValue group "loop_enabled" w.

Definition set_reloop_light (c : channel) (value : Z) : M unit :=
  update_light c constants.lights.reloop (truthy value) ;;
  update_light c constants.lights.shift_reloop (truthy value).

Definition get_loop_adjust_state (d : Z) : M Z :=
  c <- deck_cell d ;;
  match loop_adjust c with
  | Some s => ret s
  | None => ret constants.loop_modifiers.none
  end.

(** The local function [stop_blink] of [update_loop_inout_lights]. *)
Definition stop_blink (c : channel) : M unit :=
  t <- gets (fun w => obj_get (timers (js w)).[c] timer_id) ;;
  match t with
  | Some id => stopTimer id ;; set_timer c timer_id None
  | None => ret tt
  end.

Definition set_current_loop_modifier (c : channel) (m : Z) : M unit :=
  update_channel_cell c (fun cs =>
    ChannelState (shift_button_pressed cs) (shift_double cs) (shift_time cs)
                 (beatjump_scalestep cs) (Some m)).

Definition update_loop_inout_lights (c : channel) : M unit :=
  loop_active <- gets (fun w => get_loop_active (channel_to_group c w) w) ;;
  if negb (truthy loop_active) then
    stop_blink c ;;
    update_light c constants.lights.loop_in true ;;
    update_light c constants.lights.loop_out true ;;
    update_light c constants.lights.shift_loop_in true ;;
    update_light c constants.lights.shift_loop_out true ;;
    set_current_loop_modifier c constants.loop_modifiers.none
  else
    d <- gets (channel_to_deck c) ;;
    modifier <- get_loop_adjust_state d ;;
    t <- gets (fun w => obj_get (timers (js w)).[c] timer_id) ;;
    let timer_present := match t with Some _ => true | None => false end in
    cur_loop_mod <- gets (fun w => current_loop_modifier (channel_cell c w)) ;;
    if modifier =? constants.loop_modifiers.adjust_in then
      if opt_eqb cur_loop_mod constants.loop_modifiers.adjust_in && timer_present
      then ret tt
      else
        stop_blink c ;;
        id <- beginTimer constants.times.loop_adjust blink_in c ;;
        set_timer c timer_id (Some id) ;;
        update_light c constants.lights.loop_out false ;;
        update_light c constants.lights.shift_loop_out false ;;
        set_current_loop_modifier c constants.loop_modifiers.adjust_in
    else if modifier =? constants.loop_modifiers.adjust_out then
      if opt_eqb cur_loop_mod constants.loop_modifiers.adjust_out && timer_present
      then ret tt
      else
        stop_blink c ;;
        update_light c constants.lights.loop_in false ;;
        update_light c constants.lights.shift_loop_in false ;;
        id <- beginTimer constants.times.loop_adjust blink_out c ;;
        set_timer c timer_id (Some id) ;;
        set_current_loop_modifier c constants.loop_modifiers.adjust_out
    else
      (* default: and case none: *)
      if opt_eqb cur_loop_mod constants.loop_modifiers.none && timer_present
      then ret tt
      else
        stop_blink c ;;
        id <- beginTimer constants.times.loop_active blink_both c ;;
        set_timer c timer_id (Some id) ;;
        update_light c constants.lights.loop_in false ;;
        update_light c constants.lights.loop_out false ;;
        update_light c constants.lights.shift_loop_in false ;;
        update_light c constants.lights.shift_loop_out false ;;
        set_current_loop_modifier c constants.loop_modifiers.none.

Definition set_loop_adjust_state (d : Z) (s : Z) : M unit :=
  update_deck_cell d (fun c => DeckState (Some s) (effect_unit c)) ;;
  active <- gets (is_deck_active d) ;;
  if active then
    c <- deck_to_channel d ;;
    update_loop_inout_lights c
  else ret tt.

Definition set_loop_enabled (value : Z) (group : string) : M unit :=
  let d := group_to_deck group in
  set_loop_adjust_state d constants.loop_modifiers.none ;;
  active <- gets (is_group_active group) ;;
  if active then
    c <- group_to_channel group ;;
    set_reloop_light c value
  else ret tt.

Definition update_beatloop (value : Z) (group : string) (padnum : Z) : M unit :=
  active <- gets (is_group_active group) ;;
  if negb active then ret tt
  else
    c <- group_to_channel group ;;
    set_pad_light constants.pad_modes.beat_loop c padnum false
                  (if truthy value then 0x7F else 0x00).

(** ** PioneerDDJ400.internal: effects *)

Definition get_last_shift_channel (w : world) : channel :=
  last_shift_button_pressed (js w).

Definition get_deck_effect_unit (d : Z) : M (option Z) :=
  c <- deck_cell d ;; ret (effect_unit c).

Definition get_effect_unit_group (unit : option Z) : string :=
  ("[EffectRack1_EffectUnit" ++ optnum_to_string unit ++ "]")%string.

Definition get_deck_effect_unit_group (d : Z) : M string :=
  unit <- get_deck_effect_unit d ;;
  ret (get_effect_unit_group unit).

Definition get_focussed_effect (d : Z) : M Z :=
  g <- get_deck_effect_unit_group d ;;
  gets (engine_getValue g "focused_effect").

Definition get_effect_group (unit : option Z) (slot : Z) : string :=
  ("[EffectRack1_EffectUnit" ++ optnum_to_string unit ++ "_Effect"
   ++ number_to_string slot ++ "]")%string.

Definition get_focussed_effect_group (d : Z) : M string :=
  unit <- get_deck_effect_unit d ;;
  focussed <- get_focussed_effect d ;;
  ret (get_effect_group unit focussed).

Definition get_effect_deck (w : world) : Z :=
  channel_to_deck (get_last_shift_channel w) w.

Definition get_num_effect_slots (unit : option Z) (w : world) : Z :=
  engine_getValue (get_effect_unit_group unit) "num_effectslots" w.

Definition update_fx_light : M unit :=
  d <- gets get_effect_deck ;;
  g <- get_focussed_effect_group d ;;
  enabled <- gets (engine_getValue g "enabled") ;;
  update_light Ch0 constants.lights.beat_fx (truthy enabled).

(** ** PioneerDDJ400.internal: pads *)

Definition allow_beatjump_downscale (c : channel) (w : world) : bool :=
  negb (match beatjump_scalestep (channel_cell c w) with
        | Some s => s <=? -1
        | None => false
        end).

Definition allow_beatjump_upscale (c : channel) (w : world) : bool :=
  negb (match beatjump_scalestep (channel_cell c w) with
        | Some s => s >=? 1
        | None => false
        end).

Definition update_beatjump_shift_lights (c : channel) : M unit :=
  down <- gets (allow_beatjump_downscale c) ;;
  set_pad_light constants.pad_modes.beat_jump c 6 true
                (if down then 0x7F else 0x00) ;;
  up <- gets (allow_beatjump_upscale c) ;;
  set_pad_light constants.pad_modes.beat_jump c 7 true
                (if up then 0x7F else 0x00).

Definition update_hotcue (value : Z) (group : string) (padnum : Z) : M unit :=
  active <- gets (is_group_active group) ;;
  if negb active then ret tt
  else
    c <- group_to_channel group ;;
    set_pad_light constants.pad_modes.hot_cue c padnum false
                  (if truthy value then 0x7F else 0x00) ;;
    set_pad_light constants.pad_modes.hot_cue c padnum true
                  (if truthy value then 0x7F else 0x00).

(** [constants.sampler_groups[deck]]; taking its [length] throws when the
    deck has no entry. *)
Definition deck_samplers_of (d : Z) : M (list string) :=
  match lookupZ constants.sampler_groups d with
  | Some l => ret l
  | None => throw
  end.

Definition update_sampler (value : Z) (sampler_group : string) : M unit :=
  num_decks <- gets get_num_decks ;;
  for_each (js_range 0 num_decks) (fun d =>
    active <- gets (is_deck_active d) ;;
    if negb active then ret tt
    else
      c <- deck_to_channel d ;;
      deck_samplers <- deck_samplers_of d ;;
      for_each (enumerate deck_samplers) (fun '(padnum, name) =>
        if String.eqb sampler_group name then
          set_pad_light constants.pad_modes.sampler c padnum false
                        (if truthy value then 0x7F else 0x00) ;;
          set_pad_light constants.pad_modes.sampler c padnum true
                        (if truthy value then 0x7F else 0x00)
        else ret tt)).

Definition update_brake_light : M unit :=
  set_pad_light constants.pad_modes.fx_1 Ch0 0 false 0x7f ;;
  set_pad_light constants.pad_modes.fx_1 Ch1 0 false 0x7f.

Definition update_head_split_light (value : Z) : M unit :=
  set_pad_light constants.pad_modes.beat_jump Ch0 1 true
                (if truthy value then 0x7f else 0x00) ;;
  set_pad_light constants.pad_modes.beat_jump Ch1 1 true
                (if truthy value then 0x7f else 0x00).

(** ** Connections *)

(** [constants.output_control_to_function], in the order of the object
    literal: control, observer, and whether it is fired on connecting. *)
Definition output_control_to_function : list (string * (callback * bool)) :=
  [ ("play_indicator", (cb_play_indicator, true));
    ("cue_indicator", (cb_cue_indicator, true));
    ("VuMeter", (cb_vu_meter_update, true));
    ("track_loaded", (cb_track_loaded_animation, false));
    ("sync_enabled", (cb_beatsync_update, true));
    ("sync_master", (cb_beatmaster_update, true));
    ("pfl", (cb_headphone_cue_update, true));
    ("quantize", (cb_quantize_update, true));
    ("keylock", (cb_keylock_update, true));
    ("loop_enabled", (cb_set_loop_enabled, true));
    ("beatloop_0.25_enabled", (cb_update_beatloop 0, true));
    ("beatloop_0.5_enabled", (cb_update_beatloop 1, true));
    ("beatloop_1_enabled", (cb_update_beatloop 2, true));
    ("beatloop_2_enabled", (cb_update_beatloop 3, true));
    ("beatloop_4_enabled", (cb_update_beatloop 4, true));
    ("beatloop_8_enabled", (cb_update_beatloop 5, true));
    ("beatloop_16_enabled", (cb_update_beatloop 6, true));
    ("beatloop_32_enabled", (cb_update_beatloop 7, true));
    ("hotcue_1_enabled", (cb_update_hotcue 0, true));
    ("hotcue_2_enabled", (cb_update_hotcue 1, true));
    ("hotcue_3_enabled", (cb_update_hotcue 2, true));
    ("hotcue_4_enabled", (cb_update_hotcue 3, true));
    ("hotcue_5_enabled", (cb_update_hotcue 4, true));
    ("hotcue_6_enabled", (cb_update_hotcue 5, true));
    ("hotcue_7_enabled", (cb_update_hotcue 6, true));
    ("hotcue_8_enabled", (cb_update_hotcue 7, true)) ].

(** What the host does when it calls an observer with [(value, group,
    control)]. *)
Definition run_callback (f : callback) (value : Z) (group : string) : M unit :=
  match f with
  | cb_play_indicator => play_indicator value group
  | cb_cue_indicator => cue_indicator value group
  | cb_vu_meter_update => vu_meter_update value group
  | cb_track_loaded_animation => track_loaded_animation value group
  | cb_beatsync_update => beatsync_update value group
  | cb_beatmaster_update => beatmaster_update value group
  | cb_headphone_cue_update => headphone_cue_update value group
  | cb_quantize_update => quantize_update value group
  | cb_keylock_update => keylock_update value group
  | cb_set_loop_enabled => set_loop_enabled value group
  | cb_update_beatloop padnum => update_beatloop value group padnum
  | cb_update_hotcue padnum => update_hotcue value group padnum
  | cb_update_sampler => update_sampler value group
  | cb_update_head_split_light => update_head_split_light value
  | cb_update_fx_light => update_fx_light
  end.

(** [conn.trigger()]: the host calls the observer at once with the current
    value of the control. *)
Definition trigger (c : connection) : M unit :=
  emit (connection_trigger c) ;;
  value <- gets (engine_getValue (conn_group c) (conn_control c)) ;;
  run_callback (conn_fun c) value (conn_group c).

Definition connect_samplers (c : channel) : M unit :=
  d <- gets (channel_to_deck c) ;;
  deck_samplers <- deck_samplers_of d ;;
  for_each (enumerate deck_samplers) (fun '(_padnum, control_name) =>
    let control_key := (control_name ++ "_light")%string in
    conn <- makeConnection control_name "track_loaded" cb_update_sampler ;;
    set_connection c control_key conn ;;
    trigger conn).

(** ** PioneerDDJ400.internal: setup *)

Definition update_deck_channel_indicator (c : channel) : M unit :=
  d <- gets (channel_to_deck c) ;;
  let is_primary := if d =? constants.primary_deck.[c] then 0x7f else 0x00 in
  set_pad_light constants.pad_modes.beat_jump c 0 true is_primary.

Definition disconnect_channel (c : channel) : M unit :=
  (* clear timers *)
  ts <- gets (fun w => obj_values (timers (js w)).[c]) ;;
  for_each ts stopTimer ;;
  modify (on_js (with_timers (fun a => set_channel a c []))) ;;
  (* disconnect *)
  cs <- gets (fun w => obj_values (connections (js w)).[c]) ;;
  for_each cs disconnect ;;
  modify (on_js (with_connections (fun a => set_channel a c []))) ;;
  (* prepare soft takeover *)
  group <- gets (channel_to_group c) ;;
  let eq_group := ("[EqualizerRack1_" ++ group ++ "_Effect1]")%string in
  softTakeoverIgnoreNextValue eq_group "parameter1" ;;
  softTakeoverIgnoreNextValue eq_group "parameter2" ;;
  softTakeoverIgnoreNextValue eq_group "parameter3" ;;
  softTakeoverIgnoreNextValue ("[QuickEffectRack1_" ++ group ++ "]")%string "super1" ;;
  softTakeoverIgnoreNextValue group "pregain" ;;
  softTakeoverIgnoreNextValue group "volume".

Definition connect_channel (c : channel) : M unit :=
  d <- gets (channel_to_deck c) ;;
  let group := deck_to_group d in
  print_line ("Connecting: channel: " ++ number_to_string (channel_index c)
              ++ ", deck: " ++ number_to_string d
              ++ ", group: " ++ group)%string ;;
  (* connect *)
  for_each output_control_to_function (fun '(control, (f, trig)) =>
    conn <- makeConnection group control f ;;
    set_connection c control conn ;;
    if trig then trigger conn else ret tt) ;;
  (* restore extra timers, lights that are not done upon connection trigger *)
  connect_samplers c ;;
  update_deck_channel_indicator c ;;
  update_fx_light.

Definition toggle_deck_channel (c : channel) : M unit :=
  old_deck <- gets (channel_to_deck c) ;;
  next <- next_deck c old_deck ;;
  if old_deck =? next then
    print_line "Would toggle deck but next deck is identical (turn on 4 deck mode)."
  else
    print_line ("Toggling deck from " ++ number_to_string old_deck ++ " to "
                ++ number_to_string next ++ ".")%string ;;
    (* disconnect channel *)
    disconnect_channel c ;;
    (* set active deck *)
    modify (on_js (with_channel_mapping (fun m => set_channel m c next))) ;;
    (* connect channel pair *)
    connect_channel c.

Definition toggle_deck_channel_gateway (c : channel) : M unit :=
  if constants.always_toggle_both then
    toggle_deck_channel Ch0 ;;
    toggle_deck_channel Ch1
  else toggle_deck_channel c.

(** ** PioneerDDJ400.internal: shift *)

Definition shift_double_press (c : channel) : M unit :=
  toggle_deck_channel_gateway c.

Definition get_shift_double (c : channel) (w : world) : bool :=
  match shift_double (channel_cell c w) with
  | Some b => b
  | None => false
  end.

Definition set_shift_double (c : channel) (value : bool) : M unit :=
  update_channel_cell c (fun cs =>
    ChannelState (shift_button_pressed cs) (Some value) (shift_time cs)
                 (beatjump_scalestep cs) (current_loop_modifier cs)).

Definition get_shift_button_pressed (c : channel) (w : world) : bool :=
  match shift_button_pressed (channel_cell c w) with
  | Some b => b
  | None => false
  end.

Definition get_last_shift_time (c : channel) (w : world) : Z :=
  match shift_time (channel_cell c w) with
  | Some t => t
  | None => 0
  end.

Definition get_any_shift_button_pressed (w : world) : bool :=
  get_shift_button_pressed Ch0 w || get_shift_button_pressed Ch1 w.

(** [now] is the value [Date.now()] returns during the call. *)
Definition set_shift_button_pressed (c : channel) (pressed : bool) (now : Z)
  : M unit :=
  update_channel_cell c (fun cs =>
    ChannelState (Some pressed) (shift_double cs) (shift_time cs)
                 (beatjump_scalestep cs) (current_loop_modifier cs)) ;;
  last_ch <- gets get_last_shift_channel ;;
  modify (on_js (with_last_shift_button_pressed c)) ;;
  (if negb (channel_eqb last_ch c) then update_fx_light else ret tt) ;;
  (* From first press to second release must be < configured time to count
     as double press. *)
  let new_pressed := now in
  last <- gets (get_last_shift_time c) ;;
  let within_time := new_pressed - last <? constants.times.double_press in
  if pressed then
    set_shift_double c within_time ;;
    if negb within_time then
      update_channel_cell c (fun cs =>
        ChannelState (shift_button_pressed cs) (shift_double cs)
                     (Some new_pressed) (beatjump_scalestep cs)
                     (current_loop_modifier cs))
    else ret tt
  else
    double <- gets (get_shift_double c) ;;
    if within_time && double then shift_double_press c else ret tt.

(** ** Public handlers *)

Definition shiftPressed (c : channel) (value : Z) (now : Z) : M unit :=
  set_shift_button_pressed c (value =? 0x7F) now.

Definition loop_in (c : channel) (value : Z) : M unit :=
  if negb (truthy value) then ret tt
  else
    d <- gets (channel_to_deck c) ;;
    let group := deck_to_group d in
    active <- gets (get_loop_active group) ;;
    if truthy active then
      s <- get_loop_adjust_state d ;;
      if s =? constants.loop_modifiers.adjust_in then
        set_loop_adjust_state d constants.loop_modifiers.none
      else
        set_loop_adjust_state d constants.loop_modifiers.adjust_in
    else
      setValue group "loop_end_position" (-1) ;;
      setValue group "loop_in" 1 ;;
      setValue group "loop_in" 0.

Definition loop_out (c : channel) (value : Z) : M unit :=
  if negb (truthy value) then ret tt
  else
    d <- gets (channel_to_deck c) ;;
    let group := deck_to_group d in
    active <- gets (get_loop_active group) ;;
    if truthy active then
      s <- get_loop_adjust_state d ;;
      if s =? constants.loop_modifiers.adjust_out then
        set_loop_adjust_state d constants.loop_modifiers.none
      else
        set_loop_adjust_state d constants.loop_modifiers.adjust_out
    else
      setValue group "loop_out" 1 ;;
      setValue group "loop_out" 0.

(** [x -= 1] and [x += 1] on a field that may hold no number. *)
Definition add_scalestep (c : channel) (delta : Z) : M unit :=
  update_channel_cell c (fun cs =>
    ChannelState (shift_button_pressed cs) (shift_double cs) (shift_time cs)
                 (option_map (fun s => s + delta) (beatjump_scalestep cs))
                 (current_loop_modifier cs)).

Definition handle_beatjump_shift (c : channel) (padnum : Z) : M unit :=
  (* 1st (0) alternative for switching decks *)
  if padnum =? 0 then toggle_deck_channel_gateway c
  (* 2nd (1) toggle headphone cue split *)
  else if padnum =? 1 then toggleControl "[Master]" "headSplit"
  (* 4th (3) for toggling keylock *)
  else if padnum =? 3 then
    group <- gets (channel_to_group c) ;;
    toggleControl group "keylock"
  else
    (* 7th / 8th (6/7) pad for scaling beatjump *)
    allow_upscale <- gets (allow_beatjump_upscale c) ;;
    allow_downscale <- gets (allow_beatjump_downscale c) ;;
    if (padnum =? 6) && allow_downscale then
      add_scalestep c (-1) ;;
      update_beatjump_shift_lights c
    else if (padnum =? 7) && allow_upscale then
      add_scalestep c 1 ;;
      update_beatjump_shift_lights c
    else ret tt.

Definition set_persistent_connection (key : string) (conn : connection)
  : M unit :=
  modify (on_js (with_persistent_connections
    (fun p => obj_set p key (Some conn)))).

(** [PioneerDDJ400.init].  The two calls [track_loaded_animation(1, 0)] and
    [(1, 1)] pass a number where a group name is expected; [group_to_deck]
    takes its [default] branch for them, as it does for the strings used
    here. *)
Definition init : M unit :=
  (* play track loaded animation for fun *)
  track_loaded_animation 1 "0" ;;
  track_loaded_animation 1 "1" ;;
  num_decks <- gets get_num_decks ;;
  (* set default effect units *)
  for_each (js_range 0 num_decks) (fun d =>
    update_deck_cell d (fun c =>
      DeckState (loop_adjust c) (lookupZ constants.default_effect_unit d))) ;;
  (* set initial beatjump scale *)
  update_channel_cell Ch0 (fun cs =>
    ChannelState (shift_button_pressed cs) (shift_double cs) (shift_time cs)
                 (Some 0) (current_loop_modifier cs)) ;;
  update_channel_cell Ch1 (fun cs =>
    ChannelState (shift_button_pressed cs) (shift_double cs) (shift_time cs)
                 (Some 0) (current_loop_modifier cs)) ;;
  (* set beatjump scale lights *)
  update_beatjump_shift_lights Ch0 ;;
  update_beatjump_shift_lights Ch1 ;;
  (* set backspin length *)
  set_backspin_length constants.backspin_length ;;
  (* set brake light *)
  update_brake_light ;;
  (* init head cue split *)
  head_split <- gets (engine_getValue "[Master]" "headSplit") ;;
  update_head_split_light head_split ;;
  conn <- makeConnection "[Master]" "headSplit" cb_update_head_split_light ;;
  set_persistent_connection "head_split" conn ;;
  (* init current loop modifier state *)
  set_current_loop_modifier Ch0 constants.loop_modifiers.none ;;
  set_current_loop_modifier Ch1 constants.loop_modifiers.none ;;
  (* configure soft takeovers: effects *)
  num_effect_units <- gets (engine_getValue "[EffectRack1]" "num_effectunits") ;;
  for_each (js_range 1 (num_effect_units + 1)) (fun unit =>
    let unit_group := get_effect_unit_group (Some unit) in
    softTakeover unit_group "mix" true ;;
    setValue unit_group "show_focus" 1 ;;
    conn <- makeConnection unit_group "focused_effect" cb_update_fx_light ;;
    set_persistent_connection
      ("effect_unit_" ++ number_to_string unit ++ "_focussed")%string conn ;;
    num_effect_slots <- gets (get_num_effect_slots (Some unit)) ;;
    for_each (js_range 1 (num_effect_slots + 1)) (fun slot =>
      let effect_group := get_effect_group (Some unit) slot in
      softTakeover effect_group "meta" true ;;
      conn <- makeConnection effect_group "enabled" cb_update_fx_light ;;
      set_persistent_connection
        ("effect_unit_" ++ number_to_string unit ++ "_slot_"
         ++ number_to_string slot ++ "_enabled")%string conn)) ;;
  (* equalizer, quick effect, trim *)
  for_each (js_range 0 4) (fun d =>
    let group := deck_to_group d in
    let eq_group := ("[EqualizerRack1_" ++ group ++ "_Effect1]")%string in
    print_line ("Setting up soft takeover for: " ++ eq_group)%string ;;
    softTakeover eq_group "parameter1" true ;;
    softTakeover eq_group "parameter2" true ;;
    softTakeover eq_group "parameter3" true ;;
    softTakeover ("[QuickEffectRack1_" ++ group ++ "]")%string "super1" true ;;
    softTakeover group "pregain" true ;;
    softTakeover group "volume" true) ;;
  (* connect initial channel <-> deck *)
  connect_channel Ch0 ;;
  connect_channel Ch1.

(** [PioneerDDJ400.shutdown] *)
Definition shutdown : M unit :=
  cs <- gets (fun w => obj_values (persistent_connections (js w))) ;;
  for_each cs disconnect ;;
  modify (on_js (with_persistent_connections (fun _ => []))) ;;
  disconnect_channel Ch0 ;;
  disconnect_channel Ch1.

(** ** The host's side *)

(** A control changes its value: the host stores it and calls every observer
    connected to that control, oldest connection first. *)
Definition engine_notify (group control : string) (value : Z) : M unit :=
  modify (on_host (fun e =>
    with_controls (fun g c =>
      if String.eqb g group && String.eqb c control then value
      else controls e g c) e)) ;;
  conns <- gets (fun w =>
    filter (fun c => String.eqb (conn_group c) group
                     && String.eqb (conn_control c) control)
           (live_connections (host w))) ;;
  for_each conns (fun c => run_callback (conn_fun c) value group).

(** The lights a blink closure sets to its [blink_state]. *)
Definition blink_lights (b : blink) : list midi_out :=
  match b with
  | blink_both => [constants.lights.loop_in; constants.lights.loop_out;
                   constants.lights.shift_loop_in; constants.lights.shift_loop_out]
  | blink_in => [constants.lights.loop_in; constants.lights.shift_loop_in]
  | blink_out => [constants.lights.loop_out; constants.lights.shift_loop_out]
  end.

(** A running timer fires: its closure flips [blink_state] and sets its
    lights.  A timer that was stopped does not fire. *)
Definition timer_fire (id : nat) : M unit :=
  ts <- gets (fun w => live_timers (host w)) ;;
  match find (fun t => Nat.eqb (timer_no t) id) ts with
  | None => ret tt
  | Some t =>
      let blink_state := negb (timer_blink_state t) in
      modify (on_host (with_live_timers
        (map (fun t' =>
                if Nat.eqb (timer_no t') id
                then Timer (timer_no t') (timer_period t') (timer_blink t')
                           (timer_channel t') blink_state
                else t')))) ;;
      for_each (blink_lights (timer_blink t)) (fun m =>
        update_light (timer_channel t) m blink_state)
  end.

(** ** Runs of the script *)

(** What can happen after [init]: the modelled input handlers, a control
    change reported by the host, and a timer firing.  The handlers left out
    only forward values to the host and touch none of the state above. *)
Inductive input : Type :=
| in_shiftPressed (c : channel) (value now : Z)
| in_loop_in (c : channel) (value : Z)
| in_loop_out (c : channel) (value : Z)
| in_beatjump_shift (c : channel) (padnum : Z)
| in_engine_notify (group control : string) (value : Z)
| in_timer_fire (id : nat).

Definition handle (i : input) : M unit :=
  match i with
  | in_shiftPressed c value now => shiftPressed c value now
  | in_loop_in c value => loop_in c value
  | in_loop_out c value => loop_out c value
  | in_beatjump_shift c padnum => handle_beatjump_shift c padnum
  | in_engine_notify group control value => engine_notify group control value
  | in_timer_fire id => timer_fire id
  end.

(** The host keeps its number of decks: [num_decks] is never reported with
    another value than [n]. *)
Definition keeps_num_decks (n : Z) (i : input) : bool :=
  match i with
  | in_engine_notify group control value =>
      if String.eqb group "[Master]" && String.eqb control "num_decks"
      then value =? n else true
  | _ => true
  end.

(** A host on which the script has not run yet. *)
Definition fresh_host (e : engine) : Prop :=
  live_connections e = [] /\ live_timers e = [] /\ log e = [].

(** The states of a run on a host with four decks. *)
Inductive reachable : world -> Prop :=
| reachable_init e w :
    fresh_host e ->
    controls e "[Master]" "num_decks" = 4 ->
    exec init (World initial_state e) = Some w ->
    reachable w
| reachable_step w i w' :
    reachable w ->
    keeps_num_decks 4 i = true ->
    exec (handle i) w = Some w' ->
    reachable w'.

(** A concrete host for examples: four decks, every other control 0. *)
Definition quiet_host : engine :=
  Engine (fun g c => if String.eqb g "[Master]" && String.eqb c "num_decks"
                     then 4 else 0)
         [] [] 0 0 [].

(** * Reasoning about commands *)


(** ** Total correctness: the command finishes and its result satisfies [Q] *)

Definition wp {A} (m : M A) (Q : A -> world -> Prop) (w : world) : Prop :=
  match m w with
  | Some (a, w') => Q a w'
  | None => False
  end.

(** ** Partial correctness against a relation between start and end *)

Definition respects {A} (R : world -> world -> Prop) (m : M A) : Prop :=
  forall w a w', m w = Some (a, w') -> R w w'.

(** Commands that only read. *)
Definition reads {A} (m : M A) : Prop :=
  forall w a w', m w = Some (a, w') -> w' = w.

(** The projection [f] of the world is left as it was. *)
Definition same {B} (f : world -> B) (w w' : world) : Prop := f w' = f w.

(** The log only grows, by requests that satisfy [ok]. *)
Definition log_grows (ok : event -> Prop) (w w' : world) : Prop :=
  exists evs, log (host w') = evs ++ log (host w) /\ Forall ok evs.

(** A request that opens a connection or arms a timer. *)
Definition creates (e : event) : Prop :=
  match e with
  | engine_makeConnection _ | engine_beginTimer _ => True
  | _ => False
  end.

(** What a request creates carries an id from [nc] (connections) or [nt]
    (timers) on. *)
Definition created_from (nc nt : nat) (e : event) : Prop :=
  match e with
  | engine_makeConnection c => (nc <= conn_id c)%nat
  | engine_beginTimer t => (nt <= timer_no t)%nat
  | _ => True
  end.

(** Ids are handed out upwards: the counters do not go back, and whatever is
    created carries an id the counters had not reached at the start. *)
Definition hands_out_fresh (w w' : world) : Prop :=
  (next_connection (host w) <= next_connection (host w'))%nat /\
  (next_timer (host w) <= next_timer (host w'))%nat /\
  exists evs, log (host w') = evs ++ log (host w) /\
    Forall (created_from (next_connection (host w)) (next_timer (host w))) evs.

(** The command never throws. *)
Definition total {A} (m : M A) : Prop :=
  forall w, exists a w', m w = Some (a, w').

(** The world [w] after the requests [evs] (newest first) were logged. *)
Definition add_events (evs : list event) (w : world) : world :=
  on_host (with_log (app evs)) w.

(** Requests that neither start nor stop a timer, nor open or close a
    connection. *)
Definition passive (e : event) : Prop :=
  match e with
  | engine_beginTimer _ | engine_stopTimer _
  | engine_makeConnection _ | connection_disconnect _ => False
  | _ => True
  end.

(** Nothing but the log has changed, and only by passive requests. *)
Definition only_logged (w w' : world) : Prop :=
  exists evs, w' = add_events evs w /\ Forall passive evs.

(** ** Replaying the log *)

(** The timers running after the requests of [l] (newest first), as the
    log tells: id and channel, oldest first. *)
Fixpoint running (l : list event) : list (nat * channel) :=
  match l with
  | [] => []
  | engine_beginTimer t :: l' => running l' ++ [(timer_no t, timer_channel t)]
  | engine_stopTimer id :: l' =>
      filter (fun p => negb (Nat.eqb (fst p) id)) (running l')
  | _ :: l' => running l'
  end.

(** The connections open after the requests of [l], oldest first. *)
Fixpoint connected (l : list event) : list connection :=
  match l with
  | [] => []
  | engine_makeConnection c :: l' => connected l' ++ [c]
  | connection_disconnect c :: l' =>
      filter (fun c' => negb (Nat.eqb (conn_id c') (conn_id c))) (connected l')
  | _ :: l' => connected l'
  end.

(** [P] held after every request of the log, and at the start. *)
Fixpoint always (P : list event -> Prop) (l : list event) : Prop :=
  P l /\ match l with
         | [] => True
         | _ :: l' => always P l'
         end.

(** At most one timer is running per channel. *)
Definition singular (l : list event) : Prop :=
  forall c, (List.length (filter (fun p => channel_eqb (snd p) c) (running l))
             <= 1)%nat.

Definition timer_key (t : timer) : nat * channel :=
  (timer_no t, timer_channel t).

(** ** The invariant of a run on four decks *)

(** The running timers whose closure drives channel [c]. *)
Definition timers_of (c : channel) (w : world) : list timer :=
  filter (fun t => channel_eqb (timer_channel t) c) (live_timers (host w)).

Record core (w : world) : Prop := Core {
  (* the host has four decks *)
  core_num_decks : get_num_decks w = 4;
  (* channel 0 is on deck 0 or 2, channel 1 on deck 1 or 3 *)
  core_mapping0 : channel_to_deck Ch0 w = 0 \/ channel_to_deck Ch0 w = 2;
  core_mapping1 : channel_to_deck Ch1 w = 1 \/ channel_to_deck Ch1 w = 3;
  (* state.deck keeps its four cells *)
  core_decks : List.length (deck (js w)) = 4%nat;
  (* the beatjump scale step is a number between -1 and 1 *)
  core_scale : forall c, exists s,
      beatjump_scalestep (channel_cell c w) = Some s /\ -1 <= s <= 1;
  (* every running timer is the one its channel's table holds *)
  core_timers : forall t, In t (live_timers (host w)) ->
      obj_get (timers (js w)).[timer_channel t] timer_id = Some (timer_no t);
  core_timers_nodup : NoDup (map timer_no (live_timers (host w)));
  core_timers_fresh : forall t, In t (live_timers (host w)) ->
      (timer_no t < next_timer (host w))%nat;
  (* the connections a channel's table holds are live, and no connection
     sits in both tables *)
  core_connections : forall c conn,
      In conn (obj_values (connections (js w)).[c]) ->
      In conn (live_connections (host w)) /\
      (conn_id conn < next_connection (host w))%nat;
  core_connections_apart : forall a b,
      In a (obj_values (connections (js w)).[Ch0]) ->
      In b (obj_values (connections (js w)).[Ch1]) ->
      conn_id a <> conn_id b;
  core_connections_fresh : forall conn,
      In conn (live_connections (host w)) ->
      (conn_id conn < next_connection (host w))%nat;
  (* the log tells which timers run and which connections are open *)
  core_running : running (log (host w)) = map timer_key (live_timers (host w));
  core_connected : connected (log (host w)) = live_connections (host w);
  (* and at no time so far did a channel have two timers *)
  core_history : always singular (log (host w))
}.

(** The invariant at the point where the blink timer of channel [c] is
    stopped and no new one armed yet. *)
Definition blink_stopped (c : channel) (w : world) : Prop :=
  core w /\ obj_get (timers (js w)).[c] timer_id = None.

(** ** What tearing a channel down amounts to *)

Definition without_timers (ids : list nat) (l : list timer) : list timer :=
  filter (fun t => negb (existsb (Nat.eqb (timer_no t)) ids)) l.

Definition without_connections (cs l : list connection) : list connection :=
  filter (fun c' => negb (existsb (fun c => Nat.eqb (conn_id c') (conn_id c)) cs)) l.

(** The requests [disconnect_channel c] sends in the state [w], newest
    first: it stops the timers, then disconnects, then prepares the soft
    takeover for the group the channel is still bound to. *)
Definition teardown_events (c : channel) (w : world) : list event :=
  let group := channel_to_group c w in
  let eq_group := ("[EqualizerRack1_" ++ group ++ "_Effect1]")%string in
  [ engine_softTakeoverIgnoreNextValue group "volume";
    engine_softTakeoverIgnoreNextValue group "pregain";
    engine_softTakeoverIgnoreNextValue
      ("[QuickEffectRack1_" ++ group ++ "]")%string "super1";
    engine_softTakeoverIgnoreNextValue eq_group "parameter3";
    engine_softTakeoverIgnoreNextValue eq_group "parameter2";
    engine_softTakeoverIgnoreNextValue eq_group "parameter1" ]
  ++ rev (map connection_disconnect (obj_values (connections (js w)).[c]))
  ++ rev (map engine_stopTimer (obj_values (timers (js w)).[c])).

Definition torn_down (c : channel) (w : world) : world :=
  add_events (teardown_events c w)
    (on_js (with_connections (fun a => set_channel a c []))
       (on_host (with_live_connections
                   (without_connections (obj_values (connections (js w)).[c])))
          (on_js (with_timers (fun a => set_channel a c []))
             (on_host (with_live_timers
                         (without_timers (obj_values (timers (js w)).[c])))
                w)))).

(** The assignment [state.channel_mapping[channel] = next_deck]. *)
Definition rebound (c : channel) (d : Z) (w : world) : world :=
  on_js (with_channel_mapping (fun m => set_channel m c d)) w.

(** ** Concrete runs *)

(** The inputs [l] handled one after the other. *)
Fixpoint run (l : list input) (w : world) : option world :=
  match l with
  | [] => Some w
  | i :: l' =>
      match exec (handle i) w with
      | Some w' => run l' w'
      | None => None
      end
  end.

(** The script started on the quiet four-deck host. *)
Definition started : world :=
  match exec init (World initial_state quiet_host) with
  | Some w => w
  | None => World initial_state quiet_host
  end.

(** The state after the inputs [l], from [started]. *)
Definition after (l : list input) : world :=
  match run l started with
  | Some w => w
  | None => started
  end.

(** A double press of channel 0's shift button, clock at 1000 ms. *)
Definition double_press_ch0 : list input :=
  [ in_shiftPressed Ch0 0x7F 1000; in_shiftPressed Ch0 0 1100;
    in_shiftPressed Ch0 0x7F 1150; in_shiftPressed Ch0 0 1200 ].

(** A host with two decks only (the default of Mixxx). *)
Definition two_deck_host : engine :=
  Engine (fun g c => if String.eqb g "[Master]" && String.eqb c "num_decks"
                     then 2 else 0)
         [] [] 0 0 [].

(** The effect unit the focus tracker resolves to: the unit of the deck
    bound to the channel whose shift button was seen last. *)
Definition active_effect_unit (w : world) : option Z :=
  match get_deck_effect_unit (get_effect_deck w) w with
  | Some (unit, _) => unit
  | None => None
  end.

(** Channel 1 is switched to deck 3, then both shift buttons go down, left
    first, and the left one is released while the right one is held. *)
Definition both_shifts_down : list input :=
  [ in_beatjump_shift Ch1 0;
    in_shiftPressed Ch0 0x7F 5000; in_shiftPressed Ch1 0x7F 5400 ].

Definition left_shift_released : list input :=
  both_shifts_down ++ [ in_shiftPressed Ch0 0 5800 ].

(** The host reports an active loop on deck 0. *)
Definition loop_on_deck0 : list input :=
  [ in_engine_notify "[Channel1]" "loop_enabled" 1 ].

(** ** Counting toggles *)

(** Every call of [toggle_deck_channel] prints one of its two notices and
    nothing else prints them. *)
Definition is_toggle_request (e : event) : bool :=
  match e with
  | print msg =>
      String.eqb msg
        "Would toggle deck but next deck is identical (turn on 4 deck mode)."
      || String.prefix "Toggling deck from " msg
  | _ => false
  end.

(** How often the double-press action (or the pad that does the same) has
    asked for a toggle so far. *)
Definition toggle_requests (w : world) : nat :=
  List.length (filter is_toggle_request (log (host w))).

(** What the debouncer of channel [c] keeps between events, and what a
    toggle may change. *)
Definition debouncer (w : world) : per_channel (option bool * option Z) :=
  PerChannel (shift_double (channel_cell Ch0 w), shift_time (channel_cell Ch0 w))
             (shift_double (channel_cell Ch1 w), shift_time (channel_cell Ch1 w)).

(** A press and a release of the shift button of channel [c]. *)
Definition press (c : channel) (now : Z) : input := in_shiftPressed c 0x7F now.
Definition release (c : channel) (now : Z) : input := in_shiftPressed c 0 now.

(** A third press and release of channel 0's shift button, 220 ms and
    250 ms after the first press of [double_press_ch0]. *)
Definition triple_press_ch0 : list input :=
  double_press_ch0 ++ [ press Ch0 1220; release Ch0 1250 ].

(** [double_press_ch0] up to its last release. *)
Definition second_press_held_ch0 : list input :=
  [ press Ch0 1000; release Ch0 1100; press Ch0 1150 ].

(** The same gesture with the clock at 0 for the first press. *)
Definition first_press_at_zero_ch0 : list input :=
  [ press Ch0 0; release Ch0 100 ].

Definition double_press_at_zero_ch0 : list input :=
  first_press_at_zero_ch0 ++ [ press Ch0 150; release Ch0 200 ].

(** ** What the controller shows *)

(** The value the controller last got for the LED at [(st, d1)]. *)
Fixpoint led (l : list event) (st d1 : Z) : option Z :=
  match l with
  | [] => None
  | midi_sendShortMsg st' d1' v :: l' =>
      if (st' =? st) && (d1' =? d1) then Some v else led l' st d1
  | _ :: l' => led l' st d1
  end.

(** The message [e] tells the controller what it shows already. *)
Definition shown (l : list event) (e : event) : Prop :=
  match e with
  | midi_sendShortMsg st d1 v => led l st d1 = Some v
  | _ => True
  end.



Definition callback_eq_dec (a b : callback) : {a = b} + {a <> b}.
Proof. decide equality; apply Z.eq_dec. Defined.





(** The LED addresses of a light and of a pad, on both channels. *)
Definition light_addresses (m : midi_out) : list (Z * Z) :=
  [ (status m + channel_index Ch0, data1 m);
    (status m + channel_index Ch1, data1 m) ].

Definition pad_addresses (mode padnum : Z) (shift : bool) : list (Z * Z) :=
  [ (0x97 + 2 * channel_index Ch0 + (if shift then 1 else 0), mode + padnum);
    (0x97 + 2 * channel_index Ch1 + (if shift then 1 else 0), mode + padnum) ].

(** The LEDs an observer drives. *)
Definition footprint (f : callback) : list (Z * Z) :=
  match f with
  | cb_play_indicator =>
      light_addresses constants.lights.play_pause
      ++ light_addresses constants.lights.shift_play_pause
  | cb_cue_indicator =>
      light_addresses constants.lights.cue
      ++ light_addresses constants.lights.shift_cue
  | cb_vu_meter_update => light_addresses constants.lights.vu_meter
  | cb_track_loaded_animation =>
      [ (status constants.lights.load_animation, channel_index Ch0);
        (status constants.lights.load_animation, channel_index Ch1) ]
  | cb_beatsync_update => light_addresses constants.lights.beatsync
  | cb_beatmaster_update => light_addresses constants.lights.shift_beatsync
  | cb_headphone_cue_update => light_addresses constants.lights.headphone_cue
  | cb_quantize_update => light_addresses constants.lights.shift_headphone_cue
  | cb_keylock_update => pad_addresses constants.pad_modes.beat_jump 3 true
  | cb_set_loop_enabled =>
      light_addresses constants.lights.reloop
      ++ light_addresses constants.lights.shift_reloop
      ++ light_addresses constants.lights.loop_in
      ++ light_addresses constants.lights.loop_out
      ++ light_addresses constants.lights.shift_loop_in
      ++ light_addresses constants.lights.shift_loop_out
  | cb_update_beatloop padnum =>
      pad_addresses constants.pad_modes.beat_loop padnum false
  | cb_update_hotcue padnum =>
      pad_addresses constants.pad_modes.hot_cue padnum false
      ++ pad_addresses constants.pad_modes.hot_cue padnum true
  | cb_update_sampler =>
      flat_map (fun padnum =>
                  pad_addresses constants.pad_modes.sampler padnum false
                  ++ pad_addresses constants.pad_modes.sampler padnum true)
               (js_range 0 8)
  | cb_update_head_split_light =>
      pad_addresses constants.pad_modes.beat_jump 1 true
  | cb_update_fx_light => [ (status constants.lights.beat_fx, data1 constants.lights.beat_fx) ]
  end.

(** What a stretch of the run may do: it keeps the binding and the host's
    controls, writes the connection tables only at the keys [K], closes no
    connection, sends MIDI only to the addresses [A] and triggers only
    connections to the observers [F]. *)
Definition allowed (A : Z * Z -> Prop) (F : callback -> Prop) (e : event)
  : Prop :=
  match e with
  | midi_sendShortMsg st d1 _ => A (st, d1)
  | connection_trigger conn => F (conn_fun conn)
  | connection_disconnect _ => False
  | _ => True
  end.

Definition confined (K : string -> Prop) (A : Z * Z -> Prop)
  (F : callback -> Prop) (w w' : world) : Prop :=
  channel_mapping (js w') = channel_mapping (js w) /\
  controls (host w') = controls (host w) /\
  (forall c k, ~ K k ->
     obj_get (connections (js w')).[c] k = obj_get (connections (js w)).[c] k) /\
  (forall x, In x (live_connections (host w)) ->
     In x (live_connections (host w'))) /\
  (next_connection (host w) <= next_connection (host w'))%nat /\
  exists evs, log (host w') = evs ++ log (host w) /\ Forall (allowed A F) evs.

(** The messages an observer that only looks at the binding sends for a
    value: those it sends on a host that is silent otherwise. *)
Definition probe (m : per_channel Z) : world :=
  on_js (with_channel_mapping (fun _ => m)) (World initial_state quiet_host).

Definition sends (f : callback) (value : Z) (group : string)
  (m : per_channel Z) : list event :=
  match exec (run_callback f value group) (probe m) with
  | Some w => log (host w)
  | None => []
  end.

(** The observers that only look at the binding, and only send MIDI. *)
Definition plain (f : callback) : bool :=
  match f with
  | cb_set_loop_enabled | cb_update_sampler | cb_update_fx_light => false
  | _ => true
  end.

Definition disjointb (a b : list (Z * Z)) : bool :=
  forallb (fun x => negb (existsb (fun y => (fst x =? fst y) && (snd x =? snd y)) b)) a.



(** The body of the loop over the table of outputs in [connect_channel]. *)
Definition connect_one (c : channel) (group : string)
  (x : string * (callback * bool)) : M unit :=
  let '(control, (f, trig)) := x in
  conn <- makeConnection group control f ;;
  set_connection c control conn ;;
  if trig then trigger conn else ret tt.




(** * The wiring of a run *)

(** ** Which connections are live *)

Definition callback_eqb (a b : callback) : bool :=
  if callback_eq_dec a b then true else false.

(** A connection [init] makes for the whole session: the observer of the
    head split, or of the focus or a slot of an effect unit. *)
Definition is_global (x : connection) : bool :=
  match conn_fun x with
  | cb_update_head_split_light => String.eqb (conn_group x) "[Master]"
  | cb_update_fx_light => String.prefix "[EffectRack1_" (conn_group x)
  | _ => false
  end.

(** A connection [connect_channel] makes for deck [d]: an entry of the table
    of outputs on the group of the deck, or the light of one of the deck's
    samplers. *)
Definition is_deck_output (d : Z) (x : connection) : bool :=
  String.eqb (conn_group x) (deck_to_group d)
  && existsb (fun e => String.eqb (fst e) (conn_control x)
                       && callback_eqb (fst (snd e)) (conn_fun x))
             output_control_to_function.

Definition is_sampler_light (d : Z) (x : connection) : bool :=
  callback_eqb (conn_fun x) cb_update_sampler
  && String.eqb (conn_control x) "track_loaded"
  && match lookupZ constants.sampler_groups d with
     | Some l => existsb (String.eqb (conn_group x)) l
     | None => false
     end.

(** Every live connection is held by one of the three tables of the script. *)
Definition tabled (w : world) : Prop :=
  forall x, In x (live_connections (host w)) ->
    In x (obj_values (persistent_connections (js w))) \/
    exists c, In x (obj_values (connections (js w)).[c]).

Definition global_shape (w : world) : Prop :=
  forall x, In x (obj_values (persistent_connections (js w))) ->
    is_global x = true.

(** The table of channel [c] holds connections to the deck bound to [c]
    only, and one for every entry of the table of outputs, under the name
    of its control. *)
Definition shaped (c : channel) (w : world) : Prop :=
  (forall x, In x (obj_values (connections (js w)).[c]) ->
     is_deck_output (channel_to_deck c w) x
     || is_sampler_light (channel_to_deck c w) x = true) /\
  (forall ctl f (trig : bool),
     In (ctl, (f, trig)) output_control_to_function ->
     exists id, obj_get (connections (js w)).[c] ctl
                = Some (Connection id (channel_to_group c w) ctl f)).

Definition wired (w : world) : Prop :=
  tabled w /\ global_shape w /\ shaped Ch0 w /\ shaped Ch1 w.

(** What the wiring depends on. *)
Definition wiring (w : world) :=
  (live_connections (host w), connections (js w), channel_mapping (js w),
   persistent_connections (js w)).

(** [P] is kept from the start to the end of a command. *)
Definition keeps (P : world -> Prop) (w w' : world) : Prop := P w -> P w'.

(** Partial correctness: if the command returns, [Q] holds of its result. *)
Definition ensures {A} (m : M A) (Q : A -> world -> Prop) (w : world) : Prop :=
  forall a w', m w = Some (a, w') -> Q a w'.

(** One connection made, entered into the table of channel [c] under [key]
    and, when [trig] is set, triggered. *)
Definition wire (c : channel) (key group control : string) (f : callback)
  (trig : bool) : M unit :=
  conn <- makeConnection group control f ;;
  set_connection c key conn ;;
  if trig then trigger conn else ret tt.

(** What a stretch of [init] does that enters connections into
    [state.persistent_connections] under names in [F] only: the tables of
    the channels, the binding and the controls stay; whatever becomes live
    is in the persistent table; nothing leaves that table, and what enters
    it is a connection for the whole session. *)
Definition persists (F : string -> Prop) (w w' : world) : Prop :=
  connections (js w') = connections (js w) /\
  channel_mapping (js w') = channel_mapping (js w) /\
  (forall x, In x (live_connections (host w')) ->
     In x (live_connections (host w)) \/
     In x (obj_values (persistent_connections (js w')))) /\
  (forall x, In x (obj_values (persistent_connections (js w))) ->
     In x (obj_values (persistent_connections (js w')))) /\
  (forall x, In x (obj_values (persistent_connections (js w'))) ->
     In x (obj_values (persistent_connections (js w))) \/ is_global x = true) /\
  (forall k, ~ F k ->
     obj_get (persistent_connections (js w')) k
     = obj_get (persistent_connections (js w)) k).

(** ** The loop lights of a channel, as the loop observer leaves them *)




(** ** The lights of the beatjump scale pads *)

(** The LEDs of the two scale pads, pads 7 and 8 of the shifted beat-jump
    layer, on both channels. *)
Definition scale_pads : list (Z * Z) :=
  pad_addresses constants.pad_modes.beat_jump 6 true
  ++ pad_addresses constants.pad_modes.beat_jump 7 true.

(** A request that leaves the LEDs of the scale pads alone. *)
Definition off_scale (e : event) : Prop :=
  match e with
  | midi_sendShortMsg st d1 _ => disjointb [(st, d1)] scale_pads = true
  | _ => True
  end.

Definition scale_steps (w : world) : option Z * option Z :=
  (beatjump_scalestep (channel_cell Ch0 w),
   beatjump_scalestep (channel_cell Ch1 w)).

(** The scale pads of channel [c] show whether the step may go further
    down (pad 7) and further up (pad 8). *)
Definition scale_lights_of (c : channel) (w : world) : Prop :=
  led (log (host w)) (0x98 + 2 * channel_index c)
      (constants.pad_modes.beat_jump + 6)
  = Some (if allow_beatjump_downscale c w then 0x7F else 0x00) /\
  led (log (host w)) (0x98 + 2 * channel_index c)
      (constants.pad_modes.beat_jump + 7)
  = Some (if allow_beatjump_upscale c w then 0x7F else 0x00).

Definition scale_lights_shown (w : world) : Prop :=
  forall c, scale_lights_of c w.

(** * The handlers of buttons, pads and the jog wheel *)

(** ** Deck buttons

    Each handler gets the hardware channel and the MIDI value of the
    message; the arguments the script ignores are left out. *)

(** [group] is the name the mapping file gives the button: ['L'] for the
    left deck, anything else for the right one. *)
Definition LoadSelectedTrack (value : Z) (group : string) : M unit :=
  if negb (truthy value) then ret tt
  else
    let c := if String.eqb group "L" then Ch0 else Ch1 in
    g <- gets (channel_to_group c) ;;
    setValue g "LoadSelectedTrack" 1.

Definition play (c : channel) (value : Z) : M unit :=
  if truthy value then
    g <- gets (channel_to_group c) ;;
    toggleControl g "play"
  else ret tt.

Definition reverseroll (c : channel) (value : Z) : M unit :=
  g <- gets (channel_to_group c) ;;
  setValue g "reverseroll" value.

Definition cue_default (c : channel) (value : Z) : M unit :=
  group <- gets (channel_to_group c) ;;
  setValue group "cue_default" value.

Definition start_play (c : channel) (value : Z) : M unit :=
  g <- gets (channel_to_group c) ;;
  setValue g "start_play" value.

Definition loop_in_long (c : channel) (_value : Z) : M unit :=
  group <- gets (channel_to_group c) ;;
  active <- gets (get_loop_active group) ;;
  if truthy active then ret tt
  else
    setValue group "beatloop_size" 4 ;;
    setValue group "beatloop_keep_loopin" 4.

Definition reloop_toggle (c : channel) (value : Z) : M unit :=
  if negb (truthy value) then ret tt
  else
    group <- gets (channel_to_group c) ;;
    setValue group "reloop_toggle" 1.

Definition reloop_andstop (c : channel) (value : Z) : M unit :=
  if negb (truthy value) then ret tt
  else
    group <- gets (channel_to_group c) ;;
    setValue group "reloop_andstop" 1.

Definition cueLoopCallRight (c : channel) (value : Z) : M unit :=
  if negb (truthy value) then ret tt
  else
    g <- gets (channel_to_group c) ;;
    setValue g "loop_scale" 2.

Definition quick_jump_size : Z := 32.

Definition quickJumpBack (c : channel) (value : Z) : M unit :=
  if negb (truthy value) then ret tt
  else
    g <- gets (channel_to_group c) ;;
    setValue g "beatjump" (- quick_jump_size).

Definition quickJumpForward (c : channel) (value : Z) : M unit :=
  if negb (truthy value) then ret tt
  else
    g <- gets (channel_to_group c) ;;
    setValue g "beatjump" quick_jump_size.

Definition toggleQuantize (c : channel) (value : Z) : M unit :=
  if negb (truthy value) then ret tt
  else
    g <- gets (channel_to_group c) ;;
    toggleControl g "quantize".

Definition headphone_cue (c : channel) (value : Z) : M unit :=
  if negb (truthy value) then ret tt
  else
    g <- gets (channel_to_group c) ;;
    toggleControl g "pfl".

Definition syncPressed (c : channel) (value : Z) : M unit :=
  if negb (truthy value) then ret tt
  else
    (* set as slave *)
    group <- gets (channel_to_group c) ;;
    mode <- gets (engine_getValue group "sync_mode") ;;
    if truthy mode then setValue group "sync_mode" 0
    else
      setValue group "beatsync" 1 ;;
      setValue group "sync_mode" 1.

Definition syncLongPressed (c : channel) (value : Z) : M unit :=
  if negb (truthy value) then ret tt
  else
    (* set as master *)
    group <- gets (channel_to_group c) ;;
    mode <- gets (engine_getValue group "sync_mode") ;;
    if truthy mode then setValue group "sync_mode" 0
    else setValue group "sync_mode" 2.

Definition fast_seek_scale : Z := 150.

Definition jogSearch (c : channel) (value : Z) : M unit :=
  let new_value := (value - 64) * fast_seek_scale in
  g <- gets (channel_to_group c) ;;
  setValue g "jog" new_value.

(** The handlers above that take the channel and the value. *)
Definition deck_buttons : list (channel -> Z -> M unit) :=
  [ play; reverseroll; cue_default; start_play; loop_in_long; reloop_toggle;
    reloop_andstop; cueLoopCallRight; quickJumpBack; quickJumpForward;
    toggleQuantize; headphone_cue; syncPressed; syncLongPressed; jogSearch ].

(** The request [e] sets or toggles a control of the group [g]. *)
Definition addresses (g : string) (e : event) : Prop :=
  match e with
  | engine_setValue g' _ _ | script_toggleControl g' _ => g' = g
  | _ => False
  end.

(** ** Requests outside the record of events

    [event] has no constructor for [engine.brake] and the scratch functions,
    nor for an [engine.setValue] whose value is not an integer.  These calls
    are kept as parameters: commands of which nothing is assumed. *)
Class host_calls : Type := HostCalls {
  (** [engine.brake(deck, activate, factor)] *)
  engine_brake : Z -> Z -> Z -> M unit;
  (** [engine.scratchEnable(deck, 720, 33 + 1/3, jog_alpha, jog_beta)] *)
  engine_scratchEnable : Z -> M unit;
  (** [engine.scratchDisable(deck)] *)
  engine_scratchDisable : Z -> M unit;
  (** what [jogTurn] does with a tick outside loop adjust:
      [engine.scratchTick(deck, ticks)] while the deck is scratching, and
      [engine.setValue(group, "jog", ticks * bend_scale)] otherwise *)
  jog_move : Z -> string -> Z -> M unit;
  (** [engine.setValue(group, key, Math.pow(base, exponent) * factor)],
      where the exponent or the factor may be [undefined] *)
  engine_setValue_pow : string -> string -> Z -> option Z -> option Z -> M unit;
  (** [engine.setValue(group, key, NaN)] *)
  engine_setValue_nan : string -> string -> M unit;
  (** [engine.setValue(group, key, undefined)] *)
  engine_setValue_undefined : string -> string -> M unit;
  (** the group the host looks up when it is handed [undefined] *)
  undefined_group : string
}.

(** A host on which these calls do nothing. *)
Definition no_calls : host_calls :=
  HostCalls (fun _ _ _ => ret tt) (fun _ => ret tt) (fun _ => ret tt)
            (fun _ _ _ => ret tt) (fun _ _ _ _ _ => ret tt)
            (fun _ _ => ret tt) (fun _ _ => ret tt) "undefined".

(** ** Pads *)

(** [constants.beatloop_sizes].  The sizes 0.25 .. 32 are only ever made
    part of a control name; they are kept as the text JavaScript renders
    them to. *)
Definition beatloop_sizes : list string :=
  ["0.25"; "0.5"; "1"; "2"; "4"; "8"; "16"; "32"].

Definition beatjump_sizes : list Z := [-1; 1; -2; 2; -4; 4; -8; 8].
Definition beatjump_scalefac : Z := 16.
Definition brake_speed : Z := 20.

Definition handle_hotcue (c : channel) (padnum : Z) (shift : bool) (value : Z)
  : M unit :=
  let padidx := padnum + 1 in
  if shift then
    if truthy value then
      g <- gets (channel_to_group c) ;;
      setValue g ("hotcue_" ++ number_to_string padidx ++ "_clear")%string 1
    else ret tt
  else
    g <- gets (channel_to_group c) ;;
    setValue g ("hotcue_" ++ number_to_string padidx ++ "_activate")%string
             value.

Definition handle_beatloop (c : channel) (padnum : Z) (shift : bool)
  (value : Z) : M unit :=
  if negb (truthy value) || shift then ret tt
  else
    let size := match lookupZ beatloop_sizes padnum with
                | Some s => s
                | None => "undefined"
                end in
    let control_name := ("beatloop_" ++ size ++ "_toggle")%string in
    g <- gets (channel_to_group c) ;;
    setValue g control_name 1.

Section Pads.
Context `{host_calls}.

Definition handle_beatjump (c : channel) (padnum : Z) (shift : bool)
  (value : Z) : M unit :=
  if negb (truthy value) then ret tt
  else if shift then handle_beatjump_shift c padnum
  else
    group <- gets (channel_to_group c) ;;
    scalestep <- gets (fun w => beatjump_scalestep (channel_cell c w)) ;;
    engine_setValue_pow group "beatjump" beatjump_scalefac scalestep
                        (lookupZ beatjump_sizes padnum).

Definition handle_sampler (c : channel) (padnum : Z) (shift : bool)
  (value : Z) : M unit :=
  d <- gets (channel_to_deck c) ;;
  deck_samplers <- deck_samplers_of d ;;
  let sampler_group := match lookupZ deck_samplers padnum with
                       | Some g => g
                       | None => undefined_group
                       end in
  if shift then
    playing <- gets (engine_getValue sampler_group "play") ;;
    if truthy playing then setValue sampler_group "cue_gotoandstop" value
    else
      loaded <- gets (engine_getValue sampler_group "track_loaded") ;;
      if truthy loaded then setValue sampler_group "eject" value
      else ret tt
  else
    loaded <- gets (engine_getValue sampler_group "track_loaded") ;;
    if truthy loaded then setValue sampler_group "cue_gotoandplay" value
    else setValue sampler_group "LoadSelectedTrack" value.

Definition handle_fx1 (c : channel) (padnum : Z) (shift : bool) (value : Z)
  : M unit :=
  if shift then ret tt
  else if padnum =? 0 then
    d <- gets (channel_to_deck c) ;;
    let mixxx_deck_idx := d + 1 in
    engine_brake mixxx_deck_idx value brake_speed
  else ret tt.

(** [padchannel] is the MIDI channel of the message, [control] its first
    data byte. *)
Definition handle_pad (padchannel control value : Z) : M unit :=
  let c := padchannel_to_channel padchannel in
  let shift := padchannel_has_shift padchannel in
  let padnum := Z.land control 0x0f in
  let mode := Z.land control 0xf0 in
  if mode =? constants.pad_modes.hot_cue then
    handle_hotcue c padnum shift value
  else if mode =? constants.pad_modes.beat_loop then
    handle_beatloop c padnum shift value
  else if mode =? constants.pad_modes.beat_jump then
    handle_beatjump c padnum shift value
  else if mode =? constants.pad_modes.sampler then
    handle_sampler c padnum shift value
  else if mode =? constants.pad_modes.keyboard then ret tt
  else if mode =? constants.pad_modes.fx_1 then
    handle_fx1 c padnum shift value
  else if mode =? constants.pad_modes.fx_2 then ret tt
  else if mode =? constants.pad_modes.key_shift then ret tt
  else ret tt.

End Pads.

(** ** Effects *)

(** The slot [switch_effect_slot] asks the host to focus, from the number
    of slots and the slot focused now; [None] stands for [NaN]. *)
Definition switched_focus (next : bool) (num_slots old_focus : Z) : option Z :=
  let delta := if next then 1 else -1 in
  let new_focus :=
    if truthy old_focus then
      let old_focus := old_focus - 1 in
      let new_focus := old_focus + delta in
      if new_focus <? 0 then Some (new_focus + num_slots)
      else js_rem new_focus num_slots
    else Some 0 in
  option_map (fun n => n + 1) new_focus.

(** [for (i = from; i < to; i++)] with a local variable the body updates. *)
Fixpoint fold_each {A S} (l : list A) (s : S) (body : A -> S -> M S) : M S :=
  match l with
  | [] => ret s
  | x :: l' => s' <- body x s ;; fold_each l' s' body
  end.

(** A local array with holes, and the assignment to one of its cells. *)
Definition set_index (a : Z -> option Z) (i v : Z) : Z -> option Z :=
  fun j => if j =? i then Some v else a j.

(** Inequality of two values that may be [undefined]. *)
Definition opt_neqb (a b : option Z) : bool :=
  match a, b with
  | Some x, Some y => negb (x =? y)
  | None, None => false
  | _, _ => true
  end.

Section Effects.
Context `{host_calls}.

Definition switch_effect_slot (next : bool) : M unit :=
  d <- gets get_effect_deck ;;
  unit <- get_deck_effect_unit d ;;
  let unit_group := get_effect_unit_group unit in
  num_slots <- gets (get_num_effect_slots unit) ;;
  old_focus <- get_focussed_effect d ;;
  match switched_focus next num_slots old_focus with
  | Some new_focus => setValue unit_group "focused_effect" new_focus
  | None => engine_setValue_nan unit_group "focused_effect"
  end.

Definition next_effect_slot (value : Z) : M unit :=
  if truthy value then switch_effect_slot true else ret tt.

Definition prev_effect_slot (value : Z) : M unit :=
  if truthy value then switch_effect_slot false else ret tt.

(** [engine.setValue(group, key, enable[deck])] *)
Definition set_enable (group key : string) (v : option Z) : M unit :=
  match v with
  | Some v => setValue group key v
  | None => engine_setValue_undefined group key
  end.

Definition beat_fx_channel (control value : Z) : M unit :=
  if value =? 0x00 then ret tt
  else
    num_decks <- gets get_num_decks ;;
    let enable : Z -> option Z :=
      fun d => if (0 <=? d) && (d <=? num_decks) then Some 0 else None in
    deck0 <- gets (channel_to_deck Ch0) ;;
    deck1 <- gets (channel_to_deck Ch1) ;;
    let enable :=
      if control =? 0x10 then set_index enable deck0 1
      else if control =? 0x11 then set_index enable deck1 1
      else if control =? 0x14 then set_index enable num_decks 1
      else enable in
    effect_deck <- gets get_effect_deck ;;
    effect_unit <- get_deck_effect_unit effect_deck ;;
    enable <- fold_each (js_range 0 num_decks) enable (fun d enable =>
      unit <- get_deck_effect_unit d ;;
      ret (if opt_neqb unit effect_unit then set_index enable d 0
           else enable)) ;;
    for_each (js_range 0 num_decks) (fun d =>
      set_enable (get_effect_unit_group effect_unit)
        ("group_[Channel" ++ number_to_string (d + 1) ++ "]_enable")%string
        (enable d)) ;;
    let deck := Z.max 0 num_decks in
    set_enable (get_effect_unit_group effect_unit) "group_[Master]_enable"
               (enable deck).

End Effects.

(** ** The jog wheel *)

Definition loop_adjust_multiply : Z := 50.

Section Jog.
Context `{host_calls}.

Definition jogTurn (c : channel) (value : Z) : M unit :=
  d <- gets (channel_to_deck c) ;;
  let group := deck_to_group d in
  (* wheel center at 64; <64 rew >64 fwd *)
  let new_value := value - 64 in
  let move := jog_move (d + 1) group new_value in
  (* loop_in / out adjust *)
  loop_enabled <- gets (get_loop_active group) ;;
  if 0 <? loop_enabled then
    loop_modifier <- get_loop_adjust_state d ;;
    let adjust_value := new_value * loop_adjust_multiply in
    if loop_modifier =? constants.loop_modifiers.adjust_in then
      pos <- gets (engine_getValue group "loop_start_position") ;;
      setValue group "loop_start_position" (adjust_value + pos)
    else if loop_modifier =? constants.loop_modifiers.adjust_out then
      pos <- gets (engine_getValue group "loop_end_position") ;;
      setValue group "loop_end_position" (adjust_value + pos)
    else move
  else move.

Definition jogTouch (c : channel) (value : Z) : M unit :=
  d <- gets (channel_to_deck c) ;;
  (* skip while adjusting the loop points *)
  s <- get_loop_adjust_state d ;;
  if negb (s =? constants.loop_modifiers.none) then ret tt
  else
    let group_number := d + 1 in
    (* vinyl_mode is true *)
    if negb (value =? 0) then engine_scratchEnable group_number
    else engine_scratchDisable group_number.

End Jog.

(** The host reports three slots for effect unit 1, the last one focused. *)
Definition three_slots_last_focused : list input :=
  [ in_engine_notify "[EffectRack1_EffectUnit1]" "num_effectslots" 3;
    in_engine_notify "[EffectRack1_EffectUnit1]" "focused_effect" 3 ].

(** The effect units of the four decks. *)
Definition effect_units (w : world) : list (option Z) :=
  map effect_unit (deck (js w)).

(** * Proofs *)

(** ** The monad *)

Lemma wp_intro {A} (m : M A) (Q : A -> world -> Prop) w a w' :
  m w = Some (a, w') -> Q a w' -> wp m Q w.
Proof. unfold wp. intros ->. auto. Qed.

Lemma wp_elim {A} (m : M A) (Q : A -> world -> Prop) w :
  wp m Q w -> exists a w', m w = Some (a, w') /\ Q a w'.
Proof.
  unfold wp. destruct (m w) as [[a w']|]; [eauto | tauto].
Qed.

Lemma wp_mono {A} (m : M A) (Q Q' : A -> world -> Prop) w :
  wp m Q w -> (forall a w', Q a w' -> Q' a w') -> wp m Q' w.
Proof.
  unfold wp. destruct (m w) as [[a w']|]; auto.
Qed.

Lemma wp_conj {A} (m : M A) (Q Q' : A -> world -> Prop) w :
  wp m Q w -> wp m Q' w -> wp m (fun a w' => Q a w' /\ Q' a w') w.
Proof.
  unfold wp. destruct (m w) as [[a w']|]; auto.
Qed.

Lemma wp_respects {A} (m : M A) R (Q : A -> world -> Prop) w :
  wp m Q w -> respects R m -> wp m (fun a w' => Q a w' /\ R w w') w.
Proof.
  intros H HR. unfold wp in *. specialize (HR w).
  destruct (m w) as [[a w']|]; [split; eauto | tauto].
Qed.

Lemma wp_ret {A} (a : A) (Q : A -> world -> Prop) w :
  Q a w -> wp (ret a) Q w.
Proof. auto. Qed.

Lemma wp_gets {A} (f : world -> A) (Q : A -> world -> Prop) w :
  Q (f w) w -> wp (gets f) Q w.
Proof. auto. Qed.

Lemma wp_modify (f : world -> world) (Q : unit -> world -> Prop) w :
  Q tt (f w) -> wp (modify f) Q w.
Proof. auto. Qed.

Lemma wp_bind {A B} (m : M A) (k : A -> M B) (Q : B -> world -> Prop) w :
  wp m (fun a w' => wp (k a) Q w') w -> wp (bind m k) Q w.
Proof.
  unfold wp, bind. destruct (m w) as [[a w']|]; auto.
Qed.

Lemma wp_bind_inv {A B} (m : M A) (k : A -> M B) (Q : B -> world -> Prop) w :
  wp (bind m k) Q w -> wp m (fun a w' => wp (k a) Q w') w.
Proof.
  unfold wp, bind. destruct (m w) as [[a w']|]; auto.
Qed.

Lemma bind_some {A B} (m : M A) (k : A -> M B) w b w' :
  bind m k w = Some (b, w') ->
  exists a w1, m w = Some (a, w1) /\ k a w1 = Some (b, w').
Proof.
  unfold bind. destruct (m w) as [[a w1]|]; [eauto | discriminate].
Qed.

Lemma exec_some {A} (m : M A) w w' :
  exec m w = Some w' <-> exists a, m w = Some (a, w').
Proof.
  unfold exec. destruct (m w) as [[a w1]|]; split.
  - intros [= <-]. eauto.
  - intros [a' [= _ <-]]. reflexivity.
  - discriminate.
  - intros [a' H]. discriminate.
Qed.

Lemma exec_wp {A} (m : M A) (Q : A -> world -> Prop) w :
  wp m Q w -> exists w', exec m w = Some w' /\ exists a, Q a w'.
Proof.
  intros H. apply wp_elim in H as (a & w' & E & HQ).
  exists w'. split; [apply exec_some|]; eauto.
Qed.

(** A loop whose invariant may depend on the part of the list already
    visited. *)
Lemma wp_for_each_prefix {A} (l : list A) (body : A -> M unit)
  (I : list A -> world -> Prop) :
  (forall pre x post w, l = pre ++ x :: post -> I pre w ->
     wp (body x) (fun _ => I (pre ++ [x])) w) ->
  forall w, I [] w -> wp (for_each l body) (fun _ => I l) w.
Proof.
  intros Hbody.
  assert (G : forall post pre w, l = pre ++ post -> I pre w ->
                wp (for_each post body) (fun _ => I l) w).
  { induction post as [|x post IH]; intros pre w E HI.
    - rewrite app_nil_r in E. subst. exact HI.
    - simpl. apply wp_bind.
      eapply wp_mono; [eapply Hbody; eauto|].
      intros u w1 H1. apply (IH (pre ++ [x])); auto.
      rewrite <- app_assoc. exact E. }
  intros w HI. apply (G l []); auto.
Qed.

Lemma wp_for_each {A} (l : list A) (body : A -> M unit) (I : world -> Prop) :
  (forall x w, In x l -> I w -> wp (body x) (fun _ => I) w) ->
  forall w, I w -> wp (for_each l body) (fun _ => I) w.
Proof.
  intros Hbody w HI.
  apply (wp_for_each_prefix l body (fun _ => I)); auto.
  intros pre x post w1 E H1. apply Hbody; auto.
  rewrite E. apply in_or_app. right. left. reflexivity.
Qed.

Section Respects.
Context (R : world -> world -> Prop) {Rpre : PreOrder R}.

Lemma respects_ret {A} (a : A) : respects R (ret a).
Proof. intros w a' w' [= _ <-]. reflexivity. Qed.

Lemma respects_gets {A} (f : world -> A) : respects R (gets f).
Proof. intros w a' w' [= _ <-]. reflexivity. Qed.

Lemma respects_throw {A} : respects R (@throw A).
Proof. intros w a' w' [=]. Qed.

Lemma respects_modify (f : world -> world) :
  (forall w, R w (f w)) -> respects R (modify f).
Proof. intros H w a' w' [= _ <-]. apply H. Qed.

Lemma respects_reads {A} (m : M A) : reads m -> respects R m.
Proof. intros H w a w' E. rewrite (H _ _ _ E). reflexivity. Qed.

Lemma respects_bind {A B} (m : M A) (k : A -> M B) :
  respects R m -> (forall a, respects R (k a)) -> respects R (bind m k).
Proof.
  intros Hm Hk w b w' E. apply bind_some in E as (a & w1 & E1 & E2).
  transitivity w1; [eapply Hm | eapply Hk]; eauto.
Qed.

Lemma respects_for_each {A} (l : list A) (body : A -> M unit) :
  (forall x, respects R (body x)) -> respects R (for_each l body).
Proof.
  intros Hbody. induction l as [|x l IH]; simpl.
  - apply respects_ret.
  - apply respects_bind; auto.
Qed.
End Respects.

Lemma reads_deck_cell d : reads (deck_cell d).
Proof.
  intros w a w'. unfold deck_cell.
  destruct (lookupZ (deck (js w)) d); [intros [= _ <-]; reflexivity | discriminate].
Qed.

#[export] Instance same_preorder {B} (f : world -> B) : PreOrder (same f).
Proof.
  split.
  - intros w. reflexivity.
  - intros a b c H1 H2. unfold same in *. congruence.
Qed.

#[export] Instance log_grows_preorder (ok : event -> Prop) :
  PreOrder (log_grows ok).
Proof.
  split.
  - intros w. exists []. auto.
  - intros a b c (e1 & E1 & F1) (e2 & E2 & F2). exists (e2 ++ e1). split.
    + rewrite E2, E1, app_assoc. reflexivity.
    + apply Forall_app. auto.
Qed.

(** Walks through a command down to the state updates it is made of;
    [leaf] has to show that a single update respects the relation. *)
Ltac respects_walk leaf :=
  repeat lazymatch goal with
  | |- forall _, _ => intro
  | |- PreOrder _ => exact _
  | |- respects _ (bind _ _) => apply respects_bind
  | |- respects _ (ret _) => apply respects_ret
  | |- respects _ (gets _) => apply respects_gets
  | |- respects _ throw => apply respects_throw
  | |- respects _ (deck_cell _) => apply respects_reads, reads_deck_cell
  | |- respects _ (for_each _ _) => apply respects_for_each
  | |- respects _ (modify _) => apply respects_modify; intro; leaf
  | |- respects _ (if ?b then _ else _) => destruct b
  | |- respects _ (match ?x with _ => _ end) => destruct x
  | |- respects _ (let _ := _ in _) => cbv zeta
  | |- respects _ ?m => let h := head_of m in unfold h
  end
with head_of m :=
  lazymatch m with
  | ?f _ => head_of f
  | _ => m
  end.

Ltac same_leaf :=
  idtac;
  match goal with
  | w : world |- _ => destruct w as [[] []]
  end;
  first [ reflexivity
        | repeat match goal with c : channel |- _ => destruct c end;
          reflexivity ].

Lemma connect_channel_mapping c :
  respects (same (fun w => channel_mapping (js w))) (connect_channel c).
Proof. respects_walk same_leaf. Qed.

(** ** Tables and arrays *)

Lemma at_set_same {A} (a : per_channel A) c x : (set_channel a c x).[c] = x.
Proof. destruct c; reflexivity. Qed.

Lemma at_set_other {A} (a : per_channel A) c x :
  (set_channel a c x).[other c] = a.[other c].
Proof. destruct c; reflexivity. Qed.

Lemma channel_eqb_eq a b : channel_eqb a b = true <-> a = b.
Proof. destruct a, b; simpl; split; congruence. Qed.

Lemma obj_get_set_same {A} (o : jsobj A) k v : obj_get (obj_set o k v) k = v.
Proof.
  induction o as [|[k' v'] o IH]; simpl.
  - rewrite String.eqb_refl. reflexivity.
  - destruct (String.eqb k' k) eqn:E; simpl; rewrite E; auto.
Qed.

Lemma obj_get_set_other {A} (o : jsobj A) k k' v :
  k <> k' -> obj_get (obj_set o k v) k' = obj_get o k'.
Proof.
  intros Hk. induction o as [|[k0 v0] o IH]; simpl.
  - destruct (String.eqb_spec k k'); [contradiction | reflexivity].
  - destruct (String.eqb_spec k0 k) as [->|N]; simpl.
    + destruct (String.eqb_spec k k'); [contradiction | reflexivity].
    + destruct (String.eqb k0 k'); auto.
Qed.

Lemma obj_get_values {A} (o : jsobj A) k v :
  obj_get o k = Some v -> In v (obj_values o).
Proof.
  induction o as [|[k' [v'|]] o IH]; simpl; try discriminate.
  - destruct (String.eqb k' k); [intros [= ->]; auto | auto].
  - destruct (String.eqb k' k); [discriminate | auto].
Qed.

Lemma obj_values_set {A} (o : jsobj A) k v x :
  In x (obj_values (obj_set o k v)) -> v = Some x \/ In x (obj_values o).
Proof.
  induction o as [|[k' v'] o IH]; simpl.
  - destruct v; simpl; [intros [->|[]]; auto | tauto].
  - destruct (String.eqb k' k); simpl.
    + destruct v, v'; simpl; intuition (subst; auto).
    + destruct v'; simpl; intuition.
Qed.

Lemma list_set_length {A} (l : list A) n x :
  List.length (list_set l n x) = List.length l.
Proof.
  revert n. induction l as [|y l IH]; intros [|n]; simpl; auto.
Qed.

Lemma lookupZ_some {A} (l : list A) d :
  0 <= d < Z.of_nat (List.length l) -> exists x, lookupZ l d = Some x.
Proof.
  intros H. unfold lookupZ.
  destruct (Z.ltb_spec d 0); [lia|].
  destruct (nth_error l (Z.to_nat d)) eqn:E; [eauto|].
  apply nth_error_None in E. lia.
Qed.

Lemma lookupZ_list_set_same {A} (l : list A) d x :
  0 <= d < Z.of_nat (List.length l) ->
  lookupZ (list_set l (Z.to_nat d) x) d = Some x.
Proof.
  intros H. unfold lookupZ. destruct (Z.ltb_spec d 0); [lia|].
  assert (Hn : (Z.to_nat d < List.length l)%nat) by lia.
  clear H H0. revert Hn. generalize (Z.to_nat d) as n.
  induction l as [|y l IH]; intros [|n]; simpl; intros; try lia; auto.
  apply IH. lia.
Qed.

Lemma lookupZ_list_set_other {A} (l : list A) d d' x :
  0 <= d -> 0 <= d' -> d <> d' ->
  lookupZ (list_set l (Z.to_nat d) x) d' = lookupZ l d'.
Proof.
  intros H H' N. unfold lookupZ. destruct (Z.ltb_spec d' 0); [lia|].
  assert (Hn : Z.to_nat d <> Z.to_nat d') by lia.
  revert Hn. generalize (Z.to_nat d) as n. generalize (Z.to_nat d') as n'.
  clear. induction l as [|y l IH]; intros [|n'] [|n]; simpl; intros; auto;
    try congruence.
Qed.

Lemma group_to_deck_range g : 0 <= group_to_deck g < 4.
Proof.
  unfold group_to_deck.
  repeat match goal with |- context [if ?b then _ else _] => destruct b end;
    lia.
Qed.

(** ** Replaying the log *)

Lemma always_now P l : always P l -> P l.
Proof. destruct l; simpl; tauto. Qed.

Lemma running_passive evs l :
  Forall passive evs -> running (evs ++ l) = running l.
Proof.
  induction 1 as [|e evs He _ IH]; simpl; auto.
  destruct e; simpl in *; auto; contradiction.
Qed.

Lemma connected_passive evs l :
  Forall passive evs -> connected (evs ++ l) = connected l.
Proof.
  induction 1 as [|e evs He _ IH]; simpl; auto.
  destruct e; simpl in *; auto; contradiction.
Qed.

Lemma singular_same l l' : running l' = running l -> singular l -> singular l'.
Proof. unfold singular. intros ->. auto. Qed.

Lemma filter_length_le {A} (f : A -> bool) l :
  (List.length (filter f l) <= List.length l)%nat.
Proof. induction l; simpl; [lia | destruct (f a); simpl; lia]. Qed.

Lemma filter_comm {A} (f g : A -> bool) l :
  filter f (filter g l) = filter g (filter f l).
Proof.
  induction l as [|x l IH]; simpl; auto.
  destruct (f x) eqn:Ef, (g x) eqn:Eg; simpl; rewrite ?Ef, ?Eg, IH; auto.
Qed.

Lemma singular_stop id l : singular l -> singular (engine_stopTimer id :: l).
Proof.
  unfold singular. simpl. intros H c. rewrite filter_comm.
  eapply Nat.le_trans; [apply filter_length_le | apply H].
Qed.

Lemma always_cons_same P e l :
  P (e :: l) -> always P l -> always P (e :: l).
Proof. simpl. auto. Qed.

Lemma always_untimed evs l :
  (forall e l', In e evs -> running (e :: l') = running l') ->
  always singular l -> always singular (evs ++ l).
Proof.
  induction evs as [|e evs IH]; simpl; intros He H; [exact H|].
  assert (Hevs : always singular (evs ++ l)).
  { apply IH; [|exact H]. intros e' l' Hin. apply He. right. exact Hin. }
  split; [|exact Hevs].
  apply singular_same with (l := evs ++ l).
  - apply He. left. reflexivity.
  - apply always_now, Hevs.
Qed.

Lemma always_passive evs l :
  Forall passive evs -> always singular l -> always singular (evs ++ l).
Proof.
  intros H. apply always_untimed. intros e l' Hin.
  rewrite Forall_forall in H. specialize (H e Hin).
  destruct e; simpl in *; auto; contradiction.
Qed.

Lemma always_stops ids : forall l,
  always singular l ->
  always singular (rev (map engine_stopTimer ids) ++ l).
Proof.
  induction ids as [|id ids IH]; simpl; intros l H; auto.
  rewrite <- app_assoc. simpl. apply IH. simpl. split; [|exact H].
  apply singular_stop, always_now, H.
Qed.

Lemma filter_filter {A} (f g : A -> bool) l :
  filter f (filter g l) = filter (fun x => g x && f x) l.
Proof.
  induction l as [|x l IH]; simpl; auto.
  destruct (g x); simpl; [destruct (f x)|]; rewrite ?IH; auto.
Qed.

Lemma filter_ext' {A} (f g : A -> bool) l :
  (forall x, f x = g x) -> filter f l = filter g l.
Proof. intros H. induction l; simpl; rewrite ?H, ?IHl; auto. Qed.

Lemma filter_true {A} (l : list A) : filter (fun _ => true) l = l.
Proof. induction l; simpl; congruence. Qed.

Lemma filter_map_swap {A B} (f : A -> B) (p : B -> bool) l :
  filter p (map f l) = map f (filter (fun x => p (f x)) l).
Proof.
  induction l as [|x l IH]; simpl; auto.
  destruct (p (f x)); simpl; rewrite IH; auto.
Qed.

Lemma running_stops ids : forall l,
  running (rev (map engine_stopTimer ids) ++ l)
  = filter (fun p => negb (existsb (Nat.eqb (fst p)) ids)) (running l).
Proof.
  induction ids as [|id ids IH]; simpl; intros l.
  - rewrite filter_true. reflexivity.
  - rewrite <- app_assoc. simpl. rewrite IH. simpl.
    rewrite filter_filter. apply filter_ext'. intros p.
    destruct (Nat.eqb (fst p) id); reflexivity.
Qed.

Lemma connected_disconnects cs : forall l,
  connected (rev (map connection_disconnect cs) ++ l)
  = without_connections cs (connected l).
Proof.
  unfold without_connections.
  induction cs as [|c cs IH]; simpl; intros l.
  - rewrite filter_true. reflexivity.
  - rewrite <- app_assoc. simpl. rewrite IH. simpl.
    rewrite filter_filter. apply filter_ext'. intros p.
    destruct (Nat.eqb (conn_id p) (conn_id c)); reflexivity.
Qed.

Lemma running_untimed evs l :
  (forall e l', In e evs -> running (e :: l') = running l') ->
  running (evs ++ l) = running l.
Proof.
  induction evs as [|e evs IH]; simpl; auto.
  intros He. rewrite He by (left; reflexivity).
  apply IH. intros e' l' Hin. apply He. right. exact Hin.
Qed.

Lemma connected_unconnected evs l :
  (forall e l', In e evs -> connected (e :: l') = connected l') ->
  connected (evs ++ l) = connected l.
Proof.
  induction evs as [|e evs IH]; simpl; auto.
  intros He. rewrite He by (left; reflexivity).
  apply IH. intros e' l' Hin. apply He. right. exact Hin.
Qed.

Lemma in_rev_map {A B} (f : A -> B) l y :
  In y (rev (map f l)) -> exists x, y = f x.
Proof.
  rewrite <- in_rev, in_map_iff. intros (x & E & _). eauto.
Qed.

(** ** Commands that never throw, commands that only log *)

Lemma total_ret {A} (a : A) : total (ret a).
Proof. intros w. unfold ret. eauto. Qed.

Lemma total_gets {A} (f : world -> A) : total (gets f).
Proof. intros w. unfold gets. eauto. Qed.

Lemma total_modify f : total (modify f).
Proof. intros w. unfold modify. eauto. Qed.

Lemma total_bind {A B} (m : M A) (k : A -> M B) :
  total m -> (forall a, total (k a)) -> total (bind m k).
Proof.
  intros Hm Hk w. destruct (Hm w) as (a & w1 & E).
  destruct (Hk a w1) as (b & w2 & E2).
  exists b, w2. unfold bind. rewrite E. exact E2.
Qed.

Lemma total_for_each {A} (l : list A) (body : A -> M unit) :
  (forall x, total (body x)) -> total (for_each l body).
Proof.
  intros H. induction l; simpl; [apply total_ret | apply total_bind; auto].
Qed.

Ltac total_walk :=
  repeat lazymatch goal with
  | |- forall _, _ => intro
  | |- total (bind _ _) => apply total_bind
  | |- total (ret _) => apply total_ret
  | |- total (gets _) => apply total_gets
  | |- total (modify _) => apply total_modify
  | |- total (for_each _ _) => apply total_for_each
  | |- total (if ?b then _ else _) => destruct b
  | |- total (match ?x with _ => _ end) => destruct x
  | |- total (let _ := _ in _) => cbv zeta
  | |- total ?m => let h := head_of m in unfold h
  end.

#[export] Instance only_logged_preorder : PreOrder only_logged.
Proof.
  split.
  - intros w. exists []. split; [|constructor].
    destruct w as [s []]. reflexivity.
  - intros a b c (e1 & -> & F1) (e2 & -> & F2). exists (e2 ++ e1).
    split; [|apply Forall_app; auto].
    destruct a as [s []]. unfold add_events, on_host, with_log. simpl.
    rewrite app_assoc. reflexivity.
Qed.

Ltac logged_leaf :=
  idtac;
  match goal with
  | |- only_logged ?w (on_host (with_log (cons ?e)) ?w) =>
      exists [e]; split; [reflexivity | constructor; [exact I | constructor]]
  end.

Ltac logged_walk := respects_walk logged_leaf.

(** A command that never throws and only logs keeps whatever does not
    depend on the passive part of the log. *)
Lemma wp_logged {A} (m : M A) (P : world -> Prop) w :
  total m -> respects only_logged m ->
  (forall evs, Forall passive evs -> P (add_events evs w)) ->
  wp m (fun _ => P) w.
Proof.
  intros Ht Hr HP. destruct (Ht w) as (a & w' & E).
  eapply wp_intro; [exact E|].
  destruct (Hr _ _ _ E) as (evs & -> & F). apply HP, F.
Qed.

Lemma core_logged evs w : Forall passive evs -> core w -> core (add_events evs w).
Proof.
  intros F []. destruct w as [s []]. cbn in *.
  constructor; cbn; try assumption.
  - rewrite running_passive; assumption.
  - rewrite connected_passive; assumption.
  - apply always_passive; assumption.
Qed.

Lemma core_wp_logged {A} (m : M A) w :
  total m -> respects only_logged m -> core w ->
  wp m (fun _ => core) w.
Proof.
  intros Ht Hr Hc. apply wp_logged; auto. intros. apply core_logged; auto.
Qed.

Lemma update_light_total c m b : total (update_light c m b).
Proof. total_walk. Qed.

Lemma update_light_logged c m b : respects only_logged (update_light c m b).
Proof. logged_walk. Qed.

Lemma set_pad_light_total mode c p s v : total (set_pad_light mode c p s v).
Proof. total_walk. Qed.

Lemma set_pad_light_logged mode c p s v :
  respects only_logged (set_pad_light mode c p s v).
Proof. logged_walk. Qed.

Lemma deck_to_channel_total d : total (deck_to_channel d).
Proof. total_walk. Qed.

Lemma deck_to_channel_logged d : respects only_logged (deck_to_channel d).
Proof. logged_walk. Qed.

(** ** The invariant and the blink timer *)

Lemma core_deck_cell w d :
  core w -> 0 <= d < 4 -> exists x, lookupZ (deck (js w)) d = Some x.
Proof.
  intros H Hd. apply lookupZ_some. rewrite (core_decks _ H). simpl. lia.
Qed.

Lemma core_mapping_range w c : core w -> 0 <= channel_to_deck c w < 4.
Proof.
  intros H. destruct c;
    [destruct (core_mapping0 _ H) | destruct (core_mapping1 _ H)]; lia.
Qed.

Lemma wp_deck_cell d (Q : deck_state -> world -> Prop) w :
  core w -> 0 <= d < 4 ->
  (forall x, lookupZ (deck (js w)) d = Some x -> Q x w) ->
  wp (deck_cell d) Q w.
Proof.
  intros H Hd HQ. destruct (core_deck_cell w d H Hd) as [x E].
  unfold wp, deck_cell. rewrite E. auto.
Qed.

Lemma wp_get_loop_adjust_state d (Q : Z -> world -> Prop) w :
  core w -> 0 <= d < 4 ->
  (forall s, Q s w) ->
  wp (get_loop_adjust_state d) Q w.
Proof.
  intros H Hd HQ. unfold get_loop_adjust_state.
  apply wp_bind, wp_deck_cell; auto. intros x _.
  destruct (loop_adjust x); apply wp_ret, HQ.
Qed.

Lemma no_timer_without_entry c w :
  core w -> obj_get (timers (js w)).[c] timer_id = None -> timers_of c w = [].
Proof.
  intros H E. unfold timers_of.
  destruct (filter _ _) as [|t l] eqn:F; [reflexivity|].
  assert (Ht : In t (filter (fun t => channel_eqb (timer_channel t) c)
                            (live_timers (host w)))) by (rewrite F; left; auto).
  apply filter_In in Ht as [Hin Hc]. apply channel_eqb_eq in Hc.
  apply (core_timers _ H) in Hin. rewrite Hc in Hin. congruence.
Qed.

Lemma stop_blink_core c w :
  core w ->
  wp (stop_blink c) (fun _ => blink_stopped c) w.
Proof.
  intros H. unfold blink_stopped, stop_blink, stopTimer, set_timer.
  unfold wp, bind, gets, modify, ret, emit.
  destruct (obj_get (timers (js w)).[c] timer_id) as [id|] eqn:E.
  2:{ split; auto. }
  destruct H. destruct w as [s e]. destruct s, e.
  unfold get_num_decks, engine_getValue, channel_to_deck, channel_cell in *.
  cbn in *.
  split; [constructor|]; cbn; auto.
  - intros t Ht. apply filter_In in Ht as [Hin Hne].
    specialize (core_timers0 t Hin).
    destruct c, (timer_channel t); cbn in *; auto.
    + replace id with (timer_no t) in Hne by congruence.
      rewrite Nat.eqb_refl in Hne. discriminate.
    + replace id with (timer_no t) in Hne by congruence.
      rewrite Nat.eqb_refl in Hne. discriminate.
  - clear - core_timers_nodup0. induction live_timers0 as [|t l IH]; simpl; auto.
    inversion core_timers_nodup0; subst.
    destruct (negb _); simpl; auto. constructor; auto.
    rewrite in_map_iff in *. intros (x & Hx & Hin).
    apply filter_In in Hin as [Hin _]. eauto.
  - intros t Ht. apply filter_In in Ht as [Hin _]. auto.
  - rewrite core_running0, filter_map_swap. reflexivity.
  - split; [|assumption]. apply singular_stop, always_now. assumption.
  - destruct c; cbn; apply obj_get_set_same.
Qed.

Lemma NoDup_snoc {A} (l : list A) x :
  NoDup l -> ~ In x l -> NoDup (l ++ [x]).
Proof.
  induction l as [|y l IH]; simpl; intros H N.
  - constructor; auto.
  - inversion H; subst. constructor.
    + rewrite in_app_iff. simpl. intuition.
    + apply IH; auto.
Qed.

Lemma begin_timer_core p b c w :
  blink_stopped c w ->
  wp (beginTimer p b c)
     (fun id w' => wp (set_timer c timer_id (Some id)) (fun _ => core) w') w.
Proof.
  intros [H E]. pose proof (no_timer_without_entry c w H E) as Hno.
  unfold beginTimer, set_timer, timers_of in *.
  unfold wp, bind, gets, modify, ret, emit.
  destruct H. destruct w as [s e]. destruct s, e.
  unfold get_num_decks, engine_getValue, channel_to_deck, channel_cell in *.
  cbn in *.
  constructor; cbn; auto.
  - intros t Ht. apply in_app_or in Ht as [Hin|[<-|[]]]; cbn.
    + assert (Hc : timer_channel t <> c).
      { intros <-. assert (Hf : In t (filter (fun t0 => channel_eqb (timer_channel t0) (timer_channel t)) live_timers0)).
        { apply filter_In. split; auto. apply channel_eqb_eq. reflexivity. }
        rewrite Hno in Hf. exact Hf. }
      specialize (core_timers0 t Hin).
      destruct c, (timer_channel t); cbn in *; auto; congruence.
    + destruct c; cbn; apply obj_get_set_same.
  - rewrite map_app. cbn. apply NoDup_snoc; auto.
    rewrite in_map_iff. intros (t & Et & Hin).
    apply core_timers_fresh0 in Hin. lia.
  - intros t Ht. apply in_app_or in Ht as [Hin|[<-|[]]]; cbn.
    + apply core_timers_fresh0 in Hin. lia.
    + lia.
  - rewrite core_running0, map_app. reflexivity.
  - split; [|assumption].
    pose proof (always_now _ _ core_history0) as Hs.
    unfold singular in *. cbn. intros c'. rewrite filter_app, length_app.
    cbn. destruct (channel_eqb c c') eqn:Ec; cbn.
    + apply channel_eqb_eq in Ec. subst c'.
      rewrite core_running0, filter_map_swap. cbn.
      unfold timer_key in *. cbn. rewrite Hno. cbn. lia.
    + specialize (Hs c'). lia.
Qed.

Lemma blink_stopped_logged c evs w :
  Forall passive evs -> blink_stopped c w -> blink_stopped c (add_events evs w).
Proof.
  intros F [H E]. split; [apply core_logged; assumption|].
  destruct w as [s []]. exact E.
Qed.

Lemma update_light_core c m b w :
  core w -> wp (update_light c m b) (fun _ => core) w.
Proof.
  apply core_wp_logged; [apply update_light_total | apply update_light_logged].
Qed.

Lemma update_light_stopped c' c m b w :
  blink_stopped c' w -> wp (update_light c m b) (fun _ => blink_stopped c') w.
Proof.
  intros H. apply wp_logged;
    [apply update_light_total | apply update_light_logged |].
  intros. apply blink_stopped_logged; assumption.
Qed.

Lemma update_channel_cell_core c f w :
  (forall cs, beatjump_scalestep (f cs) = beatjump_scalestep cs) ->
  core w -> wp (update_channel_cell c f) (fun _ => core) w.
Proof.
  intros Hf H. unfold update_channel_cell, wp, modify.
  destruct H. destruct w as [s e]. destruct s, e.
  unfold get_num_decks, engine_getValue, channel_to_deck, channel_cell in *.
  cbn in *. constructor; cbn; auto.
  intros c'. destruct (core_scale0 c') as (s & Es & Hs).
  exists s. split; auto.
  destruct c, c'; cbn in *; rewrite ?Hf; auto.
Qed.

Lemma set_current_loop_modifier_core c m w :
  core w -> wp (set_current_loop_modifier c m) (fun _ => core) w.
Proof. apply update_channel_cell_core. reflexivity. Qed.

Lemma blink_stopped_core c w : blink_stopped c w -> core w.
Proof. intros [H _]. exact H. Qed.

Create HintDb core_wp.
#[export] Hint Resolve blink_stopped_core update_light_core
  update_light_stopped set_current_loop_modifier_core stop_blink_core
  : core_wp.

(** One step of a proof that a command keeps the invariant: the first
    command of a sequence is discharged by a lemma from [core_wp]. *)
Ltac wp_core_step :=
  lazymatch goal with
  | |- wp (ret _) _ _ => apply wp_ret
  | |- wp (bind (gets _) _) _ _ => apply wp_bind, wp_gets
  | |- wp (bind (beginTimer _ _ _) _) _ _ =>
      apply wp_bind; eapply wp_mono;
      [ apply begin_timer_core; assumption
      | cbv beta;
        let H := fresh "H" in
        intros ? ? H; apply wp_bind; eapply wp_mono;
        [ exact H | cbv beta; intros ] ]
  | |- wp (bind _ _) _ _ =>
      apply wp_bind; eapply wp_mono;
      [ solve [eauto with core_wp] | cbv beta; intros ]
  | |- wp (if ?b then _ else _) _ _ => destruct b eqn:?
  | |- wp (match ?x with _ => _ end) _ _ => destruct x eqn:?
  | |- wp (let _ := _ in _) _ _ => cbv zeta
  | |- wp _ _ _ => solve [eauto with core_wp]
  end.

Lemma update_loop_inout_lights_core c w :
  core w -> wp (update_loop_inout_lights c) (fun _ => core) w.
Proof.
  intros H. unfold update_loop_inout_lights.
  apply wp_bind, wp_gets.
  destruct (negb _).
  - repeat wp_core_step.
  - apply wp_bind, wp_gets. apply wp_bind, wp_get_loop_adjust_state; auto.
    { apply core_mapping_range, H. }
    intros s. repeat wp_core_step; assumption.
Qed.

Lemma wp_bind_assoc {A B C} (m : M A) (k1 : A -> M B) (k2 : B -> M C) Q w :
  wp (bind m (fun a => bind (k1 a) k2)) Q w -> wp (bind (bind m k1) k2) Q w.
Proof.
  unfold wp, bind. destruct (m w) as [[a w1]|]; auto.
Qed.

Lemma wp_bind_ret {A B} (a : A) (k : A -> M B) Q w :
  wp (k a) Q w -> wp (bind (ret a) k) Q w.
Proof. auto. Qed.

Lemma wp_bind_throw_absurd {A B} (k : A -> M B) Q w :
  False -> wp (bind throw k) Q w.
Proof. tauto. Qed.

(** Commands that only log keep the invariant; found by walking through
    the command. *)
#[export] Hint Extern 8 (wp _ _ _) =>
  apply core_wp_logged; [solve [total_walk] | solve [logged_walk] | eassumption]
  : core_wp.

Ltac deck_range :=
  first [ assumption
        | apply core_mapping_range; eauto with core_wp
        | apply group_to_deck_range
        | lia ].

Ltac wp_core_walk :=
  repeat lazymatch goal with
  | |- wp (ret _) _ _ => apply wp_ret
  | |- wp (bind (ret _) _) _ _ => apply wp_bind_ret
  | |- wp (bind (gets _) _) _ _ => apply wp_bind, wp_gets
  | |- wp (bind (bind _ _) _) _ _ => apply wp_bind_assoc
  | |- wp (bind (deck_cell _) _) _ _ =>
      apply wp_bind, wp_deck_cell; [eauto with core_wp | deck_range | intros ? ?]
  | |- wp (bind (beginTimer _ _ _) _) _ _ =>
      apply wp_bind; eapply wp_mono;
      [ apply begin_timer_core; assumption
      | cbv beta;
        let H := fresh "H" in
        intros ? ? H; apply wp_bind; eapply wp_mono;
        [ exact H | cbv beta; intros ] ]
  | |- wp (bind (if ?b then _ else _) _) _ _ => destruct b eqn:?
  | |- wp (bind (match ?x with _ => _ end) _) _ _ => destruct x eqn:?
  | |- wp (bind ?m _) _ _ =>
      first [ apply wp_bind; eapply wp_mono;
              [ solve [eauto with core_wp] | cbv beta; intros ]
            | let h := head_of m in unfold h ]
  | |- wp (if ?b then _ else _) _ _ => destruct b eqn:?
  | |- wp (match ?x with _ => _ end) _ _ => destruct x eqn:?
  | |- wp (let _ := _ in _) _ _ => cbv zeta
  | |- wp ?m _ _ =>
      first [ solve [eauto with core_wp]
            | let h := head_of m in unfold h ]
  end;
  try solve [eauto with core_wp].

#[export] Hint Resolve update_loop_inout_lights_core : core_wp.

Lemma update_fx_light_core w :
  core w -> wp update_fx_light (fun _ => core) w.
Proof. intros H. unfold update_fx_light, get_effect_deck. wp_core_walk. Qed.

Lemma update_deck_cell_core d f w :
  core w -> 0 <= d < 4 -> wp (update_deck_cell d f) (fun _ => core) w.
Proof.
  intros H Hd. unfold update_deck_cell.
  apply wp_bind, wp_deck_cell; auto. intros x _.
  unfold wp, modify.
  destruct H. destruct w as [s e]. destruct s, e.
  unfold get_num_decks, engine_getValue, channel_to_deck, channel_cell in *.
  cbn in *. constructor; cbn; auto.
  rewrite list_set_length. assumption.
Qed.

Lemma set_loop_adjust_state_core d s w :
  core w -> 0 <= d < 4 -> wp (set_loop_adjust_state d s) (fun _ => core) w.
Proof.
  intros H Hd. unfold set_loop_adjust_state.
  apply wp_bind. eapply wp_mono; [apply update_deck_cell_core; auto|].
  cbv beta. intros _ w' H'. wp_core_walk.
Qed.

Lemma set_loop_enabled_core v g w :
  core w -> wp (set_loop_enabled v g) (fun _ => core) w.
Proof.
  intros H. unfold set_loop_enabled. cbv zeta.
  apply wp_bind. eapply wp_mono;
    [apply set_loop_adjust_state_core; auto using group_to_deck_range|].
  cbv beta. intros _ w' H'. wp_core_walk.
Qed.

Lemma wp_deck_samplers_of d (Q : list string -> world -> Prop) w :
  0 <= d < 4 ->
  (forall l, lookupZ constants.sampler_groups d = Some l -> Q l w) ->
  wp (deck_samplers_of d) Q w.
Proof.
  intros Hd HQ. unfold deck_samplers_of.
  destruct (lookupZ_some constants.sampler_groups d) as [l E].
  { simpl. lia. }
  rewrite E. apply wp_ret. auto.
Qed.

Lemma is_deck_active_range d w :
  core w -> is_deck_active d w = true -> 0 <= d < 4.
Proof.
  intros H. unfold is_deck_active. pose proof (core_mapping_range w Ch0 H).
  pose proof (core_mapping_range w Ch1 H). unfold channel_to_deck in *.
  intros E. apply orb_true_iff in E as [E|E]; apply Z.eqb_eq in E; lia.
Qed.

Lemma update_sampler_core v g w :
  core w -> wp (update_sampler v g) (fun _ => core) w.
Proof.
  intros H. unfold update_sampler. apply wp_bind, wp_gets.
  apply wp_for_each; auto. intros d w1 _ H1.
  apply wp_bind, wp_gets.
  destruct (is_deck_active d w1) eqn:E; simpl; [|apply wp_ret; auto].
  apply wp_bind. eapply wp_mono.
  { apply wp_respects with (R := same (is_deck_active d));
      [ apply core_wp_logged; [apply deck_to_channel_total | apply deck_to_channel_logged | exact H1] |].
    respects_walk same_leaf. }
  cbv beta. intros c w2 [H2 E2]. unfold same in E2. rewrite E in E2.
  apply wp_bind, wp_deck_samplers_of.
  { eapply is_deck_active_range; eauto. }
  intros l _. apply wp_for_each; auto.
  intros [p name] w3 _ H3. wp_core_walk.
Qed.

#[export] Hint Resolve update_fx_light_core set_loop_enabled_core
  update_sampler_core : core_wp.

Lemma run_callback_core f v g w :
  core w -> wp (run_callback f v g) (fun _ => core) w.
Proof. intros H. destruct f; simpl; eauto with core_wp. Qed.

Lemma trigger_core conn w :
  core w -> wp (trigger conn) (fun _ => core) w.
Proof.
  intros H. unfold trigger. apply wp_bind. eapply wp_mono.
  { apply core_wp_logged; [total_walk | logged_walk | exact H]. }
  cbv beta. intros _ w1 H1. apply wp_bind, wp_gets. apply run_callback_core, H1.
Qed.

#[export] Hint Resolve run_callback_core trigger_core : core_wp.

(** ** Tearing a channel down *)

Lemma for_each_stopTimer ids w :
  for_each ids stopTimer w =
  Some (tt, add_events (rev (map engine_stopTimer ids))
              (on_host (with_live_timers (without_timers ids)) w)).
Proof.
  revert w. induction ids as [|id ids IH]; intros [s e]; simpl.
  - destruct e. unfold ret, without_timers. simpl.
    rewrite filter_true. reflexivity.
  - unfold bind. unfold stopTimer at 1. unfold bind, modify, emit.
    destruct e. simpl.
    rewrite IH. unfold without_timers. simpl.
    rewrite filter_filter, <- app_assoc. simpl.
    do 4 f_equal. apply filter_ext'. intros t.
    destruct (Nat.eqb (timer_no t) id); reflexivity.
Qed.

Lemma for_each_disconnect cs w :
  for_each cs disconnect w =
  Some (tt, add_events (rev (map connection_disconnect cs))
              (on_host (with_live_connections (without_connections cs)) w)).
Proof.
  revert w. induction cs as [|c cs IH]; intros [s e]; simpl.
  - destruct e. unfold ret, without_connections. simpl.
    rewrite filter_true. reflexivity.
  - unfold bind. unfold disconnect at 1. unfold bind, modify, emit.
    destruct e. simpl.
    rewrite IH. unfold without_connections. simpl.
    rewrite filter_filter, <- app_assoc. simpl.
    do 4 f_equal. apply filter_ext'. intros t.
    destruct (Nat.eqb (conn_id t) (conn_id c)); reflexivity.
Qed.

Lemma disconnect_channel_spec c w :
  disconnect_channel c w = Some (tt, torn_down c w).
Proof.
  unfold disconnect_channel.
  unfold bind at 1. unfold gets at 1.
  unfold bind at 1. rewrite for_each_stopTimer.
  unfold bind at 1. unfold modify at 1.
  unfold bind at 1. unfold gets at 1.
  destruct w as [s e]. destruct s, e.
  unfold bind at 1. cbn [add_events on_host on_js with_log with_live_timers
    with_timers js connections].
  rewrite for_each_disconnect.
  destruct c; unfold torn_down, teardown_events; cbn;
    rewrite <- ?app_assoc; reflexivity.
Qed.

Lemma without_timers_in ids l t :
  In t (without_timers ids l) <-> In t l /\ ~ In (timer_no t) ids.
Proof.
  unfold without_timers. rewrite filter_In, negb_true_iff.
  split; intros [H1 H2]; split; auto.
  - intros Hin. assert (E : existsb (Nat.eqb (timer_no t)) ids = true).
    { apply existsb_exists. exists (timer_no t). split; auto.
      apply Nat.eqb_refl. }
    congruence.
  - destruct (existsb _ ids) eqn:E; auto.
    apply existsb_exists in E as (x & Hx & Ex). apply Nat.eqb_eq in Ex.
    subst. contradiction.
Qed.

Lemma without_connections_in cs l x :
  In x (without_connections cs l) <->
  In x l /\ ~ In (conn_id x) (map conn_id cs).
Proof.
  unfold without_connections. rewrite filter_In, negb_true_iff.
  split; intros [H1 H2]; split; auto.
  - intros Hin. apply in_map_iff in Hin as (y & Ey & Hy).
    assert (E : existsb (fun c => Nat.eqb (conn_id x) (conn_id c)) cs = true).
    { apply existsb_exists. exists y. split; auto. apply Nat.eqb_eq. auto. }
    congruence.
  - destruct (existsb _ cs) eqn:E; auto.
    apply existsb_exists in E as (y & Hy & Ey). apply Nat.eqb_eq in Ey.
    exfalso. apply H2. apply in_map_iff. eauto.
Qed.

Lemma NoDup_map_filter {A B} (f : A -> B) (p : A -> bool) l :
  NoDup (map f l) -> NoDup (map f (filter p l)).
Proof.
  induction l as [|x l IH]; simpl; auto.
  intros H. inversion H; subst. destruct (p x); simpl; auto.
  constructor; auto. rewrite in_map_iff in *.
  intros (y & Ey & Hy). apply filter_In in Hy as [Hy _]. eauto.
Qed.

Lemma teardown_replay c w l :
  running (teardown_events c w ++ l)
  = filter (fun p => negb (existsb (Nat.eqb (fst p))
                             (obj_values (timers (js w)).[c])))
           (running l) /\
  connected (teardown_events c w ++ l)
  = without_connections (obj_values (connections (js w)).[c]) (connected l) /\
  (always singular l -> always singular (teardown_events c w ++ l)).
Proof.
  unfold teardown_events. cbv zeta.
  set (soft := [_; _; _; _; _; _]).
  set (cs := obj_values (connections (js w)).[c]).
  set (ts := obj_values (timers (js w)).[c]).
  rewrite <- !app_assoc.
  assert (Hsoft : forall e l', In e soft -> running (e :: l') = running l'
                                           /\ connected (e :: l') = connected l').
  { intros e l' Hin. subst soft. cbn in Hin.
    repeat destruct Hin as [<-|Hin]; try contradiction; auto. }
  assert (Hdis : forall e l', In e (rev (map connection_disconnect cs)) ->
                              running (e :: l') = running l').
  { intros e l' Hin. apply in_rev_map in Hin as [x ->]. reflexivity. }
  assert (Hstop : forall e l', In e (rev (map engine_stopTimer ts)) ->
                               connected (e :: l') = connected l').
  { intros e l' Hin. apply in_rev_map in Hin as [x ->]. reflexivity. }
  split; [|split].
  - rewrite running_untimed by (intros; apply Hsoft; assumption).
    rewrite running_untimed by assumption.
    apply running_stops.
  - rewrite connected_unconnected by (intros; apply Hsoft; assumption).
    rewrite connected_disconnects.
    rewrite connected_unconnected by assumption. reflexivity.
  - intros H.
    apply always_untimed; [intros; apply Hsoft; assumption|].
    apply always_untimed; [assumption|].
    apply always_stops, H.
Qed.

Lemma torn_down_core c w : core w -> core (torn_down c w).
Proof.
  intros H. unfold torn_down.
  destruct (teardown_replay c w (log (host w))) as (R1 & R2 & R3).
  destruct H. destruct w as [s e]. destruct s, e.
  unfold get_num_decks, engine_getValue, channel_to_deck, channel_cell in *.
  cbn -[teardown_events] in *. constructor; cbn -[teardown_events]; auto.
  - intros t Ht. apply without_timers_in in Ht as [Hin Hno].
    specialize (core_timers0 t Hin).
    destruct c, (timer_channel t); cbn in *; auto;
      apply obj_get_values in core_timers0; contradiction.
  - apply NoDup_map_filter. assumption.
  - intros t Ht. apply without_timers_in in Ht as [Hin _]. auto.
  - intros c' conn Hin. destruct c, c'; cbn in *; try contradiction.
    + destruct (core_connections0 Ch1 conn Hin) as [Hl Hn]. split; auto.
      apply without_connections_in. split; auto.
      rewrite in_map_iff. intros (y & Ey & Hy).
      apply (core_connections_apart0 y conn); auto.
    + destruct (core_connections0 Ch0 conn Hin) as [Hl Hn]. split; auto.
      apply without_connections_in. split; auto.
      rewrite in_map_iff. intros (y & Ey & Hy).
      apply (core_connections_apart0 conn y); auto.
  - intros a b Ha Hb. destruct c; cbn in *; contradiction.
  - intros conn Hin. apply without_connections_in in Hin as [Hin _]. auto.
  - rewrite R1, core_running0. unfold without_timers.
    rewrite filter_map_swap. reflexivity.
  - rewrite R2, core_connected0. reflexivity.
Qed.

Lemma torn_down_tables c w :
  (timers (js (torn_down c w))).[c] = [] /\
  (connections (js (torn_down c w))).[c] = [].
Proof. destruct w as [s e]. destruct s, e, c; split; reflexivity. Qed.

Lemma torn_down_stopped c w : core w -> blink_stopped c (torn_down c w).
Proof.
  intros H. split; [apply torn_down_core, H|].
  rewrite (proj1 (torn_down_tables c w)). reflexivity.
Qed.

Lemma rebound_core c d w :
  core w ->
  (connections (js w)).[c] = [] ->
  match c with Ch0 => d = 0 \/ d = 2 | Ch1 => d = 1 \/ d = 3 end ->
  core (rebound c d w).
Proof.
  intros H E Hd. destruct H. destruct w as [s e]. destruct s, e.
  unfold get_num_decks, engine_getValue, channel_to_deck, channel_cell in *.
  cbn in *. constructor; cbn; auto; destruct c; cbn; auto.
Qed.

Lemma rebound_stopped c d w :
  blink_stopped c w ->
  (connections (js w)).[c] = [] ->
  match c with Ch0 => d = 0 \/ d = 2 | Ch1 => d = 1 \/ d = 3 end ->
  blink_stopped c (rebound c d w).
Proof.
  intros [H Et] E Hd. split; [apply rebound_core; auto|].
  destruct w as [s e]. destruct s. exact Et.
Qed.

(** ** Connecting a channel *)

Lemma make_connection_core g ctl f c key w :
  core w ->
  wp (makeConnection g ctl f)
     (fun conn w' => wp (set_connection c key conn) (fun _ => core) w') w.
Proof.
  intros H. unfold makeConnection, set_connection.
  unfold wp, bind, gets, modify, ret, emit.
  destruct H. destruct w as [s e]. destruct s, e.
  unfold get_num_decks, engine_getValue, channel_to_deck, channel_cell in *.
  cbn in *. constructor; cbn; auto.
  - intros c' conn Hin.
    assert (Hold : forall c0 x, In x (obj_values connections0.[c0]) ->
              In x (live_connections0 ++ [Connection next_connection0 g ctl f])
              /\ (conn_id x < S next_connection0)%nat).
    { intros c0 x Hx. destruct (core_connections0 c0 x Hx). split; [|lia].
      apply in_or_app. auto. }
    destruct c, c'; cbn in *;
      first
        [ apply obj_values_set in Hin as [[= <-]|Hin];
          [ split; [apply in_or_app; right; left; reflexivity | cbn; lia]
          | first [apply (Hold Ch0); assumption | apply (Hold Ch1); assumption] ]
        | apply (Hold Ch0); assumption
        | apply (Hold Ch1); assumption ].
  - intros a b Ha Hb.
    destruct c; cbn in *.
    + apply obj_values_set in Ha as [[= <-]|Ha]; cbn; auto.
      destruct (core_connections0 Ch1 b Hb). lia.
    + apply obj_values_set in Hb as [[= <-]|Hb]; cbn; auto.
      destruct (core_connections0 Ch0 a Ha). lia.
  - intros conn Hin. apply in_app_or in Hin as [Hin|[<-|[]]]; cbn.
    + apply core_connections_fresh0 in Hin. lia.
    + lia.
  - rewrite core_connected0. reflexivity.
  - split; [|assumption]. apply always_now in core_history0. exact core_history0.
Qed.

Lemma make_connection_alone_core g ctl f w :
  core w -> wp (makeConnection g ctl f) (fun _ => core) w.
Proof.
  intros H. unfold makeConnection.
  unfold wp, bind, gets, modify, ret, emit.
  destruct H. destruct w as [s e]. destruct s, e.
  unfold get_num_decks, engine_getValue, channel_to_deck, channel_cell in *.
  cbn in *. constructor; cbn; auto.
  - intros c conn Hin. destruct (core_connections0 c conn Hin). split; [|lia].
    apply in_or_app. auto.
  - intros conn Hin. apply in_app_or in Hin as [Hin|[<-|[]]]; cbn.
    + apply core_connections_fresh0 in Hin. lia.
    + lia.
  - rewrite core_connected0. reflexivity.
  - split; [|assumption]. apply always_now in core_history0. exact core_history0.
Qed.

Ltac wp_core_walk ::=
  repeat lazymatch goal with
  | |- wp (ret _) _ _ => apply wp_ret
  | |- wp (bind (ret _) _) _ _ => apply wp_bind_ret
  | |- wp (bind (gets _) _) _ _ => apply wp_bind, wp_gets
  | |- wp (bind (bind _ _) _) _ _ => apply wp_bind_assoc
  | |- wp (bind (deck_cell _) _) _ _ =>
      apply wp_bind, wp_deck_cell; [eauto with core_wp | deck_range | intros ? ?]
  | |- wp (bind (deck_samplers_of _) _) _ _ =>
      apply wp_bind, wp_deck_samplers_of; [deck_range | intros ? ?]
  | |- wp (bind (beginTimer _ _ _) _) _ _ =>
      apply wp_bind; eapply wp_mono;
      [ apply begin_timer_core; assumption
      | cbv beta;
        let H := fresh "H" in
        intros ? ? H; apply wp_bind; eapply wp_mono;
        [ exact H | cbv beta; intros ] ]
  | |- wp (bind (makeConnection _ _ _) _) _ _ =>
      first
        [ apply wp_bind; eapply wp_mono;
          [ eapply make_connection_core; eauto with core_wp
          | cbv beta;
            let H := fresh "H" in
            intros ? ? H; apply wp_bind; eapply wp_mono;
            [ exact H | cbv beta; intros ] ]
        | apply wp_bind; eapply wp_mono;
          [ eapply make_connection_alone_core; eauto with core_wp
          | cbv beta; intros ] ]
  | |- wp (bind (if ?b then _ else _) _) _ _ => destruct b eqn:?
  | |- wp (bind (match ?x with _ => _ end) _) _ _ => destruct x eqn:?
  | |- wp (bind (for_each _ _) _) _ _ =>
      apply wp_bind; eapply wp_mono;
      [ apply wp_for_each with (I := core);
        [ intros ? ? ? ? | eauto with core_wp ]
      | cbv beta; intros ]
  | |- wp (bind ?m _) _ _ =>
      first [ apply wp_bind; eapply wp_mono;
              [ solve [eauto with core_wp] | cbv beta; intros ]
            | let h := head_of m in unfold h ]
  | |- wp (for_each _ _) _ _ =>
      apply wp_for_each; [intros ? ? ? ? | eauto with core_wp]
  | |- wp (if ?b then _ else _) _ _ => destruct b eqn:?
  | |- wp (match ?x with _ => _ end) _ _ => destruct x eqn:?
  | |- wp (let _ := _ in _) _ _ => cbv zeta
  | |- wp ?m _ _ =>
      first [ solve [eauto with core_wp]
            | let h := head_of m in unfold h ]
  end;
  try solve [eauto with core_wp].

Lemma connect_samplers_core c w :
  core w -> wp (connect_samplers c) (fun _ => core) w.
Proof.
  intros H. unfold connect_samplers. apply wp_bind, wp_gets.
  apply wp_bind, wp_deck_samplers_of; [deck_range|]. intros l _.
  apply wp_for_each; auto. intros [p name] w1 _ H1. wp_core_walk.
Qed.

Lemma update_deck_channel_indicator_core c w :
  core w -> wp (update_deck_channel_indicator c) (fun _ => core) w.
Proof. intros H. eauto with core_wp. Qed.

#[export] Hint Resolve connect_samplers_core update_deck_channel_indicator_core
  : core_wp.

Lemma connect_channel_core c w :
  core w -> wp (connect_channel c) (fun _ => core) w.
Proof.
  intros H. unfold connect_channel. apply wp_bind, wp_gets. cbv zeta.
  apply wp_bind. eapply wp_mono; [solve [eauto with core_wp]|].
  cbv beta. intros _ w1 H1.
  apply wp_bind. eapply wp_mono.
  { apply wp_for_each with (I := core); auto.
    intros [control [f trig]] w2 _ H2. wp_core_walk. }
  cbv beta. intros _ w2 H2. wp_core_walk.
Qed.

(** ** Toggling the deck of a channel *)

Lemma core_next_deck c w :
  core w ->
  let old := channel_to_deck c w in
  js_rem (old + 2) (get_num_decks w) = Some (Z.rem (old + 2) 4) /\
  (old =? Z.rem (old + 2) 4) = false /\
  match c with
  | Ch0 => Z.rem (old + 2) 4 = 0 \/ Z.rem (old + 2) 4 = 2
  | Ch1 => Z.rem (old + 2) 4 = 1 \/ Z.rem (old + 2) 4 = 3
  end.
Proof.
  intros H old. rewrite (core_num_decks _ H). unfold js_rem. simpl.
  subst old. destruct c;
    [destruct (core_mapping0 _ H) as [E|E] | destruct (core_mapping1 _ H) as [E|E]];
    rewrite E; simpl; auto.
Qed.

(** On four decks a toggle always rebinds: it prints, tears the channel
    down, assigns the next deck and connects. *)
Lemma toggle_deck_channel_spec c w :
  core w ->
  let old := channel_to_deck c w in
  let next := Z.rem (old + 2) 4 in
  toggle_deck_channel c w =
  connect_channel c
    (rebound c next
       (torn_down c
          (add_events
             [print ("Toggling deck from " ++ number_to_string old ++ " to "
                     ++ number_to_string next ++ ".")%string] w))).
Proof.
  intros H old next. destruct (core_next_deck c w H) as (E1 & E2 & _).
  fold old in E1, E2. fold next in E1, E2.
  unfold toggle_deck_channel, next_deck.
  unfold bind at 1. unfold gets at 1. fold old.
  unfold bind at 1. unfold bind at 1. unfold gets at 1. rewrite E1.
  unfold ret at 1. rewrite E2. fold next.
  unfold bind at 1. unfold print_line, emit, modify.
  unfold bind at 1. rewrite disconnect_channel_spec.
  unfold bind at 1. unfold modify. reflexivity.
Qed.

Lemma toggle_deck_channel_core c w :
  core w ->
  wp (toggle_deck_channel c)
     (fun _ w' =>
        core w' /\
        channel_to_deck c w' = Z.rem (channel_to_deck c w + 2) 4 /\
        channel_to_deck (other c) w' = channel_to_deck (other c) w) w.
Proof.
  intros H. unfold wp. rewrite toggle_deck_channel_spec; auto.
  set (w0 := add_events _ w).
  assert (H0 : core w0).
  { apply core_logged; [|exact H]. constructor; [exact I | constructor]. }
  set (next := Z.rem _ 4).
  assert (H1 : core (rebound c next (torn_down c w0))).
  { apply rebound_core.
    - apply torn_down_core, H0.
    - apply torn_down_tables.
    - apply (core_next_deck c w H). }
  pose proof (connect_channel_core c _ H1) as Hw.
  pose proof (connect_channel_mapping c) as Hm.
  unfold wp in Hw. specialize (Hm (rebound c next (torn_down c w0))).
  destruct (connect_channel c _) as [[u w']|]; [|contradiction].
  specialize (Hm _ _ eq_refl). unfold same in Hm.
  split; [exact Hw|]. unfold channel_to_deck. rewrite Hm.
  subst w0. destruct w as [s e]. destruct s, e, c; split; reflexivity.
Qed.

Lemma toggle_deck_channel_gateway_core c w :
  core w -> wp (toggle_deck_channel_gateway c) (fun _ => core) w.
Proof.
  intros H. unfold toggle_deck_channel_gateway. simpl.
  eapply wp_mono; [apply toggle_deck_channel_core, H|].
  cbv beta. tauto.
Qed.

#[export] Hint Resolve connect_channel_core toggle_deck_channel_gateway_core
  : core_wp.

(** ** The handlers keep the invariant *)

Lemma update_channel_cell_core' c f w :
  (forall cs, beatjump_scalestep (f cs) = beatjump_scalestep cs) ->
  core w -> wp (update_channel_cell c f) (fun _ => core) w.
Proof. apply update_channel_cell_core. Qed.

Lemma last_shift_core c w :
  core w ->
  wp (modify (on_js (with_last_shift_button_pressed c))) (fun _ => core) w.
Proof.
  intros H. unfold wp, modify.
  destruct H. destruct w as [s e]. destruct s, e.
  unfold get_num_decks, engine_getValue, channel_to_deck, channel_cell in *.
  cbn in *. constructor; cbn; auto.
Qed.

#[export] Hint Resolve last_shift_core : core_wp.
#[export] Hint Extern 2 (wp (update_channel_cell _ _) _ _) =>
  apply update_channel_cell_core; [reflexivity | eauto with core_wp] : core_wp.

Lemma set_shift_button_pressed_core c pressed now w :
  core w -> wp (set_shift_button_pressed c pressed now) (fun _ => core) w.
Proof.
  intros H. unfold set_shift_button_pressed, set_shift_double,
    shift_double_press.
  wp_core_walk.
Qed.

Lemma shiftPressed_core c value now w :
  core w -> wp (shiftPressed c value now) (fun _ => core) w.
Proof. apply set_shift_button_pressed_core. Qed.

Lemma setValue_core g c v w : core w -> wp (setValue g c v) (fun _ => core) w.
Proof. intros H. eauto with core_wp. Qed.

Lemma loop_in_core c value w :
  core w -> wp (loop_in c value) (fun _ => core) w.
Proof.
  intros H. unfold loop_in.
  destruct (negb (truthy value)); [apply wp_ret, H|].
  apply wp_bind, wp_gets. cbv zeta. apply wp_bind, wp_gets.
  destruct (truthy _).
  - apply wp_bind, wp_get_loop_adjust_state; auto.
    { apply core_mapping_range, H. }
    intros s. destruct (s =? _);
      apply set_loop_adjust_state_core; auto; apply core_mapping_range, H.
  - wp_core_walk.
Qed.

Lemma loop_out_core c value w :
  core w -> wp (loop_out c value) (fun _ => core) w.
Proof.
  intros H. unfold loop_out.
  destruct (negb (truthy value)); [apply wp_ret, H|].
  apply wp_bind, wp_gets. cbv zeta. apply wp_bind, wp_gets.
  destruct (truthy _).
  - apply wp_bind, wp_get_loop_adjust_state; auto.
    { apply core_mapping_range, H. }
    intros s. destruct (s =? _);
      apply set_loop_adjust_state_core; auto; apply core_mapping_range, H.
  - wp_core_walk.
Qed.

Lemma add_scalestep_core c delta w :
  core w ->
  (forall s, beatjump_scalestep (channel_cell c w) = Some s ->
             -1 <= s + delta <= 1) ->
  wp (add_scalestep c delta) (fun _ => core) w.
Proof.
  intros H Hs. unfold add_scalestep, update_channel_cell, wp, modify.
  destruct H. destruct w as [s e]. destruct s, e.
  unfold get_num_decks, engine_getValue, channel_to_deck, channel_cell in *.
  cbn in *. constructor; cbn; auto.
  intros c'. destruct (core_scale0 c') as (s & Es & Hr).
  destruct c, c'; cbn in *; eauto;
    rewrite Es; cbn; eexists; split; eauto.
Qed.

Lemma handle_beatjump_shift_core c padnum w :
  core w -> wp (handle_beatjump_shift c padnum) (fun _ => core) w.
Proof.
  intros H. unfold handle_beatjump_shift.
  destruct (padnum =? 0); [eauto with core_wp|].
  destruct (padnum =? 1); [unfold toggleControl; eauto with core_wp|].
  destruct (padnum =? 3); [unfold toggleControl; wp_core_walk|].
  apply wp_bind, wp_gets. apply wp_bind, wp_gets.
  destruct (core_scale _ H c) as (s & Es & Hs).
  destruct ((padnum =? 6) && _) eqn:E6.
  - apply andb_true_iff in E6 as [_ E]. unfold allow_beatjump_downscale in E.
    rewrite Es in E. apply negb_true_iff, Z.leb_gt in E.
    apply wp_bind. eapply wp_mono.
    { apply add_scalestep_core; auto. intros s'. rewrite Es. intros [= <-]. lia. }
    cbv beta. intros. eauto with core_wp.
  - destruct ((padnum =? 7) && _) eqn:E7; [|apply wp_ret, H].
    apply andb_true_iff in E7 as [_ E]. unfold allow_beatjump_upscale in E.
    rewrite Es in E. apply negb_true_iff in E.
    assert (s < 1) by (destruct (Z.geb_spec s 1); [discriminate | lia]).
    apply wp_bind. eapply wp_mono.
    { apply add_scalestep_core; auto. intros s'. rewrite Es. intros [= <-]. lia. }
    cbv beta. intros. eauto with core_wp.
Qed.

Lemma engine_notify_core group control value w :
  keeps_num_decks 4 (in_engine_notify group control value) = true ->
  core w -> wp (engine_notify group control value) (fun _ => core) w.
Proof.
  intros Hk H. unfold engine_notify.
  apply wp_bind, wp_modify.
  assert (H1 : core (on_host (fun e =>
            with_controls (fun g c =>
              if String.eqb g group && String.eqb c control then value
              else controls e g c) e) w)).
  { assert (Hnd : (if String.eqb "[Master]" group
                      && String.eqb "num_decks" control
                   then value else get_num_decks w) = 4).
    { destruct (String.eqb "[Master]" group && String.eqb "num_decks" control)
        eqn:E; [|apply (core_num_decks _ H)].
      apply andb_true_iff in E as [E1 E2].
      apply String.eqb_eq in E1, E2. subst.
      cbn in Hk. apply Z.eqb_eq in Hk. exact Hk. }
    destruct H. destruct w as [s e]. destruct s, e.
    unfold get_num_decks, engine_getValue, channel_to_deck, channel_cell in *.
    cbn -[String.eqb] in *. constructor; cbn -[String.eqb]; auto. }
  apply wp_bind, wp_gets. apply wp_for_each; auto.
  intros conn w1 _ Hw1. apply run_callback_core, Hw1.
Qed.

Lemma timer_fire_core id w :
  core w -> wp (timer_fire id) (fun _ => core) w.
Proof.
  intros H. unfold timer_fire. apply wp_bind, wp_gets.
  destruct (find _ _) as [t|]; [|apply wp_ret, H].
  cbv zeta. apply wp_bind, wp_modify.
  match goal with |- wp _ _ ?w1 => assert (H1 : core w1) end.
  { destruct H. destruct w as [s e]. destruct s, e.
    unfold get_num_decks, engine_getValue, channel_to_deck, channel_cell in *.
    cbn in *. constructor; cbn; auto.
    - intros t' Ht. apply in_map_iff in Ht as (x & Ex & Hx).
      specialize (core_timers0 x Hx).
      destruct (Nat.eqb (timer_no x) id); subst; cbn; auto.
    - rewrite map_map.
      erewrite map_ext; [exact core_timers_nodup0|].
      intros x. destruct (Nat.eqb (timer_no x) id); reflexivity.
    - intros t' Ht. apply in_map_iff in Ht as (x & Ex & Hx).
      specialize (core_timers_fresh0 x Hx).
      destruct (Nat.eqb (timer_no x) id); subst; cbn; auto.
    - rewrite core_running0, map_map. apply map_ext.
      intros x. destruct (Nat.eqb (timer_no x) id); reflexivity. }
  apply wp_for_each; auto. intros m w1 _ Hw1. eauto with core_wp.
Qed.

Lemma handle_core i w :
  keeps_num_decks 4 i = true -> core w -> wp (handle i) (fun _ => core) w.
Proof.
  intros Hk H. destruct i; simpl.
  - apply shiftPressed_core, H.
  - apply loop_in_core, H.
  - apply loop_out_core, H.
  - apply handle_beatjump_shift_core, H.
  - apply engine_notify_core; auto.
  - apply timer_fire_core, H.
Qed.

(** ** The invariant holds after [init] *)

Lemma set_persistent_connection_core key conn w :
  core w -> wp (set_persistent_connection key conn) (fun _ => core) w.
Proof.
  intros H. unfold set_persistent_connection, wp, modify.
  destruct H. destruct w as [s e]. destruct s, e.
  unfold get_num_decks, engine_getValue, channel_to_deck, channel_cell in *.
  cbn in *. constructor; cbn; auto.
Qed.

#[export] Hint Resolve set_persistent_connection_core : core_wp.

Lemma init_start e :
  live_connections e = [] -> live_timers e = [] ->
  running (log e) = [] -> connected (log e) = [] ->
  always singular (log e) ->
  controls e "[Master]" "num_decks" = 4 ->
  core (World
    (State (PerChannel 0 1) (PerChannel [] []) (PerChannel [] [])
       (PerChannel (ChannelState None None None (Some 0) None)
                   (ChannelState None None None (Some 0) None))
       [DeckState None (Some 1); DeckState None (Some 1);
        DeckState None (Some 2); DeckState None (Some 2)]
       [] Ch0)
    e).
Proof.
  intros E1 E2 R1 R2 Hh Hn. destruct e. cbn in *. subst.
  constructor; cbn; auto; try contradiction.
  - intros c. exists 0. destruct c; cbn; split; auto; lia.
  - constructor.
  - intros [] conn [].
Qed.

Lemma init_core e :
  fresh_host e -> controls e "[Master]" "num_decks" = 4 ->
  wp init (fun _ => core) (World initial_state e).
Proof.
  intros Hf Hn. unfold init.
  (* the two animations only log *)
  set (P := fun w => js w = initial_state /\
                     (live_connections (host w) = [] /\
                      live_timers (host w) = [] /\
                      running (log (host w)) = [] /\
                      connected (log (host w)) = [] /\
                      always singular (log (host w))) /\
                     get_num_decks w = 4).
  assert (HP : forall w evs, P w -> Forall passive evs -> P (add_events evs w)).
  { intros [s0 e0] evs (E0 & (L1 & L2 & L3 & L4 & L5) & N0) F.
    destruct e0. cbn in *. repeat split; auto; cbn.
    - rewrite running_passive; assumption.
    - rewrite connected_passive; assumption.
    - apply always_passive; assumption. }
  assert (P0 : P (World initial_state e)).
  { destruct Hf as (F1 & F2 & F3). destruct e. cbn in *. subst.
    repeat split; auto. intros c. cbn. lia. }
  apply wp_bind. eapply wp_mono.
  { apply (wp_logged _ P); [total_walk | logged_walk |].
    intros evs. apply HP, P0. }
  cbv beta. intros _ w1 P1.
  apply wp_bind. eapply wp_mono.
  { apply (wp_logged _ P); [total_walk | logged_walk |].
    intros evs. apply HP, P1. }
  cbv beta. clear dependent w1. intros _ w1 (Ej & Hf1 & Hn1).
  apply wp_bind, wp_gets. rewrite Hn1.
  destruct w1 as [s1 e1]. cbn in Ej, Hf1, Hn1. subst s1.
  change (js_range 0 4) with [0; 1; 2; 3].
  apply wp_bind. eapply wp_intro; [reflexivity|].
  apply wp_bind. eapply wp_intro; [reflexivity|].
  apply wp_bind. eapply wp_intro; [reflexivity|].
  cbn [on_js with_deck with_channel_cells list_set Z.to_nat Pos.to_nat
       Pos.iter_op Nat.add set_channel at_channel cell0 cell1 loop_adjust
       effect_unit shift_button_pressed shift_double shift_time
       beatjump_scalestep current_loop_modifier empty_channel_state
       empty_deck_state lookupZ Z.ltb Z.compare nth_error
       constants.default_effect_unit].
  destruct Hf1 as (L1 & L2 & L3 & L4 & L5).
  pose proof (init_start e1 L1 L2 L3 L4 L5 Hn1) as H0.
  wp_core_walk.
Qed.

(** ** Reachable states *)

Lemma reachable_core w : reachable w -> core w.
Proof.
  induction 1 as [e w Hf Hn E | w i w' _ IH Hk E].
  - pose proof (init_core e Hf Hn) as Hw. unfold wp, exec in *.
    destruct (init _) as [[u w1]|]; [|contradiction].
    injection E as <-. exact Hw.
  - pose proof (handle_core i w Hk IH) as Hw. unfold wp, exec in *.
    destruct (handle i w) as [[u w1]|]; [|contradiction].
    injection E as <-. exact Hw.
Qed.

(** No handler throws in a reachable state, and [init] does not throw on a
    fresh four-deck host. *)
Lemma reachable_progress w i :
  reachable w -> keeps_num_decks 4 i = true ->
  exists w', exec (handle i) w = Some w'.
Proof.
  intros H Hk. pose proof (handle_core i w Hk (reachable_core w H)) as Hw.
  apply exec_wp in Hw as (w' & E & _). eauto.
Qed.

Lemma init_progress e :
  fresh_host e -> controls e "[Master]" "num_decks" = 4 ->
  exists w, exec init (World initial_state e) = Some w.
Proof.
  intros Hf Hn. pose proof (init_core e Hf Hn) as Hw.
  apply exec_wp in Hw as (w' & E & _). eauto.
Qed.

Lemma started_run : exec init (World initial_state quiet_host) = Some started.
Proof. vm_compute. reflexivity. Qed.

Lemma reachable_started : reachable started.
Proof.
  apply (reachable_init quiet_host);
    [repeat split; reflexivity | reflexivity |].
  exact started_run.
Defined.

Lemma reachable_run l : forall w w',
  reachable w -> forallb (keeps_num_decks 4) l = true ->
  run l w = Some w' -> reachable w'.
Proof.
  induction l as [|i l IH]; simpl; intros w w' H Hk E.
  - injection E as <-. exact H.
  - apply andb_true_iff in Hk as [Hi Hl].
    destruct (exec (handle i) w) as [w1|] eqn:E1; [|discriminate].
    apply (IH w1 w'); auto. eapply reachable_step; eauto.
Defined.

Lemma reachable_double_press : reachable (after double_press_ch0).
Proof.
  apply (reachable_run double_press_ch0 started);
    [exact reachable_started | reflexivity | vm_compute; reflexivity].
Defined.

(** * The claims *)

(** C1. Binding exclusivity: in every state of a run on four decks (the
    script starts with [channel_mapping = [0, 1]] and the binding only
    changes by the deck toggle) the two channels are bound to different
    decks. *)
Theorem binding_exclusivity w :
  reachable w ->
  (channel_mapping (js w)).[Ch0] <> (channel_mapping (js w)).[Ch1].
Proof.
  intros H. apply reachable_core in H.
  destruct (core_mapping0 _ H) as [E0|E0], (core_mapping1 _ H) as [E1|E1];
    unfold channel_to_deck in *; rewrite E0, E1; discriminate.
Qed.

Lemma binding_exclusivity_witness :
  (channel_mapping (js (after double_press_ch0))).[Ch0] = 2 /\
  (channel_mapping (js (after double_press_ch0))).[Ch0]
  <> (channel_mapping (js (after double_press_ch0))).[Ch1].
Proof.
  split; [vm_compute; reflexivity|].
  apply (binding_exclusivity (after double_press_ch0)).
  exact reachable_double_press.
Defined.

(** C4, as stated, fails: the script skips by two decks, not by half the
    number of decks.  On a host with two decks the deck after deck 0 is
    deck 0 again, where half the deck count would give deck 1. *)
Lemma next_deck_half_rule_counterexample :
  ~ (forall (w : world) (c : channel) (d : Z),
       0 < get_num_decks w -> 0 <= d < get_num_decks w ->
       exists w',
         next_deck c d w
         = Some ((d + get_num_decks w / 2) mod get_num_decks w, w')).
Proof.
  intros H.
  destruct (H (World initial_state two_deck_host) Ch0 0) as [w' E].
  - reflexivity.
  - split; [discriminate | reflexivity].
  - vm_compute in E. discriminate.
Qed.

Lemma interp_next_deck c d w :
  get_num_decks w <> 0 ->
  next_deck c d w = Some (Z.rem (d + 2) (get_num_decks w), w).
Proof.
  intros H. unfold next_deck, bind, gets, js_rem.
  destruct (Z.eqb_spec (get_num_decks w) 0); [contradiction | reflexivity].
Qed.

(** C4, amended.  The deck after [d] is [(d + 2) % num_decks]: a skip of
    two, whatever the number of decks.  On four decks this is the skip by
    half the deck count, and toggling a channel bound to deck 0 rebinds it
    to deck 2 and leaves the other channel's binding as it was. *)
Theorem next_deck_skips_two (w : world) (c : channel) (d : Z) :
  get_num_decks w <> 0 ->
  next_deck c d w = Some (Z.rem (d + 2) (get_num_decks w), w) /\
  (get_num_decks w = 4 -> 0 <= d ->
   Z.rem (d + 2) (get_num_decks w)
   = (d + get_num_decks w / 2) mod get_num_decks w) /\
  (reachable w -> channel_to_deck c w = 0 ->
   exists w', exec (toggle_deck_channel c) w = Some w' /\
              channel_to_deck c w' = 2 /\
              channel_to_deck (other c) w' = channel_to_deck (other c) w).
Proof.
  intros Hn. split; [apply interp_next_deck, Hn|]. split.
  - intros -> Hd. change (4 / 2) with 2. rewrite Z.rem_mod_nonneg; lia.
  - intros Hr E.
    pose proof (toggle_deck_channel_core c w (reachable_core w Hr)) as Hw.
    apply exec_wp in Hw as (w' & Ew & _ & _ & E1 & E2).
    exists w'. rewrite E in E1. auto.
Qed.

Lemma next_deck_skips_two_witness :
  next_deck Ch0 0 started = Some (Z.rem (0 + 2) (get_num_decks started), started)
  /\ exists w', exec (toggle_deck_channel Ch0) started = Some w' /\
                channel_to_deck Ch0 w' = 2 /\
                channel_to_deck Ch1 w' = channel_to_deck Ch1 started.
Proof.
  assert (Hn : get_num_decks started <> 0) by (vm_compute; discriminate).
  destruct (next_deck_skips_two started Ch0 0 Hn) as (H1 & _ & H3).
  split; [exact H1|].
  apply H3; [exact reachable_started | vm_compute; reflexivity].
Defined.

(** ** Frames of the toggle *)

Lemma toggle_gateway_last_shift c :
  respects (same (fun w => last_shift_button_pressed (js w)))
           (toggle_deck_channel_gateway c).
Proof. respects_walk same_leaf. Qed.

Lemma update_fx_light_last_shift :
  respects (same (fun w => last_shift_button_pressed (js w))) update_fx_light.
Proof. respects_walk same_leaf. Qed.

(** Splits a finished sequence into its finished parts. *)
Ltac inv_bind E :=
  let a := fresh "a" in
  let w := fresh "w" in
  let E1 := fresh "E" in
  apply bind_some in E as (a & w & E1 & E).

Ltac inv_prim E :=
  unfold gets, modify, ret, update_channel_cell in E;
  injection E as <- <-.

(** C10. [set_shift_button_pressed] stores the event's channel in
    [state.last_shift_button_pressed] on every edge of a shift button, the
    release edges included.  So after a release of one channel's shift
    button the cell holds that channel even while the other channel's
    button, pressed later, is still held, and the active effect unit, which
    is derived from the cell, changes on that release edge. *)
Theorem last_shift_follows_every_edge :
  (forall c pressed now w w',
     exec (set_shift_button_pressed c pressed now) w = Some w' ->
     get_last_shift_channel w' = c) /\
  (get_shift_button_pressed Ch1 (after left_shift_released) = true /\
   get_last_shift_channel (after both_shifts_down) = Ch1 /\
   get_last_shift_channel (after left_shift_released) = Ch0 /\
   active_effect_unit (after both_shifts_down) = Some 2 /\
   active_effect_unit (after left_shift_released) = Some 1).
Proof.
  split.
  - intros c pressed now w w' E. apply exec_some in E as [u E].
    unfold set_shift_button_pressed in E.
    inv_bind E. inv_bind E. inv_bind E. inv_bind E.
    assert (H2 : get_last_shift_channel w2 = c).
    { inv_prim E0. inv_prim E1. inv_prim E2.
      destruct w as [s e]. destruct s. reflexivity. }
    assert (H3 : get_last_shift_channel w3 = c).
    { rewrite <- H2. destruct (negb _).
      - apply (update_fx_light_last_shift _ _ _ E3).
      - inv_prim E3. reflexivity. }
    rewrite <- H3. revert E. cbv zeta.
    match goal with
    | |- ?m w3 = Some (u, w') -> _ =>
        assert (Hr : respects (same get_last_shift_channel) m)
    end.
    { unfold get_last_shift_channel. respects_walk same_leaf. }
    intros E. apply (Hr _ _ _ E).
  - repeat split; vm_compute; reflexivity.
Qed.

Lemma last_shift_follows_every_edge_witness :
  get_last_shift_channel (after left_shift_released) = Ch0.
Proof.
  assert (E : exec (set_shift_button_pressed Ch0 false 5800)
                   (after both_shifts_down)
              = Some (after left_shift_released))
    by (vm_compute; reflexivity).
  exact (proj1 last_shift_follows_every_edge Ch0 false 5800 _ _ E).
Defined.

(** ** The beatjump scale step *)

Lemma update_beatjump_shift_lights_scale c c' :
  respects (same (fun w => beatjump_scalestep (channel_cell c' w)))
           (update_beatjump_shift_lights c).
Proof. respects_walk same_leaf. Qed.

(** What a scaling request does: pad 6 (pad 7) of the shifted beat-jump
    pads lowers (raises) the step by one if that is allowed and does
    nothing otherwise. *)
Lemma scale_request c w s :
  reachable w ->
  beatjump_scalestep (channel_cell c w) = Some s ->
  (exists w', exec (handle_beatjump_shift c 6) w = Some w' /\
     beatjump_scalestep (channel_cell c w')
     = Some (if s <=? -1 then s else s - 1) /\
     (s <= -1 -> w' = w)) /\
  (exists w', exec (handle_beatjump_shift c 7) w = Some w' /\
     beatjump_scalestep (channel_cell c w')
     = Some (if s >=? 1 then s else s + 1) /\
     (1 <= s -> w' = w)).
Proof.
  intros Hr Es. pose proof (reachable_core w Hr) as Hc. split.
  - pose proof (handle_beatjump_shift_core c 6 w Hc) as Hw.
    apply exec_wp in Hw as (w' & E & _). exists w'. split; [exact E|].
    apply exec_some in E as [u E]. unfold handle_beatjump_shift in E.
    simpl in E. inv_bind E. inv_bind E. inv_prim E0. inv_prim E1.
    unfold allow_beatjump_downscale in E. rewrite Es in E.
    destruct (s <=? -1) eqn:El; simpl in E.
    + inv_prim E. split; auto.
    + inv_bind E. apply Z.leb_gt in El. split; [|lia].
      rewrite (update_beatjump_shift_lights_scale c c _ _ _ E).
      unfold add_scalestep in E0. inv_prim E0.
      destruct w as [st e]. destruct st. unfold channel_cell in *.
      cbn in *. destruct c; cbn in *; rewrite Es; reflexivity.
  - pose proof (handle_beatjump_shift_core c 7 w Hc) as Hw.
    apply exec_wp in Hw as (w' & E & _). exists w'. split; [exact E|].
    apply exec_some in E as [u E]. unfold handle_beatjump_shift in E.
    simpl in E. inv_bind E. inv_bind E. inv_prim E0. inv_prim E1.
    unfold allow_beatjump_upscale in E. rewrite Es in E.
    destruct (s >=? 1) eqn:El; simpl in E.
    + inv_prim E. split; auto.
    + inv_bind E.
      rewrite Z.geb_leb in El. apply Z.leb_gt in El.
      split; [|lia].
      rewrite (update_beatjump_shift_lights_scale c c _ _ _ E).
      unfold add_scalestep in E0. inv_prim E0.
      destruct w as [st e]. destruct st. unfold channel_cell in *.
      cbn in *. destruct c; cbn in *; rewrite Es; reflexivity.
Qed.

(** ** Loop adjust *)

Lemma set_loop_adjust_state_frame d s :
  respects (same (fun w => (controls (host w), channel_mapping (js w))))
           (set_loop_adjust_state d s).
Proof. respects_walk same_leaf. Qed.

Lemma update_loop_inout_lights_deck c :
  respects (same (fun w => deck (js w))) (update_loop_inout_lights c).
Proof. respects_walk same_leaf. Qed.

(** Setting the loop adjust state of a deck stores it in the deck's cell and
    leaves the host's controls and the binding as they are. *)
Lemma set_loop_adjust_state_result d s w :
  core w -> 0 <= d < 4 ->
  exists w', exec (set_loop_adjust_state d s) w = Some w' /\
    get_loop_adjust_state d w' = Some (s, w') /\
    controls (host w') = controls (host w) /\
    channel_mapping (js w') = channel_mapping (js w).
Proof.
  intros Hc Hd.
  pose proof (set_loop_adjust_state_core d s w Hc Hd) as Hw.
  apply exec_wp in Hw as (w' & E & _). exists w'. split; [exact E|].
  apply exec_some in E as [u E].
  pose proof (set_loop_adjust_state_frame d s _ _ _ E) as Hf.
  unfold same in Hf. injection Hf as Hf1 Hf2. split; [|auto].
  unfold set_loop_adjust_state in E. inv_bind E.
  assert (Hdeck : deck (js w') = deck (js w0)).
  { revert E.
    match goal with
    | |- ?m w0 = _ -> _ =>
        assert (Hr : respects (same (fun w => deck (js w))) m)
    end.
    { respects_walk same_leaf. }
    intros E. apply (Hr _ _ _ E). }
  unfold update_deck_cell in E0. inv_bind E0.
  pose proof (reads_deck_cell d _ _ _ E1) as ->.
  inv_prim E0.
  assert (Hl : lookupZ (deck (js w')) d = Some (DeckState (Some s) (effect_unit a0))).
  { rewrite Hdeck. destruct w as [st e]. destruct st. cbn.
    apply lookupZ_list_set_same. pose proof (core_decks _ Hc) as L.
    cbn in L. rewrite L. simpl. lia. }
  unfold get_loop_adjust_state, bind, deck_cell. rewrite Hl. reflexivity.
Qed.

Lemma loop_request c value w (which : Z) (handler : channel -> Z -> M unit) :
  (handler = loop_in /\ which = constants.loop_modifiers.adjust_in) \/
  (handler = loop_out /\ which = constants.loop_modifiers.adjust_out) ->
  core w -> truthy value = true ->
  truthy (get_loop_active (channel_to_group c w) w) = true ->
  forall s, get_loop_adjust_state (channel_to_deck c w) w = Some (s, w) ->
  exists w', exec (handler c value) w = Some w' /\
    get_loop_adjust_state (channel_to_deck c w) w'
    = Some (if s =? which then constants.loop_modifiers.none else which, w') /\
    controls (host w') = controls (host w) /\
    channel_mapping (js w') = channel_mapping (js w).
Proof.
  intros Hh Hc Hv Ha s Es.
  pose proof (core_mapping_range w c Hc) as Hd.
  destruct (set_loop_adjust_state_result (channel_to_deck c w)
              (if s =? which then constants.loop_modifiers.none else which)
              w Hc Hd) as (w' & E & R).
  exists w'. split; [|exact R].
  apply exec_some in E as [u E]. apply exec_some. exists u.
  unfold channel_to_group, get_loop_active in Ha.
  destruct Hh as [[-> ->]|[-> ->]].
  - unfold loop_in. rewrite Hv. cbn [negb].
    unfold bind at 1. unfold gets at 1. cbv zeta.
    unfold bind at 1. unfold gets at 1. unfold get_loop_active. rewrite Ha.
    unfold bind at 1. rewrite Es.
    destruct (s =? constants.loop_modifiers.adjust_in); exact E.
  - unfold loop_out. rewrite Hv. cbn [negb].
    unfold bind at 1. unfold gets at 1. cbv zeta.
    unfold bind at 1. unfold gets at 1. unfold get_loop_active. rewrite Ha.
    unfold bind at 1. rewrite Es.
    destruct (s =? constants.loop_modifiers.adjust_out); exact E.
Qed.

(** C7. While a loop is active on the deck bound to a channel, a loop-in
    press sets that deck's loop adjust state to adjust-in, or back to none
    if it was adjust-in already; a loop-out press does the same with
    adjust-out; and a loop-in press followed by a loop-out press leaves the
    state at adjust-out. *)
Theorem loop_adjust_toggle w c value s :
  reachable w -> truthy value = true ->
  truthy (get_loop_active (channel_to_group c w) w) = true ->
  get_loop_adjust_state (channel_to_deck c w) w = Some (s, w) ->
  let d := channel_to_deck c w in
  (exists w', exec (loop_in c value) w = Some w' /\
     get_loop_adjust_state d w'
     = Some (if s =? constants.loop_modifiers.adjust_in
             then constants.loop_modifiers.none
             else constants.loop_modifiers.adjust_in, w')) /\
  (exists w', exec (loop_out c value) w = Some w' /\
     get_loop_adjust_state d w'
     = Some (if s =? constants.loop_modifiers.adjust_out
             then constants.loop_modifiers.none
             else constants.loop_modifiers.adjust_out, w')) /\
  (exists w1 w2,
     exec (loop_in c value) w = Some w1 /\
     exec (loop_out c value) w1 = Some w2 /\
     get_loop_adjust_state d w2
     = Some (constants.loop_modifiers.adjust_out, w2)).
Proof.
  intros Hr Hv Ha Es d. pose proof (reachable_core w Hr) as Hc.
  destruct (loop_request c value w _ loop_in (or_introl (conj eq_refl eq_refl))
              Hc Hv Ha s Es) as (w1 & E1 & S1 & C1 & M1).
  destruct (loop_request c value w _ loop_out (or_intror (conj eq_refl eq_refl))
              Hc Hv Ha s Es) as (w1' & E1' & S1' & _).
  split; [eauto|]. split; [eauto|].
  pose proof (reachable_step w (in_loop_in c value) w1 Hr eq_refl E1) as Hr1.
  assert (Ed : channel_to_deck c w1 = d) by (unfold channel_to_deck; rewrite M1; reflexivity).
  assert (Ha1 : truthy (get_loop_active (channel_to_group c w1) w1) = true).
  { unfold channel_to_group, get_loop_active, engine_getValue in *.
    rewrite Ed, C1. exact Ha. }
  fold d in S1. rewrite <- Ed in S1.
  destruct (loop_request c value w1 _ loop_out (or_intror (conj eq_refl eq_refl))
              (reachable_core _ Hr1) Hv Ha1 _ S1) as (w2 & E2 & S2 & _).
  exists w1, w2. split; [exact E1|]. split; [exact E2|].
  rewrite Ed in S2. rewrite S2.
  destruct (s =? constants.loop_modifiers.adjust_in); reflexivity.
Qed.

Lemma reachable_loop_on_deck0 : reachable (after loop_on_deck0).
Proof.
  apply (reachable_run loop_on_deck0 started);
    [exact reachable_started | reflexivity | vm_compute; reflexivity].
Defined.

Lemma loop_adjust_toggle_witness :
  exists w1 w2,
    exec (loop_in Ch0 0x7F) (after loop_on_deck0) = Some w1 /\
    exec (loop_out Ch0 0x7F) w1 = Some w2 /\
    get_loop_adjust_state (channel_to_deck Ch0 (after loop_on_deck0)) w2
    = Some (constants.loop_modifiers.adjust_out, w2).
Proof.
  assert (Ha : truthy (get_loop_active
                         (channel_to_group Ch0 (after loop_on_deck0))
                         (after loop_on_deck0)) = true)
    by (vm_compute; reflexivity).
  assert (Es : get_loop_adjust_state (channel_to_deck Ch0 (after loop_on_deck0))
                 (after loop_on_deck0)
               = Some (constants.loop_modifiers.none, after loop_on_deck0))
    by (vm_compute; reflexivity).
  exact (proj2 (proj2 (loop_adjust_toggle (after loop_on_deck0) Ch0 0x7F
                         constants.loop_modifiers.none
                         reachable_loop_on_deck0 eq_refl Ha Es))).
Defined.

(** ** The shift debouncer *)

Lemma toggle_requests_logged evs w :
  toggle_requests (add_events evs w)
  = (List.length (filter is_toggle_request evs) + toggle_requests w)%nat.
Proof.
  destruct w as [s []]. unfold toggle_requests. cbn.
  rewrite filter_app, length_app. reflexivity.
Qed.

Lemma is_toggle_request_toggling x :
  is_toggle_request (print ("Toggling deck from " ++ x)%string) = true.
Proof. cbn. destruct x; reflexivity. Qed.

Lemma teardown_no_toggle c w :
  filter is_toggle_request (teardown_events c w) = [].
Proof.
  unfold teardown_events. cbv zeta. rewrite !filter_app.
  cbn [filter is_toggle_request app].
  assert (H1 : forall l, filter is_toggle_request (rev (map connection_disconnect l)) = []).
  { induction l as [|x l IH]; simpl; auto. rewrite filter_app, IH. reflexivity. }
  assert (H2 : forall l, filter is_toggle_request (rev (map engine_stopTimer l)) = []).
  { induction l as [|x l IH]; simpl; auto. rewrite filter_app, IH. reflexivity. }
  rewrite H1, H2. reflexivity.
Qed.

Lemma toggle_requests_torn_down c w :
  toggle_requests (torn_down c w) = toggle_requests w.
Proof.
  unfold torn_down. rewrite toggle_requests_logged, teardown_no_toggle.
  destruct w as [s []]. reflexivity.
Qed.

Lemma connect_channel_no_toggle c :
  respects (same toggle_requests) (connect_channel c).
Proof. respects_walk same_leaf. Qed.

Lemma connect_channel_debouncer c :
  respects (same debouncer) (connect_channel c).
Proof. respects_walk same_leaf. Qed.

(** A toggle on four decks is one toggle request, rebinds the channel and
    leaves the debouncers alone. *)
Lemma toggle_deck_channel_result c w :
  core w ->
  exists w', exec (toggle_deck_channel c) w = Some w' /\
    core w' /\
    toggle_requests w' = S (toggle_requests w) /\
    channel_to_deck c w' = Z.rem (channel_to_deck c w + 2) 4 /\
    channel_to_deck (other c) w' = channel_to_deck (other c) w /\
    debouncer w' = debouncer w /\
    get_last_shift_channel w' = get_last_shift_channel w.
Proof.
  intros Hc. pose proof (toggle_deck_channel_core c w Hc) as Hw.
  apply exec_wp in Hw as (w' & E & _ & Hc' & M1 & M2).
  exists w'. split; [exact E|]. split; [exact Hc'|].
  apply exec_some in E as [u E].
  pose proof (toggle_gateway_last_shift c w u w') as HL.
  unfold toggle_deck_channel_gateway in HL. simpl in HL.
  specialize (HL E). unfold same in HL.
  rewrite toggle_deck_channel_spec in E by exact Hc.
  pose proof (connect_channel_no_toggle c _ _ _ E) as HT.
  pose proof (connect_channel_debouncer c _ _ _ E) as HD.
  unfold same in HT, HD. rewrite HT, HD.
  split; [|split; [exact M1|split; [exact M2|split; [|exact HL]]]].
  - unfold rebound.
    match goal with
    | |- toggle_requests (on_js ?f ?x) = _ =>
        replace (toggle_requests (on_js f x)) with (toggle_requests x)
          by (destruct x as [s0 e0]; reflexivity)
    end.
    rewrite toggle_requests_torn_down, toggle_requests_logged.
    cbn [filter]. rewrite is_toggle_request_toggling. reflexivity.
  - destruct w as [s e]. destruct s, e, c; reflexivity.
Qed.

Lemma wp_run {A} (m : M A) Q w a w' :
  wp m Q w -> m w = Some (a, w') -> Q a w'.
Proof. unfold wp. intros H E. rewrite E in H. exact H. Qed.

Lemma core_run {A} (m : M A) w a w' :
  wp m (fun _ => core) w -> m w = Some (a, w') -> core w'.
Proof. apply wp_run. Qed.

Lemma debouncer_reads c w w' :
  debouncer w' = debouncer w ->
  get_shift_double c w' = get_shift_double c w /\
  get_last_shift_time c w' = get_last_shift_time c w.
Proof.
  unfold debouncer, get_shift_double, get_last_shift_time.
  unfold channel_cell. intros [= E1 E2 E3 E4].
  destruct c; cbn [at_channel]; rewrite ?E1, ?E2, ?E3, ?E4; auto.
Qed.

(** What one edge of a shift button does: a press records whether it came
    within the window of the reference press, and becomes the reference
    itself if it did not; a release asks for the toggle if it comes within
    the window and the last press did too, and leaves the debouncer as it
    is either way. *)
Lemma set_shift_button_pressed_result c pressed now w :
  core w ->
  let within := now - get_last_shift_time c w <? constants.times.double_press in
  exists w', exec (set_shift_button_pressed c pressed now) w = Some w' /\
    core w' /\
    if pressed then
      toggle_requests w' = toggle_requests w /\
      channel_mapping (js w') = channel_mapping (js w) /\
      get_shift_double c w' = within /\
      get_last_shift_time c w'
      = (if within then get_last_shift_time c w else now)
    else
      get_shift_double c w' = get_shift_double c w /\
      get_last_shift_time c w' = get_last_shift_time c w /\
      if within && get_shift_double c w then
        toggle_requests w' = S (toggle_requests w) /\
        channel_to_deck c w' = Z.rem (channel_to_deck c w + 2) 4 /\
        channel_to_deck (other c) w' = channel_to_deck (other c) w
      else
        toggle_requests w' = toggle_requests w /\
        channel_mapping (js w') = channel_mapping (js w).
Proof.
  intros Hc within.
  pose proof (set_shift_button_pressed_core c pressed now w Hc) as Hw.
  apply exec_wp in Hw as (w' & E & _ & Hc'). exists w'.
  split; [exact E|]. split; [exact Hc'|].
  apply exec_some in E as [u E]. unfold set_shift_button_pressed in E.
  inv_bind E. inv_bind E. inv_bind E. inv_bind E.
  (* up to the effect light nothing of interest changes *)
  set (F := same (fun w => (toggle_requests w, channel_mapping (js w),
                            debouncer w))).
  assert (H3 : F w w3 /\ core w3).
  { assert (H0 : F w w0 /\ core w0).
    { split.
      - revert E0. match goal with |- ?m w = _ -> _ =>
          assert (Hr : respects F m) by (respects_walk same_leaf) end.
        apply Hr.
      - eapply core_run; [|exact E0].
        apply update_channel_cell_core; [reflexivity | exact Hc]. }
    inv_prim E1.
    assert (H2 : F w w2 /\ core w2).
    { destruct H0 as [H0 Hc0]. split.
      - transitivity w0; [exact H0|]. revert E2.
        match goal with |- ?m w0 = _ -> _ =>
          assert (Hr : respects F m) by (respects_walk same_leaf) end.
        apply Hr.
      - eapply core_run; [|exact E2]. apply last_shift_core, Hc0. }
    destruct H2 as [H2 Hc2]. destruct (negb _).
    - split.
      + transitivity w2; [exact H2|]. revert E3.
        assert (Hr : respects F update_fx_light) by (respects_walk same_leaf).
        apply Hr.
      + eapply core_run; [|exact E3]. apply update_fx_light_core, Hc2.
    - inv_prim E3. auto. }
  destruct H3 as [H3 Hc3]. unfold F, same in H3.
  assert (HT : toggle_requests w3 = toggle_requests w) by congruence.
  assert (HM : channel_mapping (js w3) = channel_mapping (js w)) by congruence.
  assert (HD : debouncer w3 = debouncer w) by congruence.
  clear H3.
  destruct (debouncer_reads c w w3 HD) as [HD1 HD2].
  clear E0 E1 E2 E3 F. cbv zeta in E. inv_bind E. inv_prim E0.
  rewrite HD2 in E. fold within in E.
  destruct pressed.
  - (* press *)
    unfold set_shift_double in E. inv_bind E. inv_prim E0.
    rewrite <- HT, <- HM, <- HD2.
    destruct within.
    + inv_prim E. destruct w3 as [s e]. destruct s, e, c;
        repeat split; reflexivity.
    + cbn [negb] in E. inv_prim E. destruct w3 as [s e]. destruct s, e, c;
        repeat split; reflexivity.
  - (* release *)
    inv_bind E. inv_prim E0. rewrite HD1 in E.
    destruct (within && get_shift_double c w).
    + unfold shift_double_press, toggle_deck_channel_gateway in E.
      cbn [constants.always_toggle_both] in E.
      destruct (toggle_deck_channel_result c w3 Hc3)
        as (w'' & E' & _ & T & M1 & M2 & D & _).
      apply exec_some in E' as [u' E']. rewrite E' in E.
      injection E as _ <-.
      destruct (debouncer_reads c w3 w'' D) as [D1 D2].
      unfold channel_to_deck in *.
      rewrite D1, D2, HD1, HD2, T, M1, M2, HT, HM. auto.
    + inv_prim E. rewrite HD1, HD2, HT, HM. auto.
Qed.

Lemma press_result c now w :
  core w ->
  let within := now - get_last_shift_time c w <? constants.times.double_press in
  exists w', exec (handle (press c now)) w = Some w' /\ core w' /\
    toggle_requests w' = toggle_requests w /\
    channel_mapping (js w') = channel_mapping (js w) /\
    get_shift_double c w' = within /\
    get_last_shift_time c w' = (if within then get_last_shift_time c w else now).
Proof.
  intros Hc. exact (set_shift_button_pressed_result c true now w Hc).
Qed.

Lemma release_result c now w :
  core w ->
  let within := now - get_last_shift_time c w <? constants.times.double_press in
  exists w', exec (handle (release c now)) w = Some w' /\ core w' /\
    get_shift_double c w' = get_shift_double c w /\
    get_last_shift_time c w' = get_last_shift_time c w /\
    if within && get_shift_double c w then
      toggle_requests w' = S (toggle_requests w) /\
      channel_to_deck c w' = Z.rem (channel_to_deck c w + 2) 4 /\
      channel_to_deck (other c) w' = channel_to_deck (other c) w
    else
      toggle_requests w' = toggle_requests w /\
      channel_mapping (js w') = channel_mapping (js w).
Proof.
  intros Hc. exact (set_shift_button_pressed_result c false now w Hc).
Qed.

(** A press and its release that do not fire: the press comes at least the
    window after the reference press. *)
Lemma lone_press c t r w :
  core w ->
  constants.times.double_press <= t - get_last_shift_time c w ->
  exists w1 w2,
    exec (handle (press c t)) w = Some w1 /\
    exec (handle (release c r)) w1 = Some w2 /\
    core w2 /\
    toggle_requests w1 = toggle_requests w /\
    toggle_requests w2 = toggle_requests w /\
    channel_mapping (js w2) = channel_mapping (js w) /\
    get_shift_double c w2 = false /\
    get_last_shift_time c w2 = t.
Proof.
  intros Hc Ht.
  destruct (press_result c t w Hc) as (w1 & E1 & Hc1 & T1 & M1 & D1 & L1).
  assert (W : (t - get_last_shift_time c w <? constants.times.double_press) = false)
    by (apply Z.ltb_ge; exact Ht).
  rewrite W in D1, L1.
  destruct (release_result c r w1 Hc1) as (w2 & E2 & Hc2 & D2 & L2 & R2).
  rewrite D1, andb_false_r in R2. destruct R2 as [T2 M2].
  exists w1, w2. split; [exact E1|]. split; [exact E2|]. split; [exact Hc2|].
  repeat split; congruence.
Qed.

(** C5.  The window is 290 ms.  The times of the gesture count from its
    first press, which the clock [Date.now()] stamps with [t0]; the clock
    counts the milliseconds since 1970, so [t0] is at least the window.  On
    a channel whose shift button has not been pressed yet: press, release
    100 ms later, press 150 ms and release 200 ms after the first press ask
    for the toggle exactly once, at the second release, and the channel is
    rebound.  Two presses more than the window apart, each with its
    release, the first at least the window after the stored reference
    time, never ask for it. *)
Theorem double_press_window w c :
  reachable w ->
  (forall t0,
     shift_time (channel_cell c w) = None ->
     constants.times.double_press <= t0 ->
     exists w1 w2 w3 w4,
       exec (handle (press c t0)) w = Some w1 /\
       exec (handle (release c (t0 + 100))) w1 = Some w2 /\
       exec (handle (press c (t0 + 150))) w2 = Some w3 /\
       exec (handle (release c (t0 + 200))) w3 = Some w4 /\
       toggle_requests w1 = toggle_requests w /\
       toggle_requests w2 = toggle_requests w /\
       toggle_requests w3 = toggle_requests w /\
       toggle_requests w4 = S (toggle_requests w) /\
       channel_to_deck c w4 = Z.rem (channel_to_deck c w + 2) 4) /\
  (forall t1 r1 t2 r2,
     constants.times.double_press <= t1 - get_last_shift_time c w ->
     constants.times.double_press < t2 - t1 ->
     exists w1 w2 w3 w4,
       exec (handle (press c t1)) w = Some w1 /\
       exec (handle (release c r1)) w1 = Some w2 /\
       exec (handle (press c t2)) w2 = Some w3 /\
       exec (handle (release c r2)) w3 = Some w4 /\
       toggle_requests w1 = toggle_requests w /\
       toggle_requests w2 = toggle_requests w /\
       toggle_requests w3 = toggle_requests w /\
       toggle_requests w4 = toggle_requests w /\
       channel_mapping (js w4) = channel_mapping (js w)).
Proof.
  intros Hr. pose proof (reachable_core w Hr) as Hc. split.
  - intros t0 Hnone Ht0.
    assert (L0 : get_last_shift_time c w = 0).
    { unfold get_last_shift_time. rewrite Hnone. reflexivity. }
    destruct (lone_press c t0 (t0 + 100) w Hc)
      as (w1 & w2 & E1 & E2 & Hc2 & T1 & T2 & M2 & D2 & L2).
    { rewrite L0. lia. }
    destruct (press_result c (t0 + 150) w2 Hc2)
      as (w3 & E3 & Hc3 & T3 & M3 & D3 & L3).
    assert (W3 : (t0 + 150 - get_last_shift_time c w2
                  <? constants.times.double_press) = true).
    { rewrite L2. apply Z.ltb_lt. unfold constants.times.double_press. lia. }
    rewrite W3 in D3, L3.
    destruct (release_result c (t0 + 200) w3 Hc3)
      as (w4 & E4 & Hc4 & D4 & L4 & R4).
    assert (W4 : (t0 + 200 - get_last_shift_time c w3
                  <? constants.times.double_press) = true).
    { rewrite L3, L2. apply Z.ltb_lt. unfold constants.times.double_press. lia. }
    rewrite W4, D3 in R4. cbn [andb] in R4. destruct R4 as (T4 & M4 & _).
    exists w1, w2, w3, w4. repeat split; auto; try congruence.
    rewrite M4. unfold channel_to_deck. rewrite M3, M2. reflexivity.
  - intros t1 r1 t2 r2 H1 H2.
    destruct (lone_press c t1 r1 w Hc H1)
      as (w1 & w2 & E1 & E2 & Hc2 & T1 & T2 & M2 & D2 & L2).
    destruct (lone_press c t2 r2 w2 Hc2)
      as (w3 & w4 & E3 & E4 & Hc4 & T3 & T4 & M4 & D4 & L4).
    { rewrite L2. lia. }
    exists w1, w2, w3, w4. repeat split; auto; congruence.
Qed.

Lemma double_press_window_witness :
  exists w1 w2 w3 w4,
    exec (handle (press Ch0 1000)) started = Some w1 /\
    exec (handle (release Ch0 (1000 + 100))) w1 = Some w2 /\
    exec (handle (press Ch0 (1000 + 150))) w2 = Some w3 /\
    exec (handle (release Ch0 (1000 + 200))) w3 = Some w4 /\
    toggle_requests w1 = toggle_requests started /\
    toggle_requests w2 = toggle_requests started /\
    toggle_requests w3 = toggle_requests started /\
    toggle_requests w4 = S (toggle_requests started) /\
    channel_to_deck Ch0 w4 = Z.rem (channel_to_deck Ch0 started + 2) 4.
Proof.
  apply (proj1 (double_press_window started Ch0 reachable_started) 1000).
  - vm_compute. reflexivity.
  - vm_compute. discriminate.
Defined.

(** Why the clock has to be at least the window at the first press: a
    shift button that was never pressed has the reference time 0, so a
    first press stamped 0 would already count as within the window, its
    release at 100 would fire, and the second release at 200 again. *)
Lemma double_press_at_clock_zero :
  shift_time (channel_cell Ch0 started) = None /\
  toggle_requests (after first_press_at_zero_ch0)
  = S (toggle_requests started) /\
  toggle_requests (after double_press_at_zero_ch0)
  = S (S (toggle_requests started)).
Proof. repeat split; vm_compute; reflexivity. Qed.

(** C6, as stated, fails: firing does not reset the debouncer.  After the
    double press of [double_press_ch0] the pending flag is still set and
    the reference time is still that of the first press; a third press at
    1220 with its release at 1250, within the window of the first press at
    1000, fires a second time. *)
Lemma third_press_fires_again :
  toggle_requests (after double_press_ch0) = S (toggle_requests started) /\
  get_shift_double Ch0 (after double_press_ch0) = true /\
  get_last_shift_time Ch0 (after double_press_ch0) = 1000 /\
  toggle_requests (after triple_press_ch0) = S (S (toggle_requests started)) /\
  channel_to_deck Ch0 (after double_press_ch0) = 2 /\
  channel_to_deck Ch0 (after triple_press_ch0) = 0.
Proof. repeat split; vm_compute; reflexivity. Qed.

(** C6, amended.  When a double press fires, the debouncer of the channel
    is left as it is: the pending flag stays set and the reference time
    stays that of the first press.  A further press whose release comes
    within the window of that reference press fires again; a further press
    that comes at least the window after it does not. *)
Theorem double_press_keeps_debouncer w c now :
  reachable w ->
  get_shift_double c w = true ->
  now - get_last_shift_time c w < constants.times.double_press ->
  exists w',
    exec (handle (release c now)) w = Some w' /\
    toggle_requests w' = S (toggle_requests w) /\
    get_shift_double c w' = true /\
    get_last_shift_time c w' = get_last_shift_time c w /\
    (forall t3 r3,
       t3 - get_last_shift_time c w < constants.times.double_press ->
       r3 - get_last_shift_time c w < constants.times.double_press ->
       exists w3 w4,
         exec (handle (press c t3)) w' = Some w3 /\
         exec (handle (release c r3)) w3 = Some w4 /\
         toggle_requests w4 = S (S (toggle_requests w))) /\
    (forall t3 r3,
       constants.times.double_press <= t3 - get_last_shift_time c w ->
       exists w3 w4,
         exec (handle (press c t3)) w' = Some w3 /\
         exec (handle (release c r3)) w3 = Some w4 /\
         toggle_requests w4 = S (toggle_requests w)).
Proof.
  intros Hr Hd Hn. pose proof (reachable_core w Hr) as Hc.
  destruct (release_result c now w Hc) as (w' & E & Hc' & D & L & R).
  apply Z.ltb_lt in Hn. rewrite Hn, Hd in R. cbn [andb] in R.
  destruct R as (T & _). exists w'.
  split; [exact E|]. split; [exact T|]. split; [congruence|].
  split; [exact L|]. split.
  - intros t3 r3 H3 H4.
    destruct (press_result c t3 w' Hc') as (w3 & E3 & Hc3 & T3 & M3 & D3 & L3).
    rewrite L in D3, L3. apply Z.ltb_lt in H3. rewrite H3 in D3, L3.
    destruct (release_result c r3 w3 Hc3) as (w4 & E4 & Hc4 & D4 & L4 & R4).
    rewrite L3, D3 in R4. apply Z.ltb_lt in H4. rewrite H4 in R4.
    cbn [andb] in R4. destruct R4 as (T4 & _).
    exists w3, w4. repeat split; auto. congruence.
  - intros t3 r3 H3.
    destruct (lone_press c t3 r3 w' Hc')
      as (w3 & w4 & E3 & E4 & _ & _ & T4 & _).
    { rewrite L. exact H3. }
    exists w3, w4. repeat split; auto. congruence.
Qed.

Lemma double_press_keeps_debouncer_witness :
  exists w',
    exec (handle (release Ch0 1200)) (after second_press_held_ch0) = Some w' /\
    toggle_requests w' = S (toggle_requests (after second_press_held_ch0)) /\
    get_shift_double Ch0 w' = true.
Proof.
  assert (Hr : reachable (after second_press_held_ch0)).
  { apply (reachable_run second_press_held_ch0 started);
      [exact reachable_started | reflexivity | vm_compute; reflexivity]. }
  destruct (double_press_keeps_debouncer _ Ch0 1200 Hr)
    as (w' & E & T & D & _).
  - vm_compute. reflexivity.
  - vm_compute. reflexivity.
  - exists w'. auto.
Defined.

(** ** Blink timers over the whole run *)

Lemma always_at P l later earlier :
  always P l -> l = later ++ earlier -> P earlier.
Proof.
  revert l. induction later as [|e later IH]; simpl; intros l H ->.
  - apply always_now, H.
  - simpl in H. destruct H as [_ H]. apply (IH _ H eq_refl).
Qed.

Lemma singular_before_begin t l :
  singular (engine_beginTimer t :: l) ->
  forall id, ~ In (id, timer_channel t) (running l).
Proof.
  unfold singular. simpl. intros H id Hin.
  specialize (H (timer_channel t)).
  rewrite filter_app, length_app in H. simpl in H.
  assert (Ec : channel_eqb (timer_channel t) (timer_channel t) = true)
    by (apply channel_eqb_eq; reflexivity).
  rewrite Ec in H. simpl in H.
  assert (Hf : In (id, timer_channel t)
                  (filter (fun p => channel_eqb (snd p) (timer_channel t))
                          (running l))).
  { apply filter_In. split; auto. }
  destruct (filter _ (running l)); [contradiction | simpl in H; lia].
Qed.

Lemma core_singular_now w c : core w -> (List.length (timers_of c w) <= 1)%nat.
Proof.
  intros H. pose proof (always_now _ _ (core_history _ H) c) as Hs.
  rewrite (core_running _ H), filter_map_swap, length_map in Hs.
  exact Hs.
Qed.

Lemma torn_down_no_timers c w : core w -> timers_of c (torn_down c w) = [].
Proof.
  intros H. apply no_timer_without_entry; [apply torn_down_core, H|].
  rewrite (proj1 (torn_down_tables c w)). reflexivity.
Qed.

Lemma teardown_arms_nothing c w t :
  ~ In (engine_beginTimer t) (teardown_events c w).
Proof.
  unfold teardown_events. cbv zeta. rewrite !in_app_iff. simpl.
  intros [H|[H|H]].
  - repeat destruct H as [H|H]; try discriminate; contradiction.
  - apply in_rev_map in H as [x E]. discriminate.
  - apply in_rev_map in H as [x E]. discriminate.
Qed.

(** C8. Timer singularity.  In every state of a run each channel has at
    most one running blink timer, and the same held after every single
    request the script has made so far, as the log of its
    [engine.beginTimer] and [engine.stopTimer] calls tells (the log's
    account of what runs agrees with the host).  So whenever a timer was
    armed, no timer of its channel was running any more: the one that was
    had been stopped first.  And a rebind has cancelled all timers of its
    channel when it has torn the channel down, before it connects, without
    arming one on the way. *)
Theorem timer_singularity w :
  reachable w ->
  (forall c, (List.length (timers_of c w) <= 1)%nat) /\
  running (log (host w)) = map timer_key (live_timers (host w)) /\
  (forall later earlier,
     log (host w) = later ++ earlier -> singular earlier) /\
  (forall later t earlier,
     log (host w) = later ++ engine_beginTimer t :: earlier ->
     forall id, ~ In (id, timer_channel t) (running earlier)) /\
  (forall c,
     let announced :=
       add_events
         [print ("Toggling deck from "
                 ++ number_to_string (channel_to_deck c w) ++ " to "
                 ++ number_to_string (Z.rem (channel_to_deck c w + 2) 4)
                 ++ ".")%string] w in
     toggle_deck_channel c w
     = connect_channel c
         (rebound c (Z.rem (channel_to_deck c w + 2) 4)
                  (torn_down c announced)) /\
     timers_of c (torn_down c announced) = [] /\
     (forall t, ~ In (engine_beginTimer t) (teardown_events c announced))).
Proof.
  intros Hr. pose proof (reachable_core w Hr) as Hc.
  split; [intros c; apply core_singular_now, Hc|].
  split; [apply (core_running _ Hc)|].
  split; [intros later earlier E; apply (always_at _ _ _ _ (core_history _ Hc) E)|].
  split.
  - intros later t earlier E.
    apply singular_before_begin.
    apply (always_at _ _ _ _ (core_history _ Hc) E).
  - intros c announced. split; [apply toggle_deck_channel_spec, Hc|].
    split; [|intros t; apply teardown_arms_nothing].
    apply torn_down_no_timers. apply core_logged; [|exact Hc].
    constructor; [exact I | constructor].
Qed.

Lemma timer_singularity_witness :
  List.length (timers_of Ch0 (after loop_on_deck0)) = 1%nat /\
  forall c, (List.length (timers_of c (after loop_on_deck0)) <= 1)%nat.
Proof.
  split; [vm_compute; reflexivity|].
  exact (proj1 (timer_singularity (after loop_on_deck0) reachable_loop_on_deck0)).
Defined.

(** ** Ids are handed out upwards *)

#[export] Instance hands_out_fresh_preorder : PreOrder hands_out_fresh.
Proof.
  split.
  - intros w. split; [lia|]. split; [lia|]. exists []. split; [reflexivity|constructor].
  - intros w1 w2 w3 (C1 & T1 & evs1 & E1 & F1) (C2 & T2 & evs2 & E2 & F2).
    split; [lia|]. split; [lia|]. exists (evs2 ++ evs1). split.
    + rewrite E2, E1, app_assoc. reflexivity.
    + apply Forall_app. split; [|exact F1].
      eapply Forall_impl; [|exact F2].
      intros [] H; simpl in *; auto; lia.
Qed.

Lemma makeConnection_fresh g ctl f : respects hands_out_fresh (makeConnection g ctl f).
Proof.
  intros w a w' E. destruct w as [s e]. destruct s, e.
  cbn in E. injection E as <- <-. unfold hands_out_fresh. cbn.
  split; [lia|]. split; [lia|]. eexists [_]. split; [reflexivity|].
  constructor; [cbn; lia | constructor].
Qed.

Lemma beginTimer_fresh p b ch : respects hands_out_fresh (beginTimer p b ch).
Proof.
  intros w a w' E. destruct w as [s e]. destruct s, e.
  cbn in E. injection E as <- <-. unfold hands_out_fresh. cbn.
  split; [lia|]. split; [lia|]. eexists [_]. split; [reflexivity|].
  constructor; [cbn; lia | constructor].
Qed.

Ltac fresh_leaf :=
  idtac;
  match goal with
  | |- hands_out_fresh ?w _ =>
      let s := fresh "s" in
      let e := fresh "e" in
      destruct w as [s e]; destruct s, e; unfold hands_out_fresh; cbn;
      split; [lia|]; split; [lia|];
      first [ exists []; split; [reflexivity | constructor]
            | eexists [_]; split; [reflexivity | constructor; [exact I | constructor]] ]
  end.

Ltac fresh_walk :=
  repeat lazymatch goal with
  | |- forall _, _ => intro
  | |- PreOrder _ => exact _
  | |- respects _ (makeConnection _ _ _) => apply makeConnection_fresh
  | |- respects _ (beginTimer _ _ _) => apply beginTimer_fresh
  | |- respects _ (bind _ _) => apply respects_bind
  | |- respects _ (ret _) => apply respects_ret
  | |- respects _ (gets _) => apply respects_gets
  | |- respects _ throw => apply respects_throw
  | |- respects _ (deck_cell _) => apply respects_reads, reads_deck_cell
  | |- respects _ (for_each _ _) => apply respects_for_each
  | |- respects _ (modify _) => apply respects_modify; intro; fresh_leaf
  | |- respects _ (if ?b then _ else _) => destruct b
  | |- respects _ (match ?x with _ => _ end) => destruct x
  | |- respects _ (let _ := _ in _) => cbv zeta
  | |- respects _ ?m => let h := head_of m in unfold h
  end.

Lemma connect_channel_fresh c : respects hands_out_fresh (connect_channel c).
Proof. fresh_walk. Qed.

Lemma handle_fresh i : respects hands_out_fresh (handle i).
Proof. fresh_walk. Qed.

(** ** Replaying a stretch of the log *)

Lemma replay_shrinks part base :
  Forall (fun e => ~ creates e) part ->
  (forall x, In x (connected (part ++ base)) -> In x (connected base)) /\
  (forall k, In k (running (part ++ base)) -> In k (running base)).
Proof.
  induction 1 as [|e part He _ [IH1 IH2]]; [split; auto|].
  split; intros x Hx; destruct e; simpl in *; auto; try tauto.
  - apply filter_In in Hx as [Hx _]. auto.
  - apply filter_In in Hx as [Hx _]. auto.
Qed.

Lemma replay_fresh nc nt part base :
  Forall (created_from nc nt) part ->
  (forall x, In x (connected (part ++ base)) ->
     In x (connected base) \/ (nc <= conn_id x)%nat) /\
  (forall k, In k (running (part ++ base)) ->
     In k (running base) \/ (nt <= fst k)%nat).
Proof.
  induction 1 as [|e part He _ [IH1 IH2]]; [split; auto|].
  split; intros x Hx; destruct e; simpl in *; auto.
  - apply in_app_iff in Hx as [Hx|[<-|[]]]; auto.
  - apply filter_In in Hx as [Hx _]. auto.
  - apply in_app_iff in Hx as [Hx|[<-|[]]]; auto.
  - apply filter_In in Hx as [Hx _]. auto.
Qed.

Lemma run_fresh l w w' : run l w = Some w' -> hands_out_fresh w w'.
Proof.
  revert w. induction l as [|i l IH]; simpl; intros w E.
  - injection E as <-. reflexivity.
  - destruct (exec (handle i) w) as [w1|] eqn:E1; [|discriminate].
    apply exec_some in E1 as [u E1].
    transitivity w1; [eapply handle_fresh; eauto | auto].
Qed.

Lemma teardown_creates_nothing c w e :
  In e (teardown_events c w) -> ~ creates e.
Proof.
  unfold teardown_events. cbv zeta. rewrite !in_app_iff. simpl.
  intros [H|[H|H]].
  - repeat destruct H as [<-|H]; try exact (fun x => x); contradiction.
  - apply in_rev_map in H as [x ->]. exact (fun x => x).
  - apply in_rev_map in H as [x ->]. exact (fun x => x).
Qed.

Lemma teardown_stops_and_disconnects c w :
  core w ->
  (forall t, In t (timers_of c w) ->
     In (engine_stopTimer (timer_no t)) (teardown_events c w)) /\
  (forall conn, In conn (obj_values (connections (js w)).[c]) ->
     In (connection_disconnect conn) (teardown_events c w)).
Proof.
  intros H. unfold teardown_events. cbv zeta. split.
  - intros t Ht. apply filter_In in Ht as [Hin Hc]. apply channel_eqb_eq in Hc.
    apply (core_timers _ H) in Hin. rewrite Hc in Hin.
    apply obj_get_values in Hin.
    rewrite !in_app_iff. right. right. rewrite <- in_rev. apply in_map, Hin.
  - intros conn Hin. rewrite !in_app_iff. right. left.
    rewrite <- in_rev. apply in_map, Hin.
Qed.

Lemma torn_down_counters c evs w :
  let bare := torn_down c (add_events evs w) in
  next_connection (host bare) = next_connection (host w) /\
  next_timer (host bare) = next_timer (host w) /\
  log (host bare)
  = teardown_events c (add_events evs w) ++ evs ++ log (host w) /\
  channel_mapping (js bare) = channel_mapping (js w) /\
  live_connections (host bare)
  = without_connections (obj_values (connections (js w)).[c])
                        (live_connections (host w)).
Proof.
  destruct w as [s e]. destruct s, e. cbn -[teardown_events].
  repeat split; reflexivity.
Qed.

Lemma rebound_host c d w : host (rebound c d w) = host w.
Proof. destruct w as [s e]. destruct s. reflexivity. Qed.

(** What is left once channel [c] is torn down: none of its subscriptions
    and none of its timers; and from there on nothing of them comes back,
    whatever is created. *)
Lemma nothing_old_after_teardown c evs w part :
  core w -> Forall passive evs ->
  let bare := torn_down c (add_events evs w) in
  Forall (created_from (next_connection (host w)) (next_timer (host w))) part ->
  (forall a, In a (connected (part ++ log (host bare))) ->
     In a (obj_values (connections (js w)).[c]) -> False) /\
  (forall k, In k (running (part ++ log (host bare))) ->
     snd k = c -> (next_timer (host w) <= fst k)%nat).
Proof.
  intros H Fe bare F.
  assert (H0 : core (add_events evs w)) by (apply core_logged; assumption).
  assert (Hb : core bare) by (apply torn_down_core, H0).
  destruct (torn_down_counters c evs w) as (_ & _ & _ & _ & EL).
  fold bare in EL.
  destruct (replay_fresh _ _ part (log (host bare)) F) as [R1 R2].
  split.
  - intros a Ha Hold. destruct (core_connections _ H c a Hold) as [_ Hid].
    apply R1 in Ha as [Ha|Ha]; [|lia].
    rewrite (core_connected _ Hb), EL in Ha.
    apply without_connections_in in Ha as [_ Hno].
    apply Hno, in_map, Hold.
  - intros k Hk Hc. apply R2 in Hk as [Hk|Hk]; [|exact Hk].
    exfalso. rewrite (core_running _ Hb) in Hk.
    apply in_map_iff in Hk as (t & <- & Ht).
    assert (Hin : In t (timers_of c bare)).
    { apply filter_In. split; [exact Ht|]. apply channel_eqb_eq, Hc. }
    unfold bare in Hin. rewrite torn_down_no_timers in Hin by exact H0.
    exact Hin.
Qed.

(** While channel [c] is torn down, what is open or running was so before. *)
Lemma nothing_new_during_teardown w mid :
  core w -> Forall (fun e => ~ creates e) mid ->
  (forall b, In b (connected (mid ++ log (host w))) ->
     (conn_id b < next_connection (host w))%nat) /\
  (forall k, In k (running (mid ++ log (host w))) ->
     (fst k < next_timer (host w))%nat).
Proof.
  intros H F. destruct (replay_shrinks mid (log (host w)) F) as [R1 R2].
  split.
  - intros b Hb. apply R1 in Hb. rewrite (core_connected _ H) in Hb.
    apply (core_connections_fresh _ H), Hb.
  - intros k Hk. apply R2 in Hk. rewrite (core_running _ H) in Hk.
    apply in_map_iff in Hk as (t & <- & Ht).
    apply (core_timers_fresh _ H), Ht.
Qed.

(** C3. Teardown before rebuild.  A rebind of channel [c] first stops every
    timer of the channel and disconnects every subscription in its table,
    creating nothing on the way; when that is done the binding table still
    names the old deck, no timer of the channel runs and none of its
    subscriptions is open.  Only then is the binding table written and the
    channel connected to the next deck, and what this creates carries ids
    the host had not handed out before.  At every instant from the start of
    the rebind on, also through whatever the script handles afterwards, no
    subscription of the old binding is open together with one created since,
    and no timer of the channel from before runs together with one armed
    since. *)
Theorem teardown_before_rebuild c w :
  reachable w ->
  let old := channel_to_deck c w in
  let next := Z.rem (old + 2) 4 in
  let announced :=
    add_events [print ("Toggling deck from " ++ number_to_string old ++ " to "
                       ++ number_to_string next ++ ".")%string] w in
  let bare := torn_down c announced in
  let subscriptions := obj_values (connections (js w)).[c] in
  exists w' build,
    exec (toggle_deck_channel c) w = Some w' /\
    exec (connect_channel c) (rebound c next bare) = Some w' /\
    log (host w') = build ++ log (host bare) /\
    log (host bare) = teardown_events c announced ++ log (host announced) /\
    (* the teardown *)
    (forall t, In t (timers_of c w) ->
       In (engine_stopTimer (timer_no t)) (teardown_events c announced)) /\
    (forall conn, In conn subscriptions ->
       In (connection_disconnect conn) (teardown_events c announced)) /\
    (forall e, In e (teardown_events c announced) -> ~ creates e) /\
    (* the state it leaves *)
    channel_to_deck c bare = old /\
    timers_of c bare = [] /\
    (forall conn, In conn subscriptions ->
       ~ In conn (live_connections (host bare))) /\
    (* the build *)
    channel_to_deck c w' = next /\
    Forall (created_from (next_connection (host w)) (next_timer (host w)))
           build /\
    (* no instant has old and new together *)
    (forall l w'' later mid,
       run l w' = Some w'' ->
       log (host w'') = later ++ mid ++ log (host w) ->
       let instant := mid ++ log (host w) in
       (forall a b, In a (connected instant) -> In b (connected instant) ->
          In a subscriptions ->
          (next_connection (host w) <= conn_id b)%nat -> False) /\
       (forall a b, In a (running instant) -> In b (running instant) ->
          snd a = c -> snd b = c ->
          (fst a < next_timer (host w))%nat ->
          (next_timer (host w) <= fst b)%nat -> False)).
Proof.
  intros Hr old next announced bare subscriptions.
  pose proof (reachable_core w Hr) as H.
  pose (pr := [print ("Toggling deck from " ++ number_to_string old ++ " to "
                      ++ number_to_string next ++ ".")%string]).
  assert (Fe : Forall passive pr) by (constructor; [exact I | constructor]).
  assert (H0 : core announced) by (apply core_logged; assumption).
  destruct (torn_down_counters c pr w) as (NC & NT & EL & EM & ELC).
  change (torn_down c (add_events pr w)) with bare in NC, NT, EL, EM, ELC.
  change (add_events pr w) with announced in EL.
  pose proof (toggle_deck_channel_core c w H) as Hw.
  apply exec_wp in Hw as (w' & E & _ & Hc' & M1 & _).
  pose proof E as E'. apply exec_some in E' as [u E'].
  rewrite toggle_deck_channel_spec in E' by exact H.
  fold old next announced bare in E'.
  destruct (connect_channel_fresh c _ _ _ E') as (_ & _ & build & EB & FB).
  rewrite rebound_host in EB. rewrite !rebound_host, NC, NT in FB.
  destruct (teardown_stops_and_disconnects c announced H0) as [TS TD].
  exists w', build.
  split; [exact E|].
  split; [apply exec_some; eauto|].
  split; [exact EB|].
  split; [rewrite EL; destruct w as [s []]; reflexivity|].
  split; [intros t Ht; apply TS; destruct w as [s []]; exact Ht|].
  split; [intros conn Hc; apply TD; destruct w as [s []]; exact Hc|].
  split; [apply teardown_creates_nothing|].
  split; [unfold channel_to_deck; rewrite EM; reflexivity|].
  split; [apply torn_down_no_timers, H0|].
  split.
  { intros conn Hc Hin. rewrite ELC in Hin.
    apply without_connections_in in Hin as [_ Hno]. apply Hno, in_map, Hc. }
  split; [exact M1|].
  split; [exact FB|].
  intros l w'' later mid El Elog instant.
  destruct (run_fresh _ _ _ El) as (C1 & T1 & ext & EX & FX).
  assert (FA : Forall (created_from (next_connection (host w))
                                    (next_timer (host w))) (ext ++ build)).
  { apply Forall_app. split; [|exact FB].
    destruct (connect_channel_fresh c _ _ _ E') as (C0 & T0 & _).
    rewrite !rebound_host, NC in C0. rewrite !rebound_host, NT in T0.
    eapply Forall_impl; [|exact FX].
    intros [] He; simpl in *; auto; lia. }
  rewrite EX, EB, EL in Elog.
  assert (Elog' : later ++ mid
                  = (ext ++ build) ++ (teardown_events c announced ++ pr)).
  { apply (app_inv_tail (log (host w))).
    rewrite <- !app_assoc. rewrite <- ?app_assoc in Elog.
    symmetry. exact Elog. }
  clear Elog. rename Elog' into Elog. symmetry in Elog.
  apply app_eq_app in Elog as [part [[E1 E2]|[E1 E2]]].
  - (* the instant lies after it *)
    assert (Fp : Forall (created_from (next_connection (host w))
                                      (next_timer (host w))) part).
    { rewrite E1 in FA. apply Forall_app in FA. apply FA. }
    destruct (nothing_old_after_teardown c pr w part H Fe Fp) as [O1 O2].
    change (torn_down c (add_events pr w)) with bare in O1, O2.
    assert (Ei : instant = part ++ log (host bare)).
    { unfold instant. rewrite E2, EL, <- !app_assoc. reflexivity. }
    rewrite Ei. split.
    + intros a b Ha _ Hold _. exact (O1 a Ha Hold).
    + intros a b Ha _ Hc _ Hlt _. specialize (O2 a Ha Hc). lia.
  - (* the instant lies in the teardown *)
    assert (Fm : Forall (fun e => ~ creates e) mid).
    { assert (Ft : Forall (fun e => ~ creates e)
                     (teardown_events c announced ++ pr)).
      { apply Forall_app. split.
        - apply Forall_forall. apply teardown_creates_nothing.
        - constructor; [exact (fun x => x) | constructor]. }
      rewrite E2 in Ft. apply Forall_app in Ft. apply Ft. }
    destruct (nothing_new_during_teardown w mid H Fm) as [N1 N2].
    split.
    + intros a b _ Hb _ Hn. apply N1 in Hb. lia.
    + intros a b _ Hb _ _ _ Hn. apply N2 in Hb. lia.
Qed.

Lemma teardown_before_rebuild_witness :
  List.length (timers_of Ch0 (after loop_on_deck0)) = 1%nat /\
  exists w',
    exec (toggle_deck_channel Ch0) (after loop_on_deck0) = Some w' /\
    channel_to_deck Ch0 w'
    = Z.rem (channel_to_deck Ch0 (after loop_on_deck0) + 2) 4.
Proof.
  split; [vm_compute; reflexivity|].
  destruct (teardown_before_rebuild Ch0 _ reachable_loop_on_deck0)
    as (w' & build & E & _ & _ & _ & _ & _ & _ & _ & _ & _ & M & _).
  exists w'. split; [exact E | exact M].
Defined.

(** ** Stretches of a run confined to some keys, LEDs and observers *)

#[export] Instance confined_preorder K A F : PreOrder (confined K A F).
Proof.
  split.
  - intros w. unfold confined. repeat split; auto.
    exists []. split; [reflexivity | constructor].
  - intros w1 w2 w3 (M1 & C1 & T1 & L1 & N1 & evs1 & E1 & F1)
                    (M2 & C2 & T2 & L2 & N2 & evs2 & E2 & F2).
    unfold confined. split; [congruence|]. split; [congruence|].
    split; [intros c k Hk; rewrite T2, T1; auto|].
    split; [auto|]. split; [lia|].
    exists (evs2 ++ evs1). split.
    + rewrite E2, E1, app_assoc. reflexivity.
    + apply Forall_app. split; assumption.
Qed.

Lemma confined_mono (K K' : string -> Prop) (A A' : Z * Z -> Prop)
  (F F' : callback -> Prop) w w' :
  (forall k, K k -> K' k) -> (forall a, A a -> A' a) ->
  (forall f, F f -> F' f) ->
  confined K A F w w' -> confined K' A' F' w w'.
Proof.
  intros HK HA HF (M1 & C1 & T1 & L1 & N1 & evs1 & E1 & F1).
  unfold confined. repeat (split; [assumption|]).
  split; [intros c k Hk; apply T1; auto|].
  repeat (split; [assumption|]).
  exists evs1. split; [assumption|].
  eapply Forall_impl; [|exact F1].
  intros [] He; simpl in *; auto.
Qed.

Lemma respects_mono {B} (R R' : world -> world -> Prop) (m : M B) :
  (forall w w', R w w' -> R' w w') -> respects R m -> respects R' m.
Proof. intros H Hm w a w' E. apply H. eapply Hm, E. Qed.

Lemma respects_bind_makeConnection {B} R `{!PreOrder R} g ctl f
  (k : connection -> M B) :
  respects R (makeConnection g ctl f) ->
  (forall n, respects R (k (Connection n g ctl f))) ->
  respects R (bind (makeConnection g ctl f) k).
Proof.
  intros Hm Hk w b w' E. apply bind_some in E as (a & w1 & E1 & E2).
  transitivity w1; [eapply Hm; eauto|].
  assert (Ea : a = Connection (conn_id a) g ctl f).
  { destruct w as [s e]. destruct s, e. cbn in E1. injection E1 as <- _.
    reflexivity. }
  rewrite Ea in E2. eapply Hk; eauto.
Qed.

Lemma makeConnection_confined K A F g ctl f :
  respects (confined K A F) (makeConnection g ctl f).
Proof.
  intros w a w' E. destruct w as [s e]. destruct s, e.
  cbn in E. injection E as <- <-. unfold confined. cbn.
  split; [reflexivity|]. split; [reflexivity|].
  split; [intros; reflexivity|].
  split; [intros x Hx; apply in_app_iff; auto|].
  split; [lia|].
  eexists [_]. split; [reflexivity|]. constructor; [exact I | constructor].
Qed.

Lemma set_connection_confined (K : string -> Prop) A F c key v :
  K key -> respects (confined K A F) (set_connection c key v).
Proof.
  intros HK w a w' E. destruct w as [s e]. destruct s, e.
  cbn in E. injection E as _ <-. unfold confined. cbn.
  split; [reflexivity|]. split; [reflexivity|].
  split.
  { intros c0 k Hk.
    assert (key <> k) by (intros ->; contradiction).
    destruct c, c0; cbn; auto; apply obj_get_set_other; assumption. }
  split; [auto|]. split; [lia|].
  exists []. split; [reflexivity | constructor].
Qed.

Ltac address_leaf :=
  first
    [ exact I
    | reflexivity
    | repeat match goal with c : channel |- _ => destruct c end;
      cbn; repeat first [left; reflexivity | right] ].

Ltac confined_leaf :=
  idtac;
  match goal with
  | |- confined _ _ _ ?w _ =>
      let s := fresh "s" in
      let e := fresh "e" in
      destruct w as [s e]; destruct s, e; unfold confined; cbn;
      split; [reflexivity|]; split; [reflexivity|];
      split; [intros; reflexivity|];
      split; [intros ? ?; assumption|];
      split; [lia|];
      first [ exists []; split; [reflexivity | constructor]
            | eexists [_]; split;
              [reflexivity | constructor; [cbn; address_leaf | constructor]] ]
  end.

Ltac confined_walk key :=
  repeat lazymatch goal with
  | |- forall _, _ => intro
  | |- PreOrder _ => exact _
  | |- respects _ (bind (makeConnection _ _ _) _) =>
      apply respects_bind_makeConnection
  | |- respects _ (makeConnection _ _ _) => apply makeConnection_confined
  | |- respects _ (set_connection _ _ _) =>
      apply set_connection_confined; key
  | |- respects _ (bind _ _) => apply respects_bind
  | |- respects _ (ret _) => apply respects_ret
  | |- respects _ (gets _) => apply respects_gets
  | |- respects _ throw => apply respects_throw
  | |- respects _ (deck_cell _) => apply respects_reads, reads_deck_cell
  | |- respects _ (for_each _ _) => apply respects_for_each
  | |- respects _ (modify _) => apply respects_modify; intro; confined_leaf
  | |- respects _ (if ?b then _ else _) => destruct b
  | |- respects _ (match ?x with _ => _ end) => destruct x
  | |- respects _ (let _ := _ in _) => cbv zeta
  | |- respects _ ?m => let h := head_of m in unfold h
  end.

(** An observer sends MIDI to its own LEDs only. *)
Lemma run_callback_confined f v g :
  f <> cb_update_sampler ->
  respects (confined (fun _ => False) (fun a => In a (footprint f))
                     (fun _ => False))
           (run_callback f v g).
Proof.
  intros Hf. destruct f; try contradiction; confined_walk idtac.
Qed.

Lemma respects_for_each_in {B} R `{!PreOrder R} (l : list B)
  (body : B -> M unit) :
  (forall x, In x l -> respects R (body x)) -> respects R (for_each l body).
Proof.
  induction l as [|x l IH]; intros Hbody; simpl.
  - apply respects_ret; exact _.
  - apply respects_bind; try exact _.
    + apply Hbody; left; reflexivity.
    + intros _. apply IH. intros y Hy. apply Hbody. right. exact Hy.
Qed.

Lemma respects_bind_deck_samplers {B} R `{!PreOrder R} d
  (k : list string -> M B) :
  (forall l, In l constants.sampler_groups -> respects R (k l)) ->
  respects R (bind (deck_samplers_of d) k).
Proof.
  intros Hk w b w' E. apply bind_some in E as (l & w1 & E1 & E2).
  unfold deck_samplers_of in E1.
  destruct (lookupZ constants.sampler_groups d) as [l'|] eqn:El;
    [|discriminate].
  injection E1 as <- <-. eapply Hk; [|exact E2].
  unfold lookupZ in El. destruct (d <? 0); [discriminate|].
  eapply nth_error_In, El.
Qed.

Lemma update_sampler_confined v g :
  respects (confined (fun _ => False)
                     (fun a => In a (footprint cb_update_sampler))
                     (fun _ => False))
           (update_sampler v g).
Proof.
  unfold update_sampler.
  apply respects_bind; try exact _; [apply respects_gets; exact _|]. intros n.
  apply respects_for_each; try exact _. intros d.
  apply respects_bind; try exact _; [apply respects_gets; exact _|].
  intros active.
  destruct (negb active); [apply respects_ret; exact _|].
  apply respects_bind; try exact _; [confined_walk idtac|]. intros c.
  apply respects_bind_deck_samplers; try exact _. intros l Hl.
  apply respects_for_each_in; try exact _. intros [padnum name] Hin.
  cbn in Hl.
  destruct Hl as [<-|[<-|[<-|[<-|[]]]]]; cbn in Hin;
    repeat (destruct Hin as [Hin|Hin];
            [injection Hin as <- <-; confined_walk idtac|]);
    contradiction.
Qed.

(** ** One entry of the table of outputs *)

Lemma connect_one_confined c g ctl f (trig : bool) :
  f <> cb_update_sampler ->
  respects (confined (fun k => k = ctl) (fun a => In a (footprint f))
                     (fun f' => f' = f))
    (conn <- makeConnection g ctl f ;;
     set_connection c ctl conn ;;
     if trig then trigger conn else ret tt).
Proof.
  intros Hf.
  apply respects_bind_makeConnection; try exact _;
    [apply makeConnection_confined|].
  intros n. apply respects_bind; try exact _;
    [apply set_connection_confined; reflexivity|].
  intros _. destruct trig; [|apply respects_ret; exact _].
  unfold trigger. apply respects_bind; try exact _; [confined_walk idtac|].
  intros _. apply respects_bind; try exact _; [apply respects_gets; exact _|].
  intros v. cbn [conn_fun conn_group].
  eapply respects_mono; [|apply run_callback_confined, Hf].
  intros w w'. apply confined_mono; tauto.
Qed.


(** ** What follows the table: samplers, deck indicator, effect light *)

Lemma not_in_keys (k : string) (keys : list string) :
  (if in_dec string_dec k keys then false else true) = true -> ~ In k keys.
Proof. destruct (in_dec string_dec k keys); [discriminate | auto]. Qed.

Lemma connect_samplers_confined c :
  respects (confined (fun k => ~ In k (map fst output_control_to_function))
                     (fun a => In a (footprint cb_update_sampler))
                     (fun f => f = cb_update_sampler))
           (connect_samplers c).
Proof.
  unfold connect_samplers.
  apply respects_bind; try exact _; [apply respects_gets; exact _|].
  intros d.
  apply respects_bind_deck_samplers; try exact _. intros l Hl.
  apply respects_for_each_in; try exact _. intros [padnum name] Hin.
  cbv zeta.
  apply respects_bind_makeConnection; try exact _;
    [apply makeConnection_confined|].
  intros n. apply respects_bind; try exact _.
  - apply set_connection_confined.
    cbn in Hl.
    destruct Hl as [<-|[<-|[<-|[<-|[]]]]]; cbn in Hin;
      repeat (destruct Hin as [Hin|Hin];
              [injection Hin as <- <-; apply not_in_keys; reflexivity|]);
      contradiction.
  - intros _. unfold trigger.
    apply respects_bind; try exact _; [confined_walk idtac|].
    intros _. apply respects_bind; try exact _; [apply respects_gets; exact _|].
    intros v. cbn [conn_fun conn_group run_callback].
    eapply respects_mono; [|apply update_sampler_confined].
    intros w w'. apply confined_mono; tauto.
Qed.

Lemma rest_confined c :
  respects (confined (fun k => ~ In k (map fst output_control_to_function))
                     (fun a => In a (footprint cb_update_sampler
                                     ++ pad_addresses constants.pad_modes.beat_jump 0 true
                                     ++ footprint cb_update_fx_light))
                     (fun f => f = cb_update_sampler))
           (connect_samplers c ;; update_deck_channel_indicator c ;;
            update_fx_light).
Proof.
  apply respects_bind; try exact _.
  { eapply respects_mono; [|apply connect_samplers_confined].
    intros w w'. apply confined_mono; auto.
    intros a Ha. apply in_app_iff. auto. }
  intros _. apply respects_bind; try exact _.
  { eapply respects_mono;
      [|apply (respects_mono
                 (confined (fun _ => False)
                    (fun a => In a (pad_addresses constants.pad_modes.beat_jump 0 true))
                    (fun _ => False)))].
    - intros w w' H. exact H.
    - intros w w'. apply confined_mono; try tauto.
      intros a Ha. apply in_app_iff. right. apply in_app_iff. auto.
    - confined_walk idtac. }
  intros _.
  eapply respects_mono; [|apply (run_callback_confined cb_update_fx_light 0 "")].
  - intros w w'. apply confined_mono; try tauto.
    intros a Ha. apply in_app_iff. right. apply in_app_iff. auto.
  - discriminate.
Qed.


(** ** Observers that only look at the binding *)

Lemma run_plain f v g w :
  plain f = true ->
  run_callback f v g w
  = Some (tt, add_events (sends f v g (channel_mapping (js w))) w).
Proof.
  intros Hf. destruct w as [s e]. destruct s as [m cs ts cc dk pc ls], e.
  destruct m as [m0 m1].
  destruct f; try discriminate;
    cbv -[group_to_deck Z.add Z.mul Z.eqb Z.ltb truthy number_to_string append];
    repeat match goal with
           | |- context [Z.eqb ?a ?b] => destruct (Z.eqb a b)
           end; reflexivity.
Qed.

(** Each of their messages is the last word on its LED. *)
Lemma sends_shown f v g m l :
  plain f = true -> Forall (shown (sends f v g m ++ l)) (sends f v g m).
Proof.
  intros Hf. destruct m as [m0 m1].
  destruct f; try discriminate;
    cbv -[group_to_deck Z.add Z.mul Z.eqb Z.ltb truthy number_to_string append
          led shown app];
    repeat match goal with
           | |- context [Z.eqb ?a (group_to_deck g)] =>
               destruct (Z.eqb a (group_to_deck g))
           end; cbn [app];
    repeat constructor; cbn; rewrite ?Z.eqb_refl; reflexivity.
Qed.


(** ** LEDs *)

Lemma led_resend l evs :
  Forall (shown l) evs ->
  forall st d1, led (evs ++ l) st d1 = led l st d1.
Proof.
  induction 1 as [|e evs He _ IH]; intros st d1; [reflexivity|].
  destruct e; simpl; auto.
  destruct ((st0 =? st) && (d0 =? d1)) eqn:E; auto.
  apply andb_true_iff in E as [E1 E2].
  apply Z.eqb_eq in E1, E2. subst. simpl in He. congruence.
Qed.



(** ** The loop observer *)


(** On a world split into its fields, with the binding and the four deck
    cells known, a command is run by evaluation, deciding what is left open
    case by case. *)
Ltac split_world w H :=
  let M0 := fresh "M0" in
  let M1 := fresh "M1" in
  let Hd := fresh "Hd" in
  pose proof (core_mapping0 _ H) as M0; pose proof (core_mapping1 _ H) as M1;
  pose proof (core_decks _ H) as Hd;
  destruct w as [[[m0 m1] cs [t0 t1] [[sb0 sd0 st0 bs0 cm0] [sb1 sd1 st1 bs1 cm1]]
                  dk pc ls] [ctrls lcs lts nc nt lg]];
  unfold channel_to_group, channel_to_deck in *; cbn in M0, M1, Hd;
  destruct dk as [|x0 [|x1 [|x2 [|x3 [|]]]]]; try discriminate; clear Hd;
  destruct M0 as [-> | ->], M1 as [-> | ->].

Ltac run_in E Ht :=
  repeat (cbv -[obj_get obj_set truthy led] in E;
          first [ rewrite Ht in E
                | match type of E with
                  | context [truthy ?x] => destruct (truthy x) eqn:?
                  | context [match ?x with Some _ => _ | None => _ end] =>
                      is_var x; destruct x as [[|?|?]|]
                  end ]).








(** ** The table of outputs, entry against entry *)

Lemma disjointb_spec a b x :
  disjointb a b = true -> In x a -> ~ In x b.
Proof.
  unfold disjointb. rewrite forallb_forall. intros H Ha Hb.
  specialize (H x Ha). apply negb_true_iff in H.
  assert (E : existsb (fun y => (fst x =? fst y) && (snd x =? snd y)) b = true).
  { apply existsb_exists. exists x. split; [exact Hb|].
    rewrite !Z.eqb_refl. reflexivity. }
  congruence.
Qed.



Lemma table_against_rest :
  forallb (fun y =>
             (if callback_eq_dec (fst (snd y)) cb_update_sampler
              then false else true)
             && (plain (fst (snd y))
                 || if callback_eq_dec (fst (snd y)) cb_set_loop_enabled
                    then true else false)
             && disjointb (footprint cb_update_sampler
                           ++ pad_addresses constants.pad_modes.beat_jump 0 true
                           ++ footprint cb_update_fx_light)
                          (footprint (fst (snd y))))
          output_control_to_function = true.
Proof. vm_compute. reflexivity. Qed.

(** ** Connecting one output *)






Lemma table_entry ctl f trig :
  In (ctl, (f, trig)) output_control_to_function ->
  f <> cb_update_sampler /\
  (plain f = true \/ f = cb_set_loop_enabled) /\
  forall a,
    In a (footprint cb_update_sampler
          ++ pad_addresses constants.pad_modes.beat_jump 0 true
          ++ footprint cb_update_fx_light) ->
    ~ In a (footprint f).
Proof.
  intros Hin. pose proof table_against_rest as H.
  rewrite forallb_forall in H. specialize (H _ Hin). cbn [fst snd] in H.
  apply andb_true_iff in H as [H H3]. apply andb_true_iff in H as [H1 H2].
  split; [|split].
  - destruct (callback_eq_dec f cb_update_sampler); [discriminate | assumption].
  - apply orb_true_iff in H2 as [H2|H2]; [left; exact H2|].
    destruct (callback_eq_dec f cb_set_loop_enabled); [right; assumption | discriminate].
  - intros a. apply disjointb_spec, H3.
Qed.








Lemma add_events_log evs w : log (host (add_events evs w)) = evs ++ log (host w).
Proof. destruct w as [s []]. reflexivity. Qed.




(** ** A rebind resynchronises the channel *)








(** * Further properties of the script *)

(** ** Groups, decks and channels *)

Lemma number_to_string_inj a b :
  number_to_string a = number_to_string b -> a = b.
Proof.
  unfold number_to_string. intros E.
  assert (Hn : forall z, Z.to_int z <> Decimal.Pos Decimal.Nil /\
                         Z.to_int z <> Decimal.Neg Decimal.Nil).
  { intros [|p|p]; simpl; split; try discriminate;
      intros [= H]; exact (DecimalPos.Unsigned.to_uint_nonnil p H). }
  apply DecimalZ.to_int_inj.
  assert (Ea : Some (Z.to_int a) = Some (Z.to_int b)).
  { rewrite <- (NilZero.isi (Z.to_int a)), <- (NilZero.isi (Z.to_int b));
      try apply Hn. rewrite E. reflexivity. }
  congruence.
Qed.

(** X1. [deck_to_group] and [group_to_deck] are inverse to each other on the
    four decks; a deck outside them has a group name [group_to_deck] does not
    know, and every name it does not know is taken for deck 0. *)
Theorem group_deck_round_trip :
  (forall d, 0 <= d < 4 -> group_to_deck (deck_to_group d) = d) /\
  (forall d, ~ 0 <= d < 4 -> group_to_deck (deck_to_group d) = 0) /\
  (forall g, group_to_deck g <> 0 -> deck_to_group (group_to_deck g) = g).
Proof.
  split; [|split].
  - intros d Hd.
    assert (E : d = 0 \/ d = 1 \/ d = 2 \/ d = 3) by lia.
    destruct E as [->|[->|[->| ->]]]; reflexivity.
  - intros d Hd. unfold group_to_deck, deck_to_group.
    assert (Hs : forall k, 1 <= k <= 4 ->
              ("[Channel" ++ number_to_string (d + 1) ++ "]"
               =? "[Channel" ++ number_to_string k ++ "]")%string = false).
    { intros k Hk. apply String.eqb_neq. intros E.
      cbn [append] in E. injection E as E.
      assert (En : number_to_string (d + 1) = number_to_string k).
      { revert E. generalize (number_to_string (d + 1)) (number_to_string k).
        induction s as [|a s IH]; intros [|b t]; simpl; intros E;
          try reflexivity.
        - destruct t; discriminate.
        - injection E as _ E. destruct s; discriminate.
        - injection E as -> E. f_equal. apply IH, E. }
      apply number_to_string_inj in En. lia. }
    pose proof (Hs 1) as H1. pose proof (Hs 2) as H2.
    pose proof (Hs 3) as H3. pose proof (Hs 4) as H4.
    change ("[Channel" ++ number_to_string 1 ++ "]")%string
      with "[Channel1]" in H1.
    change ("[Channel" ++ number_to_string 2 ++ "]")%string
      with "[Channel2]" in H2.
    change ("[Channel" ++ number_to_string 3 ++ "]")%string
      with "[Channel3]" in H3.
    change ("[Channel" ++ number_to_string 4 ++ "]")%string
      with "[Channel4]" in H4.
    rewrite H1, H2, H3, H4 by lia. reflexivity.
  - intros g. unfold group_to_deck.
    destruct (String.eqb_spec g "[Channel1]") as [->|_]; [intros []; reflexivity|].
    destruct (String.eqb_spec g "[Channel2]") as [->|_]; [reflexivity|].
    destruct (String.eqb_spec g "[Channel3]") as [->|_]; [reflexivity|].
    destruct (String.eqb_spec g "[Channel4]") as [->|_]; [reflexivity|].
    intros []. reflexivity.
Qed.

Lemma group_deck_round_trip_witness :
  group_to_deck (deck_to_group 2) = 2 /\
  group_to_deck (deck_to_group 7) = 0 /\
  deck_to_group (group_to_deck "[Channel4]") = "[Channel4]".
Proof.
  destruct group_deck_round_trip as (A & B & C).
  split; [apply A; lia | split; [apply B; lia | apply C; discriminate]].
Defined.

(** X2. In every state of a run [deck_to_channel] undoes [channel_to_deck]
    without a warning; a deck that is bound is found on a channel bound to
    it, and a deck that is not bound is reported with a warning and taken
    for channel 0. *)
Theorem deck_channel_round_trip w :
  reachable w ->
  (forall c, deck_to_channel (channel_to_deck c w) w = Some (c, w)) /\
  (forall d, is_deck_active d w = true ->
     exists c, deck_to_channel d w = Some (c, w) /\ channel_to_deck c w = d) /\
  (forall d, is_deck_active d w = false ->
     deck_to_channel d w
     = Some (Ch0, add_events
                    [print ("Warning: called deck_to_channel("
                            ++ number_to_string d
                            ++ ") but deck not active?!")%string] w)).
Proof.
  intros Hr. apply reachable_core in Hr.
  pose proof (core_mapping0 _ Hr) as H0. pose proof (core_mapping1 _ Hr) as H1.
  destruct w as [s e]. unfold channel_to_deck, is_deck_active in *.
  cbn [js] in *. unfold deck_to_channel, bind, gets. cbn [js].
  split; [|split].
  - intros [|]; cbn [at_channel] in *.
    + rewrite Z.eqb_refl. reflexivity.
    + replace (cell0 (channel_mapping s) =? cell1 (channel_mapping s))
        with false by (symmetry; apply Z.eqb_neq; lia).
      rewrite Z.eqb_refl. reflexivity.
  - intros d Hd. cbn [at_channel] in *.
    destruct (cell0 (channel_mapping s) =? d) eqn:E0.
    + exists Ch0. split; [reflexivity|]. apply Z.eqb_eq, E0.
    + cbn in Hd. rewrite Hd. exists Ch1. split; [reflexivity|].
      apply Z.eqb_eq, Hd.
  - intros d Hd. cbn [at_channel] in *.
    apply orb_false_iff in Hd. destruct Hd as [-> ->].
    destruct e; reflexivity.
Qed.

Lemma deck_channel_round_trip_witness :
  deck_to_channel (channel_to_deck Ch1 (after double_press_ch0))
                  (after double_press_ch0)
  = Some (Ch1, after double_press_ch0).
Proof.
  exact (proj1 (deck_channel_round_trip (after double_press_ch0)
                  reachable_double_press) Ch1).
Defined.

(** X3. Switching a channel to its other deck twice brings the first binding
    back: the first switch changes the deck of the channel, the second one
    restores both cells of [channel_mapping]. *)
Theorem toggle_twice_restores_binding w c :
  reachable w ->
  exists w1 w2,
    exec (toggle_deck_channel c) w = Some w1 /\
    exec (toggle_deck_channel c) w1 = Some w2 /\
    channel_to_deck c w1 <> channel_to_deck c w /\
    channel_mapping (js w2) = channel_mapping (js w).
Proof.
  intros Hr. apply reachable_core in Hr.
  destruct (toggle_deck_channel_result c w Hr)
    as (w1 & E1 & C1 & _ & M1 & O1 & _).
  destruct (toggle_deck_channel_result c w1 C1)
    as (w2 & E2 & _ & _ & M2 & O2 & _).
  exists w1, w2. split; [exact E1|]. split; [exact E2|].
  pose proof (core_mapping_range w c Hr) as R.
  assert (D : Z.rem (channel_to_deck c w + 2) 4 <> channel_to_deck c w
              /\ Z.rem (Z.rem (channel_to_deck c w + 2) 4 + 2) 4
                 = channel_to_deck c w).
  { assert (E : channel_to_deck c w = 0 \/ channel_to_deck c w = 1 \/
                channel_to_deck c w = 2 \/ channel_to_deck c w = 3) by lia.
    destruct E as [->|[->|[->| ->]]]; split; (discriminate || reflexivity). }
  destruct D as [D1 D2]. split; [rewrite M1; exact D1|].
  rewrite M1, D2 in M2. rewrite O1 in O2.
  unfold channel_to_deck in M2, O2.
  destruct (channel_mapping (js w2)) as [a b], (channel_mapping (js w)) as [a' b'].
  destruct c; cbn in M2, O2; congruence.
Qed.

Lemma toggle_twice_restores_binding_witness :
  exists w1 w2,
    exec (toggle_deck_channel Ch1) started = Some w1 /\
    exec (toggle_deck_channel Ch1) w1 = Some w2 /\
    channel_to_deck Ch1 w1 <> channel_to_deck Ch1 started /\
    channel_mapping (js w2) = channel_mapping (js started).
Proof.
  exact (toggle_twice_restores_binding started Ch1 reachable_started).
Defined.

(** X4. On a host with one or two decks a channel whose deck exists has no
    other deck to go to: [toggle_deck_channel] prints its notice and leaves
    everything else as it was. *)
Theorem toggle_needs_four_decks w c :
  0 < get_num_decks w <= 2 ->
  0 <= channel_to_deck c w < get_num_decks w ->
  toggle_deck_channel c w
  = Some (tt, add_events
                [print "Would toggle deck but next deck is identical (turn on 4 deck mode)."]
                w).
Proof.
  intros Hn Hd. unfold toggle_deck_channel, bind at 1, gets.
  unfold bind at 1. rewrite interp_next_deck by lia.
  assert (E : Z.rem (channel_to_deck c w + 2) (get_num_decks w)
              = channel_to_deck c w).
  { assert (En : get_num_decks w = 1 \/ get_num_decks w = 2) by lia.
    destruct En as [En|En]; rewrite En in *.
    - replace (channel_to_deck c w) with 0 by lia. reflexivity.
    - assert (Ed : channel_to_deck c w = 0 \/ channel_to_deck c w = 1) by lia.
      destruct Ed as [-> | ->]; reflexivity. }
  rewrite E, Z.eqb_refl. destruct w as [s e]. destruct e. reflexivity.
Qed.

Lemma toggle_needs_four_decks_witness :
  toggle_deck_channel Ch1 (World initial_state two_deck_host)
  = Some (tt, add_events
                [print "Would toggle deck but next deck is identical (turn on 4 deck mode)."]
                (World initial_state two_deck_host)).
Proof.
  apply (toggle_needs_four_decks (World initial_state two_deck_host) Ch1);
    vm_compute; split; congruence.
Defined.

(** ** The loop lights *)

(** X5. While a loop is active, computing the loop lights a second time
    changes nothing: the blink timer that runs is kept, none is started or
    stopped, and no message is sent. *)
Theorem loop_lights_settle c w w1 :
  truthy (get_loop_active (channel_to_group c w) w) = true ->
  exec (update_loop_inout_lights c) w = Some w1 ->
  update_loop_inout_lights c w1 = Some (tt, w1).
Proof.
  intros Ha E. apply exec_some in E. destruct E as [[] E].
  destruct w as [[m cs ts cc dk pc ls] [ctrls lcs lts nc nt lg]].
  unfold update_loop_inout_lights in *.
  unfold get_loop_active, channel_to_group, channel_to_deck, engine_getValue in *.
  cbn [js host channel_mapping controls] in *.
  destruct c; cbn [at_channel cell0 cell1] in *;
  destruct m as [m0 m1]; destruct ts as [t0 t1];
  destruct cc as [[a1 a2 a3 a4 cur0] [b1 b2 b3 b4 cur1]];
  cbn [at_channel cell0 cell1] in *;
  cbv -[obj_get obj_set lookupZ truthy deck_to_group Z.eqb] in E;
  rewrite Ha in E;
  cbv -[obj_get obj_set lookupZ truthy deck_to_group Z.eqb] in E.
  all: destruct (lookupZ dk _) as [[[s|] eu]|] eqn:El; [| |discriminate E].
  all: cbv -[obj_get obj_set lookupZ truthy deck_to_group Z.eqb] in E.
  all: try change (0 =? 1) with false in E; try change (0 =? 2) with false in E.
  all: repeat match type of E with
       | context [?s =? ?k] => is_var s; destruct (s =? k) eqn:?
       | context [match ?x with Some _ => _ | None => _ end] =>
           is_var x; destruct x
       | context [obj_get ?t ?k] =>
           is_var t; destruct (obj_get t k) eqn:?
       end.
  all: cbv -[obj_get obj_set lookupZ truthy deck_to_group Z.eqb] in E.
  all: injection E as <-.
  all: cbv -[obj_get obj_set lookupZ truthy deck_to_group Z.eqb].
  all: rewrite ?Ha.
  all: cbv -[obj_get obj_set lookupZ truthy deck_to_group Z.eqb].
  all: rewrite ?El.
  all: cbv -[obj_get obj_set lookupZ truthy deck_to_group Z.eqb].
  all: repeat (repeat match goal with
               | H : ?x = _ |- context [?x] => rewrite H
               end;
               rewrite ?obj_get_set_same, ?Z.eqb_refl;
               cbv -[obj_get obj_set lookupZ truthy deck_to_group Z.eqb]).
  all: reflexivity.
Qed.

Lemma loop_lights_settle_witness :
  let w := World initial_state
             (with_controls (fun _ c => if String.eqb c "loop_enabled"
                                        then 1 else 0) quiet_host) in
  exists w1, exec (update_loop_inout_lights Ch0) w = Some w1 /\
    log (host w1) <> log (host w) /\
    update_loop_inout_lights Ch0 w1 = Some (tt, w1).
Proof.
  intros w. eexists. split; [vm_compute; reflexivity|].
  split; [vm_compute; discriminate|].
  apply (loop_lights_settle Ch0 w); vm_compute; reflexivity.
Defined.

Lemma core_controls f w :
  core w -> f "[Master]" "num_decks" = 4 -> core (on_host (with_controls f) w).
Proof.
  intros H Hf. destruct H. destruct w as [s e]. destruct s, e.
  unfold get_num_decks, engine_getValue, channel_to_deck, channel_cell in *.
  cbn in *. constructor; cbn; auto.
Qed.

(** X6. When the host's controls have changed so that the loop of the deck
    bound to a channel is off, the observer of [loop_enabled] leaves no
    blink timer running for that channel, whatever was running before; it
    puts the deck's loop adjust state back to none, lights the four loop
    in and out LEDs and sets the reloop LEDs by the value it was called
    with. *)
Theorem loop_end_stops_blinking w0 f c v :
  reachable w0 -> f "[Master]" "num_decks" = 4 ->
  let w := on_host (with_controls f) w0 in
  truthy (get_loop_active (channel_to_group c w) w) = false ->
  exists w', exec (set_loop_enabled v (channel_to_group c w)) w = Some w' /\
    timers_of c w' = [] /\
    get_loop_adjust_state (channel_to_deck c w) w'
    = Some (constants.loop_modifiers.none, w') /\
    (forall m, In m [constants.lights.loop_in; constants.lights.loop_out;
                     constants.lights.shift_loop_in;
                     constants.lights.shift_loop_out] ->
       led (log (host w')) (status m + channel_index c) (data1 m) = Some 0x7F) /\
    (forall m, In m [constants.lights.reloop; constants.lights.shift_reloop] ->
       led (log (host w')) (status m + channel_index c) (data1 m)
       = Some (if truthy v then 0x7F else 0)).
Proof.
  intros Hr Hf w Ha.
  pose proof (core_controls f w0 (reachable_core w0 Hr) Hf) as H.
  fold w in H. clearbody w. clear Hr Hf.
  destruct (exec_wp _ _ _ (set_loop_enabled_core v (channel_to_group c w) w H))
    as (w' & E & _ & H').
  exists w'. split; [exact E|].
  assert (Ht : obj_get (timers (js w')).[c] timer_id = None /\
    get_loop_adjust_state (channel_to_deck c w) w'
    = Some (constants.loop_modifiers.none, w') /\
    (forall m, In m [constants.lights.loop_in; constants.lights.loop_out;
                     constants.lights.shift_loop_in;
                     constants.lights.shift_loop_out] ->
       led (log (host w')) (status m + channel_index c) (data1 m) = Some 0x7F) /\
    (forall m, In m [constants.lights.reloop; constants.lights.shift_reloop] ->
       led (log (host w')) (status m + channel_index c) (data1 m)
       = Some (if truthy v then 0x7F else 0))).
  { clear H'. apply exec_some in E. destruct E as [u E].
    unfold get_loop_active, engine_getValue in Ha.
    split_world w H; destruct c; cbn in Ha; run_in E Ha.
    all: repeat match type of E with
         | context [obj_get ?t ?k] => is_var t; destruct (obj_get t k) eqn:?
         end.
    all: cbv -[obj_get obj_set truthy led] in E.
    all: injection E as _ <-; clear H.
    all: cbv -[obj_get obj_set truthy led In].
    all: rewrite ?obj_get_set_same.
    all: repeat split; try reflexivity; try assumption.
    all: intros; cbn [In] in *;
      repeat match goal with
             | Hm : _ \/ _ |- _ => destruct Hm as [<-|Hm]
             | Hm : False |- _ => contradiction
             end; reflexivity. }
  destruct Ht as (Ht & Hrest). split; [|exact Hrest].
  apply no_timer_without_entry; assumption.
Qed.

Lemma loop_end_stops_blinking_witness :
  timers_of Ch0 (after loop_on_deck0) <> [] /\
  let w := on_host (with_controls (controls quiet_host)) (after loop_on_deck0) in
  exists w', exec (set_loop_enabled 0 (channel_to_group Ch0 w)) w = Some w' /\
    timers_of Ch0 w' = [] /\
    get_loop_adjust_state (channel_to_deck Ch0 w) w'
    = Some (constants.loop_modifiers.none, w') /\
    (forall m, In m [constants.lights.loop_in; constants.lights.loop_out;
                     constants.lights.shift_loop_in;
                     constants.lights.shift_loop_out] ->
       led (log (host w')) (status m + channel_index Ch0) (data1 m) = Some 0x7F) /\
    (forall m, In m [constants.lights.reloop; constants.lights.shift_reloop] ->
       led (log (host w')) (status m + channel_index Ch0) (data1 m)
       = Some (if truthy 0 then 0x7F else 0)).
Proof.
  split; [vm_compute; discriminate|].
  apply (loop_end_stops_blinking (after loop_on_deck0) (controls quiet_host)
           Ch0 0 reachable_loop_on_deck0); vm_compute; reflexivity.
Defined.

(** ** Start and end of the script *)

Lemma js_range_cons a b : a < b -> js_range a b = a :: js_range (a + 1) b.
Proof.
  intros H. unfold js_range.
  replace (Z.to_nat (b - a)) with (S (Z.to_nat (b - (a + 1)))) by lia.
  cbn [seq map]. f_equal; [lia|].
  rewrite <- seq_shift, map_map. apply map_ext. intros i. lia.
Qed.

(** X7. [init] writes the default effect unit into [state.deck[deck]] for
    every deck the host reports, and [state.deck] has four cells: on a host
    that reports more than four decks [init] throws. *)
Theorem init_needs_at_most_four_decks e :
  4 < controls e "[Master]" "num_decks" ->
  init (World initial_state e) = None.
Proof.
  intros Hn. destruct e as [ctrls lcs lts nc nt lg]. cbn [controls] in Hn.
  unfold init.
  unfold bind at 1.
  change (track_loaded_animation 1 "0" ?w)
    with (Some (tt, add_events [midi_sendShortMsg 0x9F 0 0x7F] w)).
  cbv iota beta. unfold bind at 1.
  change (track_loaded_animation 1 "1" ?w)
    with (Some (tt, add_events [midi_sendShortMsg 0x9F 0 0x7F] w)).
  cbv iota beta. unfold bind at 1, gets at 1. cbv iota beta.
  change (get_num_decks _) with (ctrls "[Master]" "num_decks").
  rewrite (js_range_cons 0), (js_range_cons (0 + 1)),
    (js_range_cons (0 + 1 + 1)), (js_range_cons (0 + 1 + 1 + 1)),
    (js_range_cons (0 + 1 + 1 + 1 + 1)) by lia.
  unfold bind at 1. reflexivity.
Qed.

Lemma init_needs_at_most_four_decks_witness :
  init (World initial_state
          (with_controls (fun _ _ => 5) quiet_host)) = None.
Proof.
  apply (init_needs_at_most_four_decks (with_controls (fun _ _ => 5) quiet_host)).
  reflexivity.
Defined.

(** ** The wiring invariant *)

#[export] Instance keeps_preorder (P : world -> Prop) : PreOrder (keeps P).
Proof. split; unfold keeps; [intros w; auto | intros a b c; auto]. Qed.

Lemma wired_same w w' : wiring w' = wiring w -> wired w -> wired w'.
Proof.
  unfold wiring. intros [= E1 E2 E3 E4] (T & G & S0 & S1).
  unfold wired, tabled, global_shape, shaped, channel_to_group, channel_to_deck in *.
  rewrite E1, E2, E3, E4. auto.
Qed.

Ltac wiring_leaf :=
  idtac;
  match goal with
  | |- keeps _ ?w _ =>
      let H := fresh "H" in
      intros H; apply (wired_same w); [|exact H];
      destruct w as [[] []];
      first [ reflexivity
            | repeat match goal with c : channel |- _ => destruct c end;
              reflexivity ]
  end.

Lemma run_callback_wiring f v g : respects (same wiring) (run_callback f v g).
Proof. respects_walk same_leaf. Qed.

Lemma trigger_wiring x : respects (same wiring) (trigger x).
Proof. respects_walk same_leaf. Qed.

Lemma obj_values_set_keep {A} (o : jsobj A) k v x :
  obj_get o k = None -> In x (obj_values o) -> In x (obj_values (obj_set o k v)).
Proof.
  induction o as [|[k' v'] o IH]; simpl; [intros _ []|].
  destruct (String.eqb k' k) eqn:E.
  - intros ->. destruct v; simpl; auto.
  - destruct v'; simpl; intuition.
Qed.

(** What one step of wiring does to the host and the tables. *)
Lemma wire_inv c key g ctl f (trig : bool) w u w' :
  wire c key g ctl f trig w = Some (u, w') ->
  let conn := Connection (next_connection (host w)) g ctl f in
  live_connections (host w') = live_connections (host w) ++ [conn] /\
  connections (js w')
  = set_channel (connections (js w)) c
      (obj_set (connections (js w)).[c] key (Some conn)) /\
  channel_mapping (js w') = channel_mapping (js w) /\
  persistent_connections (js w') = persistent_connections (js w).
Proof.
  intros E conn.
  destruct w as [[m cs ts cc dk pc ls] [ctrls lcs lts nc nt lg]].
  unfold wire, makeConnection, set_connection, bind, gets, modify, emit in E.
  cbn in E, conn.
  assert (Ew : wiring w' = wiring (World
            (State m (set_channel cs c (obj_set cs.[c] key (Some conn)))
               ts cc dk pc ls)
            (Engine ctrls (lcs ++ [conn]) lts (S nc) nt
               (engine_makeConnection conn :: lg)))).
  { destruct trig.
    - apply (trigger_wiring conn _ _ _ E).
    - injection E as _ <-. reflexivity. }
  unfold wiring in Ew. cbn in Ew. injection Ew as -> -> -> ->.
  cbn. auto.
Qed.

(** A loop of such steps over fresh, distinct keys of the table of channel
    [c]: what was in the table stays, and whatever becomes live is entered
    there. *)
Lemma wire_loop {B} c (key : B -> string) (mk : B -> nat -> connection)
  (body : B -> M unit) :
  (forall b w u w', body b w = Some (u, w') ->
     let conn := mk b (next_connection (host w)) in
     live_connections (host w') = live_connections (host w) ++ [conn] /\
     connections (js w')
     = set_channel (connections (js w)) c
         (obj_set (connections (js w)).[c] (key b) (Some conn)) /\
     channel_mapping (js w') = channel_mapping (js w) /\
     persistent_connections (js w') = persistent_connections (js w)) ->
  forall l, NoDup (map key l) -> forall w u w',
  (forall b, In b l -> obj_get (connections (js w)).[c] (key b) = None) ->
  for_each l body w = Some (u, w') ->
  channel_mapping (js w') = channel_mapping (js w) /\
  persistent_connections (js w') = persistent_connections (js w) /\
  (connections (js w')).[other c] = (connections (js w)).[other c] /\
  (forall x, In x (live_connections (host w')) ->
     In x (live_connections (host w)) \/
     In x (obj_values (connections (js w')).[c])) /\
  (forall x, In x (obj_values (connections (js w)).[c]) ->
     In x (obj_values (connections (js w')).[c])) /\
  (forall x, In x (obj_values (connections (js w')).[c]) ->
     In x (obj_values (connections (js w)).[c]) \/
     exists b n, In b l /\ x = mk b n) /\
  (forall b, In b l -> exists n,
     obj_get (connections (js w')).[c] (key b) = Some (mk b n)) /\
  (forall k, (forall b, In b l -> key b <> k) ->
     obj_get (connections (js w')).[c] k = obj_get (connections (js w)).[c] k).
Proof.
  intros Hb. induction l as [|b l IH]; intros Hn w u w' Hf E.
  - injection E as _ <-. repeat split; auto. intros b [].
  - cbn [for_each] in E. apply bind_some in E as ([] & w1 & E1 & E).
    apply Hb in E1. cbv zeta in E1. destruct E1 as (L1 & C1 & M1 & P1).
    cbn [map] in Hn. apply NoDup_cons_iff in Hn as [Hk Hn].
    assert (T1 : (connections (js w1)).[c]
                 = obj_set (connections (js w)).[c] (key b)
                     (Some (mk b (next_connection (host w))))).
    { rewrite C1. apply at_set_same. }
    assert (Hf1 : forall b', In b' l ->
              obj_get (connections (js w1)).[c] (key b') = None).
    { intros b' Hb'. rewrite T1, obj_get_set_other; [apply Hf; right; exact Hb'|].
      intros Ek. apply Hk. rewrite Ek. apply in_map, Hb'. }
    destruct (IH Hn w1 u w' Hf1 E) as (M & P & O & Lv & Kp & Nw & Ent & Oth).
    assert (In1 : In (mk b (next_connection (host w)))
                     (obj_values (connections (js w1)).[c])).
    { rewrite T1. eapply obj_get_values, obj_get_set_same. }
    split; [congruence|]. split; [congruence|].
    split; [rewrite O, C1; apply at_set_other|].
    split; [|split; [|split; [|split]]].
    + intros x Hx. destruct (Lv x Hx) as [Hx1|Hx1]; [|auto].
      rewrite L1 in Hx1. apply in_app_iff in Hx1 as [Hx1|[<-|[]]]; auto.
    + intros x Hx. apply Kp. rewrite T1.
      apply obj_values_set_keep; [apply Hf; left; reflexivity | exact Hx].
    + intros x Hx. destruct (Nw x Hx) as [Hx1|(b' & n & Hb' & ->)].
      * rewrite T1 in Hx1. apply obj_values_set in Hx1 as [[= <-]|Hx1]; auto.
        right. exists b, (next_connection (host w)). split; simpl; auto.
      * right. exists b', n. split; simpl; auto.
    + intros b' [<-|Hb']; [|apply Ent, Hb'].
      exists (next_connection (host w)). rewrite Oth.
      * rewrite T1. apply obj_get_set_same.
      * intros b' Hb' Ek. apply Hk. rewrite <- Ek. apply in_map, Hb'.
    + intros k Hk'. rewrite Oth by (intros b' Hb'; apply Hk'; right; exact Hb').
      rewrite T1. apply obj_get_set_other. apply Hk'. left. reflexivity.
Qed.

Lemma NoDup_strings (l : list string) : nodup string_dec l = l -> NoDup l.
Proof. intros <-. apply NoDup_nodup. Qed.

Lemma lookupZ_in {A} (l : list A) d x : lookupZ l d = Some x -> In x l.
Proof.
  unfold lookupZ. destruct (d <? 0); [discriminate|]. apply nth_error_In.
Qed.

Lemma in_enumerate {A} (l : list A) p : In p (enumerate l) -> In (snd p) l.
Proof. destruct p as [i x]. unfold enumerate. apply in_combine_r. Qed.

Lemma table_keys_nodup : NoDup (map fst output_control_to_function).
Proof. apply NoDup_strings. vm_compute. reflexivity. Qed.

Lemma sampler_keys_nodup l :
  In l constants.sampler_groups ->
  NoDup (map (fun p : Z * string => (snd p ++ "_light")%string) (enumerate l)).
Proof.
  intros H. cbn in H.
  repeat destruct H as [<-|H]; try contradiction;
    apply NoDup_strings; vm_compute; reflexivity.
Qed.

Lemma sampler_keys_apart l name :
  In l constants.sampler_groups -> In name l ->
  ~ In (name ++ "_light")%string (map fst output_control_to_function).
Proof.
  intros Hl Hn.
  assert (E : forallb (fun l => forallb (fun name =>
                if in_dec string_dec (name ++ "_light")%string
                     (map fst output_control_to_function)
                then false else true) l) constants.sampler_groups = true)
    by (vm_compute; reflexivity).
  rewrite forallb_forall in E. specialize (E l Hl).
  rewrite forallb_forall in E. specialize (E name Hn).
  apply not_in_keys, E.
Qed.

Lemma channel_cases (c c' : channel) : c' = c \/ c' = other c.
Proof. destruct c, c'; auto. Qed.

Lemma wired_intro c w :
  tabled w -> global_shape w -> shaped c w -> shaped (other c) w -> wired w.
Proof. unfold wired. destruct c; cbn; tauto. Qed.

Lemma wired_elim c w :
  wired w -> tabled w /\ global_shape w /\ shaped c w /\ shaped (other c) w.
Proof. unfold wired. destruct c; cbn; tauto. Qed.

(** Connecting a channel whose table is empty wires it, and leaves the
    other channel as it is. *)
Lemma connect_channel_wires c w u w' :
  (connections (js w)).[c] = [] ->
  tabled w -> global_shape w ->
  connect_channel c w = Some (u, w') ->
  tabled w' /\ global_shape w' /\ shaped c w' /\
  (connections (js w')).[other c] = (connections (js w)).[other c] /\
  channel_mapping (js w') = channel_mapping (js w).
Proof.
  intros Hc Ht Hg E. unfold connect_channel in E.
  apply bind_some in E as (d & w0 & E0 & E).
  unfold gets in E0. injection E0 as <- <-. cbv zeta in E.
  set (d := channel_to_deck c w) in *. set (g := deck_to_group d) in *.
  apply bind_some in E as ([] & w1 & E1 & E).
  assert (W1 : wiring w1 = wiring w).
  { unfold print_line, emit, modify in E1. injection E1 as <-.
    destruct w as [[] []]. reflexivity. }
  unfold wiring in W1. injection W1 as L1 C1 M1 P1.
  apply bind_some in E as ([] & w2 & E2 & E).
  apply bind_some in E as ([] & w3 & E3 & E).
  assert (W3 : wiring w' = wiring w3).
  { revert E. generalize w3 u w'.
    change (respects (same wiring)
              (update_deck_channel_indicator c ;; update_fx_light)).
    respects_walk same_leaf. }
  (* the table of outputs *)
  pose (key1 := fun e : string * (callback * bool) => fst e).
  pose (mk1 := fun (e : string * (callback * bool)) n =>
                 Connection n g (fst e) (fst (snd e))).
  change (for_each output_control_to_function (connect_one c g) w1
          = Some (tt, w2)) in E2.
  assert (Step1 : forall b w u w', connect_one c g b w = Some (u, w') ->
     let conn := mk1 b (next_connection (host w)) in
     live_connections (host w') = live_connections (host w) ++ [conn] /\
     connections (js w')
     = set_channel (connections (js w)) c
         (obj_set (connections (js w)).[c] (key1 b) (Some conn)) /\
     channel_mapping (js w') = channel_mapping (js w) /\
     persistent_connections (js w') = persistent_connections (js w)).
  { intros [ctl [f trig]] wa ua wb. apply (wire_inv c ctl g ctl f trig). }
  destruct (wire_loop c key1 mk1 _ Step1
              output_control_to_function table_keys_nodup w1 tt w2)
    as (M2 & P2 & O2 & Lv2 & _ & Nw2 & Ent2 & Oth2); [|exact E2|].
  { intros b _. rewrite C1, Hc. reflexivity. }
  clear Step1 E2.
  (* the samplers *)
  unfold connect_samplers in E3.
  apply bind_some in E3 as (d' & w2' & E0 & E3).
  unfold gets in E0. injection E0 as <- <-.
  assert (Ed : channel_to_deck c w2 = d).
  { unfold channel_to_deck. rewrite M2, M1. reflexivity. }
  rewrite Ed in E3.
  apply bind_some in E3 as (l & w2' & El & E3).
  unfold deck_samplers_of in El.
  destruct (lookupZ constants.sampler_groups d) as [l'|] eqn:Hl;
    [|discriminate El].
  injection El as <- <-. pose proof (lookupZ_in _ _ _ Hl) as Hin.
  pose (key2 := fun p : Z * string => (snd p ++ "_light")%string).
  pose (mk2 := fun (p : Z * string) n =>
                 Connection n (snd p) "track_loaded" cb_update_sampler).
  assert (Step2 : forall b w u w',
     (let '(_, control_name) := b in
      wire c (control_name ++ "_light") control_name "track_loaded"
           cb_update_sampler true) w = Some (u, w') ->
     let conn := mk2 b (next_connection (host w)) in
     live_connections (host w') = live_connections (host w) ++ [conn] /\
     connections (js w')
     = set_channel (connections (js w)) c
         (obj_set (connections (js w)).[c] (key2 b) (Some conn)) /\
     channel_mapping (js w') = channel_mapping (js w) /\
     persistent_connections (js w') = persistent_connections (js w)).
  { intros [i name] wa ua wb. apply wire_inv. }
  destruct (wire_loop c key2 mk2 _ Step2 (enumerate l')
              (sampler_keys_nodup l' Hin) w2 tt w3)
    as (M3 & P3 & O3 & Lv3 & Kp3 & Nw3 & _ & Oth3); [|exact E3|].
  { intros b Hb. rewrite Oth2.
    - rewrite C1, Hc. reflexivity.
    - intros e He Ek. apply (sampler_keys_apart l' (snd b) Hin).
      + apply in_enumerate, Hb.
      + unfold key1, key2 in Ek. rewrite <- Ek. apply in_map, He. }
  clear Step2 E3.
  unfold wiring in W3. injection W3 as L' C' M' P'.
  assert (Ed' : channel_to_deck c w' = d).
  { unfold channel_to_deck. rewrite M', M3, M2, M1. reflexivity. }
  split; [|split; [|split; [|split]]].
  - (* tabled *)
    intros x Hx. rewrite L' in Hx. rewrite C', P', P3, P2, P1.
    destruct (Lv3 x Hx) as [Hx2|Hx3]; [|right; exists c; exact Hx3].
    destruct (Lv2 x Hx2) as [Hx1|Hx2']; [|right; exists c; auto].
    rewrite L1 in Hx1. destruct (Ht x Hx1) as [Hp|[c' Hc']]; [left; exact Hp|].
    destruct (channel_cases c c') as [-> | ->].
    + rewrite Hc in Hc'. destruct Hc'.
    + right. exists (other c). rewrite O3, O2, C1. exact Hc'.
  - intros x Hx. rewrite P', P3, P2, P1 in Hx. apply Hg, Hx.
  - (* the table of the channel *)
    split.
    + intros x Hx. rewrite Ed'. rewrite C' in Hx.
      destruct (Nw3 x Hx) as [Hx2|(p & n & Hp & ->)].
      * destruct (Nw2 x Hx2) as [Hx1|(e & n & He & ->)].
        { rewrite C1, Hc in Hx1. destruct Hx1. }
        apply orb_true_iff. left. unfold is_deck_output, mk1.
        cbn [conn_group conn_control conn_fun].
        rewrite String.eqb_refl. cbn [andb]. apply existsb_exists.
        exists e. split; [exact He|]. rewrite String.eqb_refl.
        unfold callback_eqb.
        destruct (callback_eq_dec _ _); [reflexivity | congruence].
      * apply orb_true_iff. right. unfold is_sampler_light, mk2.
        cbn [conn_group conn_control conn_fun]. rewrite Hl.
        change (callback_eqb cb_update_sampler cb_update_sampler) with true.
        rewrite String.eqb_refl. cbn [andb]. apply existsb_exists. exists (snd p).
        split; [apply in_enumerate, Hp | apply String.eqb_refl].
    + intros ctl f trig He.
      destruct (Ent2 _ He) as (n & En). exists n.
      unfold channel_to_group. rewrite Ed', C'. rewrite Oth3; [exact En|].
      intros p Hp Ek. apply (sampler_keys_apart l' (snd p) Hin).
      * apply in_enumerate, Hp.
      * unfold key1, key2 in *. rewrite Ek. cbn.
        apply (in_map fst _ _ He).
  - rewrite C', O3, O2, C1. reflexivity.
  - rewrite M', M3, M2, M1. reflexivity.
Qed.

Lemma shaped_same c w w' :
  (connections (js w')).[c] = (connections (js w)).[c] ->
  channel_mapping (js w') = channel_mapping (js w) ->
  shaped c w -> shaped c w'.
Proof.
  intros Et Em [H1 H2]. unfold shaped, channel_to_group, channel_to_deck.
  rewrite Et, Em. split; assumption.
Qed.

Lemma connect_channel_wired c w u w' :
  (connections (js w)).[c] = [] ->
  tabled w -> global_shape w -> shaped (other c) w ->
  connect_channel c w = Some (u, w') ->
  wired w'.
Proof.
  intros Hc Ht Hg Ho E.
  destruct (connect_channel_wires c w u w' Hc Ht Hg E) as (T & G & S & O & M).
  apply (wired_intro c); auto. apply (shaped_same (other c) w); auto.
Qed.

Lemma torn_down_wiring c w :
  wiring (torn_down c w)
  = (without_connections (obj_values (connections (js w)).[c])
       (live_connections (host w)),
     set_channel (connections (js w)) c [],
     channel_mapping (js w), persistent_connections (js w)).
Proof. destruct w as [[] []]. reflexivity. Qed.

(** Switching decks keeps the wiring. *)
Lemma toggle_deck_channel_wired c :
  respects (keeps wired) (toggle_deck_channel c).
Proof.
  intros w u w' E Hw. unfold toggle_deck_channel in E.
  apply bind_some in E as (old & w0 & E0 & E).
  unfold gets in E0. injection E0 as <- <-.
  apply bind_some in E as (next & w0 & E0 & E).
  assert (w0 = w) as ->.
  { unfold next_deck, bind, gets in E0.
    destruct (js_rem _ _); [injection E0 as _ <-; reflexivity | discriminate]. }
  clear E0. destruct (channel_to_deck c w =? next).
  { apply (wired_same w); [|exact Hw].
    unfold print_line, emit, modify in E. injection E as _ <-.
    destruct w as [[] []]. reflexivity. }
  apply bind_some in E as ([] & w1 & E1 & E).
  assert (W1 : wired w1).
  { apply (wired_same w); [|exact Hw].
    unfold print_line, emit, modify in E1. injection E1 as <-.
    destruct w as [[] []]. reflexivity. }
  clear E1 Hw w. rename w1 into w.
  apply bind_some in E as ([] & w1 & E1 & E).
  rewrite disconnect_channel_spec in E1. injection E1 as <-.
  apply bind_some in E as ([] & w2 & E2 & E).
  unfold modify in E2. injection E2 as <-.
  pose proof (torn_down_wiring c w) as Wt. unfold wiring in Wt.
  injection Wt as Lt Ct Mt Pt.
  destruct (wired_elim c w W1) as (Ht & Hg & _ & Ho).
  set (wt := torn_down c w) in *.
  set (wr := on_js (with_channel_mapping (fun m => set_channel m c next)) wt)
    in *.
  assert (Wr : wiring wr
               = (live_connections (host wt), connections (js wt),
                  set_channel (channel_mapping (js wt)) c next,
                  persistent_connections (js wt))).
  { unfold wr. destruct wt as [[] []]. reflexivity. }
  unfold wiring in Wr. injection Wr as Lr Cr Mr Pr.
  apply (connect_channel_wired c wr u w'); [| | | |exact E].
  - rewrite Cr, Ct. apply at_set_same.
  - intros x Hx. rewrite Lr, Lt in Hx. rewrite Pr, Pt, Cr, Ct.
    apply without_connections_in in Hx as [Hx Hn].
    destruct (Ht x Hx) as [Hp|[c' Hc']]; [left; exact Hp|].
    destruct (channel_cases c c') as [-> | ->].
    + exfalso. apply Hn. apply in_map, Hc'.
    + right. exists (other c). rewrite at_set_other. exact Hc'.
  - intros x Hx. rewrite Pr, Pt in Hx. apply Hg, Hx.
  - destruct Ho as [Ho1 Ho2]. unfold shaped, channel_to_group, channel_to_deck.
    rewrite Cr, Ct, Mr, Mt, !at_set_other. split; assumption.
Qed.

Ltac wired_walk :=
  repeat lazymatch goal with
  | |- forall _, _ => intro
  | |- PreOrder _ => exact _
  | |- respects _ (toggle_deck_channel _) => apply toggle_deck_channel_wired
  | |- respects _ (bind _ _) => apply respects_bind
  | |- respects _ (ret _) => apply respects_ret
  | |- respects _ (gets _) => apply respects_gets
  | |- respects _ throw => apply respects_throw
  | |- respects _ (deck_cell _) => apply respects_reads, reads_deck_cell
  | |- respects _ (for_each _ _) => apply respects_for_each
  | |- respects _ (modify _) => apply respects_modify; intro; wiring_leaf
  | |- respects _ (if ?b then _ else _) => destruct b
  | |- respects _ (match ?x with _ => _ end) => destruct x
  | |- respects _ (let _ := _ in _) => cbv zeta
  | |- respects _ ?m => let h := head_of m in unfold h
  end.

Lemma handle_wired i : respects (keeps wired) (handle i).
Proof. wired_walk. Qed.

(** ** The names of the persistent connections *)

Lemma uint_no_underscore d c :
  In c (list_ascii_of_string (NilEmpty.string_of_uint d)) -> c <> "_"%char.
Proof.
  induction d; simpl; intros H; try contradiction;
    destruct H as [<-|H]; try discriminate; auto.
Qed.

Lemma number_no_underscore n c :
  In c (list_ascii_of_string (number_to_string n)) -> c <> "_"%char.
Proof.
  unfold number_to_string, NilZero.string_of_int, NilZero.string_of_uint.
  destruct (Z.to_int n) as [d|d]; destruct d; simpl; intros H;
    repeat (destruct H as [<-|H]; [discriminate|]);
    try contradiction; eapply uint_no_underscore; eauto.
Qed.

Lemma split_underscore s s' t t' :
  (forall c, In c (list_ascii_of_string s) -> c <> "_"%char) ->
  (forall c, In c (list_ascii_of_string s') -> c <> "_"%char) ->
  (s ++ String "_" t = s' ++ String "_" t')%string ->
  s = s' /\ t = t'.
Proof.
  revert s'. induction s as [|a s IH]; intros [|b s'] H H' E; simpl in *.
  - injection E as ->. auto.
  - injection E as <- _. exfalso. apply (H' "_"%char); auto.
  - injection E as -> _. exfalso. apply (H "_"%char); auto.
  - injection E as -> E. destruct (IH s') as [-> ->]; auto.
Qed.

Lemma focussed_key_inj u u' :
  ("effect_unit_" ++ number_to_string u ++ "_focussed")%string
  = ("effect_unit_" ++ number_to_string u' ++ "_focussed")%string ->
  u = u'.
Proof.
  intros E. cbn [append] in E. injection E as E.
  apply split_underscore in E as [E _]; try apply number_no_underscore.
  apply number_to_string_inj, E.
Qed.

Lemma slot_key_inj u s u' s' :
  ("effect_unit_" ++ number_to_string u ++ "_slot_" ++ number_to_string s
   ++ "_enabled")%string
  = ("effect_unit_" ++ number_to_string u' ++ "_slot_" ++ number_to_string s'
     ++ "_enabled")%string ->
  u = u' /\ s = s'.
Proof.
  intros E. cbn [append] in E. injection E as E.
  apply split_underscore in E as [E1 E2]; try apply number_no_underscore.
  injection E2 as E2.
  apply split_underscore in E2 as [E2 _]; try apply number_no_underscore.
  split; apply number_to_string_inj; assumption.
Qed.

Lemma focussed_slot_apart u u' s' :
  ("effect_unit_" ++ number_to_string u ++ "_focussed")%string
  <> ("effect_unit_" ++ number_to_string u' ++ "_slot_" ++ number_to_string s'
      ++ "_enabled")%string.
Proof.
  intros E. cbn [append] in E. injection E as E.
  apply split_underscore in E as [_ E]; try apply number_no_underscore.
  discriminate E.
Qed.

Lemma prefix_append s t : String.prefix s (s ++ t) = true.
Proof.
  induction s as [|a s IH].
  - destruct t; reflexivity.
  - change (String.prefix (String a s) (String a s ++ t))
      with (if ascii_dec a a then String.prefix s (s ++ t) else false).
    destruct (ascii_dec a a); [exact IH | contradiction].
Qed.

(** ** The wiring [init] sets up *)

#[export] Instance persists_preorder F : PreOrder (persists F).
Proof.
  split.
  - intros w. unfold persists. repeat split; auto.
  - intros a b c (C1 & M1 & L1 & K1 & N1 & O1) (C2 & M2 & L2 & K2 & N2 & O2).
    unfold persists. split; [congruence|]. split; [congruence|].
    split; [|split; [|split]].
    + intros x Hx. destruct (L2 x Hx) as [H|H]; auto.
      destruct (L1 x H) as [H'|H']; auto.
    + auto.
    + intros x Hx. destruct (N2 x Hx) as [H|H]; auto.
    + intros k Hk. rewrite O2, O1; auto.
Qed.

Lemma persists_mono (F F' : string -> Prop) w w' :
  (forall k, F k -> F' k) -> persists F w w' -> persists F' w w'.
Proof.
  intros HF (C & M & L & K & N & O). unfold persists.
  repeat split; auto.
Qed.

Lemma persists_same F w w' : wiring w' = wiring w -> persists F w w'.
Proof.
  unfold wiring. intros [= L C M P]. unfold persists.
  rewrite L, C, M, P. repeat split; auto.
Qed.

Lemma ensures_bind {A B} (m : M A) (k : A -> M B) Q w :
  ensures m (fun a w1 => ensures (k a) Q w1) w -> ensures (bind m k) Q w.
Proof.
  intros H b w' E. apply bind_some in E as (a & w1 & E1 & E2).
  exact (H a w1 E1 b w' E2).
Qed.

Lemma ensures_respects {A} (m : M A) R (Q : A -> world -> Prop) w :
  respects R m -> (forall a w', R w w' -> Q a w') -> ensures m Q w.
Proof. intros H HQ a w' E. apply HQ, (H w a w' E). Qed.

Lemma ensures_gets {A} (f : world -> A) (Q : A -> world -> Prop) w :
  Q (f w) w -> ensures (gets f) Q w.
Proof. intros H a w' [= <- <-]. exact H. Qed.

(** One connection made and entered under a name that is free. *)
Lemma persist_one key g ctl f w u w' :
  is_global (Connection 0 g ctl f) = true ->
  obj_get (persistent_connections (js w)) key = None ->
  (conn <- makeConnection g ctl f ;; set_persistent_connection key conn) w
  = Some (u, w') ->
  persists (eq key) w w'.
Proof.
  intros Hg Hk E.
  destruct w as [[m cs ts cc dk pc ls] [ctrls lcs lts nc nt lg]].
  unfold makeConnection, set_persistent_connection, bind, gets, modify, emit
    in E. cbn in E. injection E as _ <-. cbn in Hk.
  unfold persists. cbn. split; [reflexivity|]. split; [reflexivity|].
  split; [|split; [|split]].
  - intros x Hx. apply in_app_iff in Hx as [Hx|[<-|[]]]; auto.
    right. eapply obj_get_values, obj_get_set_same.
  - intros x Hx. apply obj_values_set_keep; assumption.
  - intros x Hx. apply obj_values_set in Hx as [[= <-]|Hx]; auto.
  - intros k Hn. apply obj_get_set_other. exact Hn.
Qed.

(** A loop whose rounds enter connections under names of their own. *)
Lemma family_loop {B} (fam : B -> string -> Prop) (body : B -> M unit) :
  (forall b w u w',
     (forall k, fam b k -> obj_get (persistent_connections (js w)) k = None) ->
     body b w = Some (u, w') -> persists (fam b) w w') ->
  forall l, ForallOrdPairs (fun a b => forall k, fam a k -> ~ fam b k) l ->
  forall w u w',
  (forall b, In b l -> forall k, fam b k ->
     obj_get (persistent_connections (js w)) k = None) ->
  for_each l body w = Some (u, w') ->
  persists (fun k => exists b, In b l /\ fam b k) w w'.
Proof.
  intros Hb. induction l as [|b l IH]; intros Hp w u w' Hf E.
  - injection E as _ <-. reflexivity.
  - cbn [for_each] in E. apply bind_some in E as ([] & w1 & E1 & E).
    inversion Hp as [|? ? Hbl Hl]; subst.
    assert (P1 : persists (fam b) w w1).
    { apply (Hb b w tt w1); [|exact E1]. intros k Hk. apply (Hf b); simpl; auto. }
    assert (P2 : persists (fun k => exists b, In b l /\ fam b k) w1 w').
    { apply (IH Hl w1 u w'); [|exact E].
      intros b' Hb' k Hk. destruct P1 as (_ & _ & _ & _ & _ & O1).
      rewrite O1; [apply (Hf b'); simpl; auto|].
      intros Hk'. rewrite Forall_forall in Hbl.
      exact (Hbl b' Hb' k Hk' Hk). }
    transitivity w1.
    + eapply persists_mono; [|exact P1]. intros k Hk. exists b. simpl. auto.
    + eapply persists_mono; [|exact P2]. intros k (b' & Hb' & Hk).
      exists b'. simpl. auto.
Qed.

Lemma js_range_nodup a b : NoDup (js_range a b).
Proof.
  unfold js_range. generalize (seq_NoDup (Z.to_nat (b - a)) 0).
  induction 1 as [|i l Hi Hn IH]; cbn [map]; constructor; auto.
  intros Hin. apply in_map_iff in Hin as (j & Ej & Hj).
  assert (j = i) by lia. subst. contradiction.
Qed.

Lemma ordered_pairs_of_nodup {B} (R : B -> B -> Prop) (l : list B) :
  NoDup l -> (forall a b, a <> b -> R a b) -> ForallOrdPairs R l.
Proof.
  induction 1 as [|x l Hx Hn IH]; intros HR; constructor; auto.
  apply Forall_forall. intros y Hy. apply HR. intros ->. contradiction.
Qed.

Lemma emit_wiring e w u w' : emit e w = Some (u, w') -> wiring w' = wiring w.
Proof.
  unfold emit, modify. intros [= _ <-]. destruct w as [[] []]. reflexivity.
Qed.

(** The connections to the slots of effect unit [unit]. *)
Lemma effect_slots_persist unit l w u w' :
  NoDup l ->
  (forall slot,
     obj_get (persistent_connections (js w))
       ("effect_unit_" ++ number_to_string unit ++ "_slot_"
        ++ number_to_string slot ++ "_enabled")%string = None) ->
  for_each l (fun slot =>
    let effect_group := get_effect_group (Some unit) slot in
    softTakeover effect_group "meta" true ;;
    conn <- makeConnection effect_group "enabled" cb_update_fx_light ;;
    set_persistent_connection
      ("effect_unit_" ++ number_to_string unit ++ "_slot_"
       ++ number_to_string slot ++ "_enabled")%string conn) w
  = Some (u, w') ->
  persists (fun k => exists slot,
              k = ("effect_unit_" ++ number_to_string unit ++ "_slot_"
                   ++ number_to_string slot ++ "_enabled")%string) w w'.
Proof.
  intros Hn Hf E.
  pose (fam := fun (slot : Z) (k : string) =>
          k = ("effect_unit_" ++ number_to_string unit ++ "_slot_"
               ++ number_to_string slot ++ "_enabled")%string).
  match type of E with for_each _ ?b _ = _ => set (body := b) in * end.
  assert (Hb : forall b wa ua wb,
     (forall k, fam b k -> obj_get (persistent_connections (js wa)) k = None) ->
     body b wa = Some (ua, wb) -> persists (fam b) wa wb).
  { intros slot wa ua wb Hk Eb. unfold body in Eb. cbv zeta in Eb.
    apply bind_some in Eb as ([] & w1 & E1 & Eb).
    apply emit_wiring in E1. transitivity w1; [apply persists_same, E1|].
    eapply persists_mono; [|eapply persist_one; [| |exact Eb]].
    + intros k <-. reflexivity.
    + reflexivity.
    + unfold wiring in E1. injection E1 as _ _ _ ->. apply Hk. reflexivity. }
  assert (Ho : ForallOrdPairs (fun a b => forall k, fam a k -> ~ fam b k) l).
  { apply ordered_pairs_of_nodup; [exact Hn|].
    intros a b Hab k -> E'. apply slot_key_inj in E' as [_ E']. congruence. }
  eapply persists_mono; [|apply (family_loop fam body Hb l Ho w u w'); [|exact E]].
  - intros k (slot & _ & ->). exists slot. reflexivity.
  - intros slot _ k ->. apply Hf.
Qed.

(** The connections to the effect units and their slots. *)
Lemma effect_units_persist l w u w' :
  NoDup l ->
  (forall k, String.prefix "effect_unit_" k = true ->
     obj_get (persistent_connections (js w)) k = None) ->
  for_each l (fun unit =>
    let unit_group := get_effect_unit_group (Some unit) in
    softTakeover unit_group "mix" true ;;
    setValue unit_group "show_focus" 1 ;;
    conn <- makeConnection unit_group "focused_effect" cb_update_fx_light ;;
    set_persistent_connection
      ("effect_unit_" ++ number_to_string unit ++ "_focussed")%string conn ;;
    num_effect_slots <- gets (get_num_effect_slots (Some unit)) ;;
    for_each (js_range 1 (num_effect_slots + 1)) (fun slot =>
      let effect_group := get_effect_group (Some unit) slot in
      softTakeover effect_group "meta" true ;;
      conn <- makeConnection effect_group "enabled" cb_update_fx_light ;;
      set_persistent_connection
        ("effect_unit_" ++ number_to_string unit ++ "_slot_"
         ++ number_to_string slot ++ "_enabled")%string conn)) w
  = Some (u, w') ->
  persists (fun k => String.prefix "effect_unit_" k = true) w w'.
Proof.
  intros Hn Hf E.
  pose (fam := fun (unit : Z) (k : string) =>
          k = ("effect_unit_" ++ number_to_string unit ++ "_focussed")%string
          \/ exists slot,
               k = ("effect_unit_" ++ number_to_string unit ++ "_slot_"
                    ++ number_to_string slot ++ "_enabled")%string).
  match type of E with for_each _ ?b _ = _ => set (body := b) in * end.
  assert (Hb : forall b wa ua wb,
     (forall k, fam b k -> obj_get (persistent_connections (js wa)) k = None) ->
     body b wa = Some (ua, wb) -> persists (fam b) wa wb).
  { intros unit wa ua wb Hk Eb. unfold body in Eb. cbv zeta in Eb.
    apply bind_some in Eb as ([] & w1 & E1 & Eb). apply emit_wiring in E1.
    apply bind_some in Eb as ([] & w2 & E2 & Eb). apply emit_wiring in E2.
    apply bind_some in Eb as (conn & w3 & E3 & Eb).
    apply bind_some in Eb as ([] & w4 & E4 & Eb).
    apply bind_some in Eb as (n & w5 & E5 & Eb).
    unfold gets in E5. injection E5 as _ <-.
    assert (P2 : persists (fun _ => False) wa w2).
    { transitivity w1; apply persists_same; assumption. }
    assert (P4 : persists
                   (eq ("effect_unit_" ++ number_to_string unit
                        ++ "_focussed")%string) w2 w4).
    { assert (E34 :
        (conn <- makeConnection (get_effect_unit_group (Some unit))
                   "focused_effect" cb_update_fx_light ;;
         set_persistent_connection
           ("effect_unit_" ++ number_to_string unit ++ "_focussed")%string
           conn) w2 = Some (tt, w4))
        by (unfold bind; rewrite E3; exact E4).
      eapply persist_one; [| |exact E34].
      - reflexivity.
      - destruct P2 as (_ & _ & _ & _ & _ & O). rewrite O by tauto.
        apply Hk. left. reflexivity. }
    transitivity w2; [eapply persists_mono; [|exact P2]; intros k []|].
    transitivity w4.
    { eapply persists_mono; [|exact P4]. intros k <-. left. reflexivity. }
    eapply persists_mono;
      [|eapply effect_slots_persist; [apply js_range_nodup| |exact Eb]].
    - intros k (slot & ->). right. eauto.
    - intros slot. destruct P4 as (_ & _ & _ & _ & _ & O4).
      destruct P2 as (_ & _ & _ & _ & _ & O2).
      rewrite O4, O2 by (try tauto; apply focussed_slot_apart).
      apply Hk. right. eauto. }
  assert (Ho : ForallOrdPairs (fun a b => forall k, fam a k -> ~ fam b k) l).
  { apply ordered_pairs_of_nodup; [exact Hn|].
    intros a b Hab k [->|(s & ->)] [E'|(s' & E')].
    - apply focussed_key_inj in E'. congruence.
    - revert E'. apply focussed_slot_apart.
    - symmetry in E'. revert E'. apply focussed_slot_apart.
    - apply slot_key_inj in E' as [E' _]. congruence. }
  eapply persists_mono; [|apply (family_loop fam body Hb l Ho w u w'); [|exact E]].
  - intros k (unit & _ & [->|(slot & ->)]); apply prefix_append.
  - intros unit _ k [->|(slot & ->)]; apply Hf; apply prefix_append.
Qed.

(** One step that leaves the wiring alone is taken off the front of [E]. *)
Ltac frame_step E V :=
  let w1 := fresh "w" in
  let E1 := fresh "E" in
  let V1 := fresh "V" in
  apply bind_some in E as (? & w1 & E1 & E);
  match type of E1 with
  | ?m _ = _ =>
      assert (V1 : respects (same wiring) m) by (respects_walk same_leaf);
      apply V1 in E1; unfold same in E1; rewrite V in E1; clear V V1;
      rename E1 into V
  end.

Ltac read_step E :=
  let w1 := fresh "w" in
  let E1 := fresh "E" in
  apply bind_some in E as (? & w1 & E1 & E);
  unfold gets in E1; injection E1 as <- <-.

Ltac persists_step E P :=
  let w1 := fresh "w" in
  let E1 := fresh "E" in
  let V1 := fresh "V" in
  apply bind_some in E as (? & w1 & E1 & E);
  match type of E1 with
  | ?m _ = _ =>
      assert (V1 : respects (same wiring) m) by (respects_walk same_leaf);
      apply V1 in E1; unfold same in E1; clear V1;
      match type of P with
      | persists ?F _ _ => apply (persists_same F) in E1
      end;
      pose proof (transitivity P E1) as V1; clear P E1; rename V1 into P
  end.

Lemma init_wired e w :
  live_connections e = [] ->
  exec init (World initial_state e) = Some w -> wired w.
Proof.
  intros He E. apply exec_some in E as [u E]. unfold init in E.
  assert (V : wiring (World initial_state e) = ([], PerChannel [] [], PerChannel 0 1, [])).
  { unfold wiring. cbn. rewrite He. reflexivity. }
  revert E V. generalize (World initial_state e). intros w0 E V.
  frame_step E V. frame_step E V. read_step E. frame_step E V.
  frame_step E V. frame_step E V. frame_step E V. frame_step E V.
  frame_step E V. frame_step E V. read_step E. frame_step E V.
  clear - E V. unfold wiring in V. injection V as L0 C0 M0 P0.
  (* the head split *)
  apply bind_some in E as (conn & w11 & E1 & E).
  apply bind_some in E as ([] & w12 & E2 & E).
  assert (P : persists (eq "head_split") w10 w12).
  { eapply (persist_one "head_split" "[Master]" "headSplit"
              cb_update_head_split_light w10 tt w12).
    - reflexivity.
    - rewrite P0. reflexivity.
    - unfold bind. rewrite E1. exact E2. }
  clear E1 E2 conn w11.
  persists_step E P. persists_step E P. read_step E.
  (* the effect units *)
  apply bind_some in E as ([] & w15 & E1 & E).
  apply effect_units_persist in E1; [|apply js_range_nodup|].
  2:{ intros k Hk. destruct P as (_ & _ & _ & _ & _ & O).
      rewrite O, P0; [reflexivity|]. intros <-. discriminate Hk. }
  pose (F := fun k : string =>
               k = "head_split" \/ String.prefix "effect_unit_" k = true).
  assert (P' : persists F w10 w15).
  { match type of E1 with persists _ ?wm _ => transitivity wm end;
      (eapply persists_mono; [|eassumption]); unfold F; auto. }
  clear P E1. rename P' into P.
  persists_step E P.
  destruct P as (C & M & L & _ & N & _).
  rewrite C0 in C. rewrite M0 in M.
  (* the two channels *)
  apply bind_some in E as ([] & wa & Ea & Eb).
  match type of Ea with connect_channel _ ?x = _ => rename x into wz end.
  assert (T : tabled wz).
  { intros y Hy. destruct (L y Hy) as [H|H]; [|auto].
    rewrite L0 in H. destruct H. }
  assert (G : global_shape wz).
  { intros y Hy. destruct (N y Hy) as [H|H]; [|auto].
    rewrite P0 in H. destruct H. }
  destruct (connect_channel_wires Ch0 wz tt wa (f_equal cell0 C) T G Ea)
    as (Ta & Ga & Sa & Oa & Ma).
  cbn [other] in Oa. rewrite C in Oa. cbn [at_channel cell1] in Oa.
  destruct (connect_channel_wires Ch1 wa u w Oa Ta Ga Eb)
    as (Tb & Gb & Sb & Ob & Mb).
  apply (wired_intro Ch1); auto.
  apply (shaped_same _ wa); auto.
Qed.

Lemma reachable_wired w : reachable w -> wired w.
Proof.
  induction 1 as [e w [Hl _] _ E | w i w' _ IH _ E].
  - apply (init_wired e w Hl E).
  - apply exec_some in E as [u E]. apply (handle_wired i w u w' E IH).
Qed.

(** ** Shutting down *)

Lemma torn_down_fields c w :
  live_connections (host (torn_down c w))
  = without_connections (obj_values (connections (js w)).[c])
      (live_connections (host w)) /\
  live_timers (host (torn_down c w))
  = without_timers (obj_values (timers (js w)).[c]) (live_timers (host w)) /\
  connections (js (torn_down c w)) = set_channel (connections (js w)) c [] /\
  timers (js (torn_down c w)) = set_channel (timers (js w)) c [] /\
  persistent_connections (js (torn_down c w)) = persistent_connections (js w).
Proof. destruct w as [[] []]. repeat split; reflexivity. Qed.

Lemma nothing_in {A} (l : list A) : (forall x, ~ In x l) -> l = [].
Proof. destruct l as [|x l]; [reflexivity|]. intros H. destruct (H x). left. reflexivity. Qed.

(** X8. [shutdown] releases everything the run holds at the host: from any
    state of a run it returns, and afterwards the host has no connection
    and no timer of the script left, and the three tables are empty. *)
Theorem shutdown_releases w :
  reachable w ->
  exists w', exec shutdown w = Some w' /\
    live_connections (host w') = [] /\
    live_timers (host w') = [] /\
    connections (js w') = PerChannel [] [] /\
    timers (js w') = PerChannel [] [] /\
    persistent_connections (js w') = [].
Proof.
  intros Hr. pose proof (reachable_core w Hr) as Hc.
  pose proof (reachable_wired w Hr) as (Ht & _).
  unfold shutdown, exec, bind, gets. rewrite for_each_disconnect.
  unfold modify. rewrite !disconnect_channel_spec.
  eexists. split; [reflexivity|].
  set (w1 := on_js (with_persistent_connections (fun _ => [])) _).
  assert (F1 : live_connections (host w1)
               = without_connections
                   (obj_values (persistent_connections (js w)))
                   (live_connections (host w)) /\
               live_timers (host w1) = live_timers (host w) /\
               connections (js w1) = connections (js w) /\
               timers (js w1) = timers (js w) /\
               persistent_connections (js w1) = [])
    by (unfold w1; destruct w as [[] []]; repeat split; reflexivity).
  destruct F1 as (L1 & T1 & C1 & S1 & P1). clearbody w1.
  destruct (torn_down_fields Ch0 w1) as (L2 & T2 & C2 & S2 & P2).
  destruct (torn_down_fields Ch1 (torn_down Ch0 w1)) as (L3 & T3 & C3 & S3 & P3).
  rewrite C3, S3, P3, C2, S2, P2, P1.
  split; [|split; [|split; [|split]]]; try reflexivity.
  - apply nothing_in. intros x Hx. rewrite L3, C2, L2, L1, C1 in Hx.
    apply without_connections_in in Hx as [Hx H1].
    apply without_connections_in in Hx as [Hx H0].
    apply without_connections_in in Hx as [Hx Hp].
    destruct (Ht x Hx) as [H|[[|] H]].
    + apply Hp, in_map, H.
    + apply H0, in_map, H.
    + apply H1, in_map. rewrite at_set_other with (c := Ch0). exact H.
  - apply nothing_in. intros t Hx. rewrite T3, S2, T2, T1, S1 in Hx.
    apply without_timers_in in Hx as [Hx H1].
    apply without_timers_in in Hx as [Hx H0].
    pose proof (core_timers w Hc t Hx) as H. apply obj_get_values in H.
    destruct (timer_channel t).
    + apply H0, H.
    + apply H1. rewrite at_set_other with (c := Ch0). exact H.
Qed.

Lemma shutdown_releases_witness :
  (live_connections (host (after double_press_ch0)) <> [] /\
   live_timers (host (after loop_on_deck0)) <> []) /\
  exists w', exec shutdown (after double_press_ch0) = Some w' /\
    live_connections (host w') = [] /\
    live_timers (host w') = [] /\
    connections (js w') = PerChannel [] [] /\
    timers (js w') = PerChannel [] [] /\
    persistent_connections (js w') = [].
Proof.
  split; [split; vm_compute; discriminate|].
  exact (shutdown_releases (after double_press_ch0) reachable_double_press).
Defined.

(** ** Control changes and the LEDs *)

Lemma append_inv_tail s s' t :
  (s ++ t = s' ++ t)%string -> s = s'.
Proof.
  intros E.
  assert (La : forall a b, String.length (a ++ b)
                            = (String.length a + String.length b)%nat).
  { induction a as [|x a IHa]; intros b; cbn; auto. }
  assert (El : String.length s = String.length s').
  { apply (f_equal String.length) in E. rewrite !La in E. lia. }
  clear La.
  revert s' E El. induction s as [|a s IH]; intros [|b s'] E El;
    try discriminate El; [reflexivity|].
  cbn in E. injection E as -> E. f_equal. apply IH; [exact E|].
  cbn in El. lia.
Qed.

Lemma deck_to_group_inj a b : deck_to_group a = deck_to_group b -> a = b.
Proof.
  unfold deck_to_group. intros E. cbn [append] in E. injection E as E.
  apply append_inv_tail, number_to_string_inj in E. lia.
Qed.

(** No connection of a run listens to a deck that is not bound. *)
Lemma unbound_deck_unheard w d x :
  core w -> wired w -> is_deck_active d w = false ->
  In x (live_connections (host w)) ->
  String.eqb (conn_group x) (deck_to_group d) = false.
Proof.
  intros Hc (Ht & Hg & S0 & S1) Hd Hx.
  apply String.eqb_neq. intros Eg.
  destruct (Ht x Hx) as [Hp|[c Hx']].
  - apply Hg in Hp. unfold is_global in Hp. rewrite Eg in Hp.
    destruct (conn_fun x); try discriminate Hp; discriminate Hp.
  - assert (Hs : shaped c w) by (destruct c; assumption).
    destruct Hs as [Hs _]. apply Hs in Hx'. apply orb_true_iff in Hx' as [H|H].
    + unfold is_deck_output in H. apply andb_true_iff in H as [H _].
      apply String.eqb_eq in H. rewrite Eg in H. apply deck_to_group_inj in H.
      unfold is_deck_active in Hd. apply orb_false_iff in Hd as [H0 H1].
      apply Z.eqb_neq in H0, H1. unfold channel_to_deck in H.
      destruct c; cbn [at_channel] in *; congruence.
    + unfold is_sampler_light in H. apply andb_true_iff in H as [_ H].
      destruct (lookupZ constants.sampler_groups (channel_to_deck c w))
        as [l|] eqn:El; [|discriminate H].
      apply existsb_exists in H as (name & Hn & En).
      apply String.eqb_eq in En. apply lookupZ_in in El.
      rewrite Eg in En. cbn in El.
      repeat destruct El as [<-|El]; try contradiction;
        cbn in Hn; repeat destruct Hn as [<-|Hn]; try contradiction;
        discriminate En.
Qed.

Lemma filter_none {A} (f : A -> bool) l :
  (forall x, In x l -> f x = false) -> filter f l = [].
Proof.
  induction l as [|x l IH]; intros H; [reflexivity|]. cbn.
  rewrite (H x) by (left; reflexivity). apply IH. intros y Hy. apply H. right. exact Hy.
Qed.

(** X9. A control change the host reports for a deck that is bound to no
    channel reaches no observer: the value is stored, nothing is sent to
    the controller and the state of the script stays as it is. *)
Theorem unbound_deck_is_silent w d control value :
  reachable w -> is_deck_active d w = false ->
  exists w',
    exec (handle (in_engine_notify (deck_to_group d) control value)) w
    = Some w' /\
    js w' = js w /\ log (host w') = log (host w) /\
    live_timers (host w') = live_timers (host w) /\
    engine_getValue (deck_to_group d) control w' = value.
Proof.
  intros Hr Hd. pose proof (reachable_core w Hr) as Hc.
  pose proof (reachable_wired w Hr) as Hw.
  cbn [handle]. unfold engine_notify, exec, bind, gets, modify.
  rewrite filter_none.
  - eexists. split; [reflexivity|]. destruct w as [s [ctrls lcs lts nc nt lg]].
    unfold engine_getValue. cbn. rewrite !String.eqb_refl. auto.
  - intros x Hx.
    assert (Hx' : In x (live_connections (host w)))
      by (destruct w as [s []]; exact Hx).
    rewrite (unbound_deck_unheard w d x Hc Hw Hd Hx'). reflexivity.
Qed.

Lemma unbound_deck_is_silent_witness :
  exists w',
    exec (handle (in_engine_notify (deck_to_group 2) "play_indicator" 1))
         started = Some w' /\
    js w' = js started /\ log (host w') = log (host started) /\
    live_timers (host w') = live_timers (host started) /\
    engine_getValue (deck_to_group 2) "play_indicator" w' = 1.
Proof.
  apply (unbound_deck_is_silent started 2 "play_indicator" 1 reachable_started).
  vm_compute. reflexivity.
Defined.

Lemma nodup_keys_functional {K V} (l : list (K * V)) k v v' :
  NoDup (map fst l) -> In (k, v) l -> In (k, v') l -> v = v'.
Proof.
  induction l as [|[k0 v0] l IH]; cbn; intros Hn H H'; [contradiction|].
  apply NoDup_cons_iff in Hn as [Hk Hn].
  destruct H as [E|H], H' as [E'|H'].
  - congruence.
  - exfalso. apply Hk. injection E as -> _. apply (in_map fst _ _ H').
  - exfalso. apply Hk. injection E' as -> _. apply (in_map fst _ _ H).
  - auto.
Qed.

(** Whoever listens to a control of a bound deck is the observer the table
    of outputs names for it. *)
Lemma bound_deck_heard_by w c x control f (trig : bool) :
  wired w ->
  In (control, (f, trig)) output_control_to_function ->
  In x (live_connections (host w)) ->
  conn_group x = channel_to_group c w -> conn_control x = control ->
  conn_fun x = f.
Proof.
  intros (Ht & Hg & S0 & S1) He Hx Eg Ec. unfold channel_to_group in Eg.
  destruct (Ht x Hx) as [Hp|[c' Hx']].
  - apply Hg in Hp. unfold is_global in Hp. rewrite Eg in Hp.
    destruct (conn_fun x); try discriminate Hp; discriminate Hp.
  - assert (Hs : shaped c' w) by (destruct c'; assumption).
    destruct Hs as [Hs _]. apply Hs in Hx'. apply orb_true_iff in Hx' as [H|H].
    + unfold is_deck_output in H. apply andb_true_iff in H as [_ H].
      apply existsb_exists in H as ([k [f' t']] & He' & H).
      apply andb_true_iff in H as [H1 H2]. cbn in H1, H2.
      apply String.eqb_eq in H1. unfold callback_eqb in H2.
      destruct (callback_eq_dec f' (conn_fun x)) as [<-|]; [|discriminate H2].
      rewrite Ec in H1. subst k.
      pose proof (nodup_keys_functional _ _ _ _ table_keys_nodup He He') as E.
      congruence.
    + unfold is_sampler_light in H. apply andb_true_iff in H as [_ H].
      destruct (lookupZ constants.sampler_groups (channel_to_deck c' w))
        as [l|] eqn:El; [|discriminate H].
      apply existsb_exists in H as (name & Hn & En).
      apply String.eqb_eq in En. apply lookupZ_in in El.
      rewrite Eg in En. cbn in El.
      repeat destruct El as [<-|El]; try contradiction;
        cbn in Hn; repeat destruct Hn as [<-|Hn]; try contradiction;
        discriminate En.
Qed.

(** The same plain observer called once for every connection of [l]. *)
Lemma for_each_plain f v g (l : list connection) : forall w,
  plain f = true -> (forall x, In x l -> conn_fun x = f) ->
  exists evs,
    for_each l (fun x => run_callback (conn_fun x) v g) w
    = Some (tt, add_events evs w) /\
    (l = [] -> evs = []) /\
    (l <> [] -> forall st d1,
       led (evs ++ log (host w)) st d1
       = led (sends f v g (channel_mapping (js w)) ++ log (host w)) st d1).
Proof.
  induction l as [|x l IH]; intros w Hp Hf.
  - exists []. split; [destruct w as [s []]; reflexivity|]. split; [auto|].
    intros H. contradiction.
  - cbn [for_each]. unfold bind. rewrite (Hf x) by (left; reflexivity).
    rewrite run_plain by exact Hp.
    set (S := sends f v g (channel_mapping (js w))).
    destruct (IH (add_events S w) Hp) as (evs & E & Hnil & Hled).
    { intros y Hy. apply Hf. right. exact Hy. }
    rewrite E. exists (evs ++ S). split; [|split].
    + destruct w as [s []]. cbn. rewrite app_assoc. reflexivity.
    + discriminate.
    + intros _ st d1. rewrite <- app_assoc.
      destruct l as [|y l].
      * rewrite (Hnil eq_refl). reflexivity.
      * rewrite add_events_log in Hled.
        replace (channel_mapping (js (add_events S w)))
          with (channel_mapping (js w)) in Hled
          by (destruct w as [[] []]; reflexivity).
        rewrite Hled by discriminate. fold S.
        apply led_resend. apply sends_shown. exact Hp.
Qed.

(** X10. A control change the host reports for the deck bound to a channel
    reaches the controller: for every entry of the table of outputs whose
    observer only drives LEDs, the LEDs afterwards are what one call of
    that observer with the new value makes them, and the state of the
    script is untouched. *)
Theorem bound_deck_reaches_leds w c control f (trig : bool) value :
  reachable w ->
  In (control, (f, trig)) output_control_to_function -> plain f = true ->
  exists w',
    exec (handle (in_engine_notify (channel_to_group c w) control value)) w
    = Some w' /\
    js w' = js w /\
    forall st d1,
      led (log (host w')) st d1
      = led (sends f value (channel_to_group c w) (channel_mapping (js w))
             ++ log (host w)) st d1.
Proof.
  intros Hr He Hp. pose proof (reachable_core w Hr) as Hc.
  pose proof (reachable_wired w Hr) as Hw.
  set (g := channel_to_group c w).
  cbn [handle]. unfold engine_notify, exec. unfold bind at 1. unfold modify.
  set (w1 := on_host _ w).
  assert (F1 : js w1 = js w /\ log (host w1) = log (host w) /\
               live_connections (host w1) = live_connections (host w))
    by (unfold w1; destruct w as [s []]; auto).
  destruct F1 as (J1 & L1 & C1). clearbody w1.
  unfold bind at 1. unfold gets. rewrite C1.
  set (conns := filter _ (live_connections (host w))).
  destruct (for_each_plain f value g conns w1 Hp) as (evs & E & _ & Hled).
  { intros x Hx. unfold conns in Hx. apply filter_In in Hx as [Hx Hm].
    apply andb_true_iff in Hm as [Hg Hk]. apply String.eqb_eq in Hg, Hk.
    apply (bound_deck_heard_by w c x control f trig Hw He Hx Hg Hk). }
  rewrite E. eexists. split; [reflexivity|].
  split; [rewrite <- J1; destruct w1 as [s []]; reflexivity|].
  intros st d1. rewrite add_events_log, J1, L1 in *. apply Hled.
  destruct Hw as (_ & _ & S0 & S1).
  assert (Hs : shaped c w) by (destruct c; assumption).
  destruct Hs as [_ Hs]. destruct (Hs control f trig He) as (id & Ho).
  apply obj_get_values in Ho.
  destruct (core_connections w Hc c _ Ho) as [Hl _].
  intros En.
  assert (Hin : In (Connection id (channel_to_group c w) control f) conns).
  { unfold conns. apply filter_In. split; [exact Hl|]. cbn.
    fold g. rewrite !String.eqb_refl. reflexivity. }
  rewrite En in Hin. destruct Hin.
Qed.

Lemma bound_deck_reaches_leds_witness :
  exists w',
    exec (handle (in_engine_notify (channel_to_group Ch1 started)
                    "play_indicator" 1)) started = Some w' /\
    led (log (host started)) 0x91 0x0B = Some 0 /\
    led (log (host w')) 0x91 0x0B = Some 0x7F.
Proof.
  destruct (bound_deck_reaches_leds started Ch1 "play_indicator"
              cb_play_indicator true 1 reachable_started)
    as (w' & E & _ & Hled).
  - cbn. auto.
  - reflexivity.
  - exists w'. split; [exact E|]. split; [vm_compute; reflexivity|].
    rewrite Hled. vm_compute. reflexivity.
Defined.

(** ** Deck buttons *)

Lemma deck_button_addresses h c value w :
  In h deck_buttons ->
  exists evs, h c value w = Some (tt, add_events evs w) /\
              Forall (addresses (channel_to_group c w)) evs.
Proof.
  intros Hh. destruct w as [s [ctrls lcs lts nc nt lg]].
  cbn in Hh.
  repeat destruct Hh as [<-|Hh]; try contradiction;
    repeat (cbv [play reverseroll cue_default start_play loop_in_long
                 reloop_toggle reloop_andstop cueLoopCallRight quickJumpBack
                 quickJumpForward toggleQuantize headphone_cue syncPressed
                 syncLongPressed jogSearch bind gets ret setValue
                 toggleControl emit modify on_host with_log get_loop_active
                 engine_getValue host controls js negb];
            try match goal with
                | |- context [truthy ?x] => destruct (truthy x)
                end);
    first [ exists []; split; [reflexivity | constructor]
          | eexists [_]; split;
            [reflexivity | repeat (constructor; try reflexivity)]
          | eexists [_; _]; split;
            [reflexivity | repeat (constructor; try reflexivity)] ].
Qed.

(** X11. The deck buttons follow the binding.  After a channel was switched
    to its other deck, every deck button of that channel (play, cue, sync,
    reloop, quick jump, ...) sets or toggles controls of the new deck's
    group only, and the buttons of the other channel still address the deck
    that channel was bound to; none of them changes the state of the
    script. *)
Theorem deck_buttons_follow_binding w c :
  reachable w ->
  exists w1,
    exec (toggle_deck_channel c) w = Some w1 /\
    forall h c' value, In h deck_buttons ->
      exists evs,
        h c' value w1 = Some (tt, add_events evs w1) /\
        Forall (addresses
                  (deck_to_group
                     (if channel_eqb c' c
                      then Z.rem (channel_to_deck c w + 2) 4
                      else channel_to_deck c' w))) evs.
Proof.
  intros Hr. apply reachable_core in Hr.
  destruct (toggle_deck_channel_result c w Hr)
    as (w1 & E1 & _ & _ & M1 & O1 & _).
  exists w1. split; [exact E1|]. intros h c' value Hh.
  destruct (deck_button_addresses h c' value w1 Hh) as (evs & E & F).
  exists evs. split; [exact E|].
  replace (if channel_eqb c' c then Z.rem (channel_to_deck c w + 2) 4
           else channel_to_deck c' w) with (channel_to_deck c' w1); [exact F|].
  destruct c, c'; cbn [channel_eqb other] in *; congruence.
Qed.

Lemma deck_buttons_follow_binding_witness :
  exists w1,
    exec (toggle_deck_channel Ch0) started = Some w1 /\
    forall h c' value, In h deck_buttons ->
      exists evs,
        h c' value w1 = Some (tt, add_events evs w1) /\
        Forall (addresses
                  (deck_to_group
                     (if channel_eqb c' Ch0
                      then Z.rem (channel_to_deck Ch0 started + 2) 4
                      else channel_to_deck c' started))) evs.
Proof.
  exact (deck_buttons_follow_binding started Ch0 reachable_started).
Defined.

(** ** Pads and their lights *)

(** X12. The hot cue pads and their lights agree.  The observer of
    [hotcue_N_enabled], called for the deck bound to channel [c], lights
    pad [N] of channel [c] on both layers, the unshifted and the shifted
    one, and sends nothing else; and the pad at either of the two LEDs is
    decoded to channel [c], to the layer of that LED and to hot cue [N]:
    on the unshifted layer it sets [hotcue_N_activate] of the bound deck to
    the value of the press, on the shifted layer it sets [hotcue_N_clear]
    to 1 on a press and does nothing on a release. *)
Theorem hotcue_pad_round_trip `{host_calls} w c p v0 value :
  reachable w -> 0 <= p < 8 ->
  let lit := if truthy v0 then 0x7F else 0x00 in
  In (("hotcue_" ++ number_to_string (p + 1) ++ "_enabled")%string,
      (cb_update_hotcue p, true)) output_control_to_function /\
  sends (cb_update_hotcue p) v0 (channel_to_group c w) (channel_mapping (js w))
  = [ midi_sendShortMsg (0x98 + 2 * channel_index c)
        (constants.pad_modes.hot_cue + p) lit;
      midi_sendShortMsg (0x97 + 2 * channel_index c)
        (constants.pad_modes.hot_cue + p) lit ] /\
  forall shift : bool,
    let st := 0x97 + 2 * channel_index c + (if shift then 1 else 0) in
    padchannel_to_channel (Z.land st 0x0F) = c /\
    padchannel_has_shift (Z.land st 0x0F) = shift /\
    handle_pad (Z.land st 0x0F) (constants.pad_modes.hot_cue + p) value w
    = Some (tt, add_events
                  (if shift then
                     if truthy value
                     then [engine_setValue (channel_to_group c w)
                             ("hotcue_" ++ number_to_string (p + 1) ++ "_clear")%string 1]
                     else []
                   else
                     [engine_setValue (channel_to_group c w)
                        ("hotcue_" ++ number_to_string (p + 1) ++ "_activate")%string
                        value]) w).
Proof.
  intros Hr Hp lit. pose proof (reachable_core w Hr) as Hc.
  assert (Ep : p = 0 \/ p = 1 \/ p = 2 \/ p = 3 \/ p = 4 \/ p = 5 \/ p = 6 \/ p = 7)
    by lia.
  split.
  { destruct Ep as [->|[->|[->|[->|[->|[->|[->| ->]]]]]]]; cbn; auto 30. }
  split.
  { subst lit. split_world w Hc; destruct c;
      destruct Ep as [->|[->|[->|[->|[->|[->|[->| ->]]]]]]];
      cbv -[truthy]; destruct (truthy v0); reflexivity. }
  intros shift st. subst st.
  split; [destruct c, shift; reflexivity|].
  split; [destruct c, shift; reflexivity|].
  split_world w Hc; destruct c, shift;
    destruct Ep as [->|[->|[->|[->|[->|[->|[->| ->]]]]]]];
    cbv -[truthy]; destruct (truthy value); reflexivity.
Qed.

Lemma hotcue_pad_round_trip_witness :
  sends (cb_update_hotcue 2) 1 (channel_to_group Ch1 started)
        (channel_mapping (js started))
  = [ midi_sendShortMsg 0x9A 0x02 0x7F; midi_sendShortMsg 0x99 0x02 0x7F ] /\
  padchannel_has_shift (Z.land 0x9A 0x0F) = true /\
  @handle_pad no_calls (Z.land 0x9A 0x0F) 0x02 0x7F started
  = Some (tt, add_events
                [engine_setValue (channel_to_group Ch1 started) "hotcue_3_clear" 1]
                started) /\
  padchannel_has_shift (Z.land 0x99 0x0F) = false /\
  @handle_pad no_calls (Z.land 0x99 0x0F) 0x02 0x7F started
  = Some (tt, add_events
                [engine_setValue (channel_to_group Ch1 started)
                   "hotcue_3_activate" 0x7F]
                started).
Proof.
  destruct (@hotcue_pad_round_trip no_calls started Ch1 2 1 0x7F
              reachable_started ltac:(lia)) as (_ & Hs & Hd).
  destruct (Hd true) as (_ & S1 & P1). destruct (Hd false) as (_ & S0 & P0).
  split; [exact Hs|]. split; [exact S1|]. split; [exact P1|].
  split; [exact S0 | exact P0].
Defined.

(** X13. The beat loop pads and their lights agree.  The pad at the LED the
    observer of [beatloop_S_enabled] drives is decoded to the same channel
    and size: pressed, it sets [beatloop_S_toggle] of the bound deck to 1;
    released, it does nothing. *)
Theorem beatloop_pad_round_trip `{host_calls} w c p size v0 value st d1 x :
  reachable w -> lookupZ beatloop_sizes p = Some size ->
  In (midi_sendShortMsg st d1 x)
     (sends (cb_update_beatloop p) v0 (channel_to_group c w)
            (channel_mapping (js w))) ->
  In (("beatloop_" ++ size ++ "_enabled")%string, (cb_update_beatloop p, true))
     output_control_to_function /\
  padchannel_has_shift (Z.land st 0x0F) = false /\
  handle_pad (Z.land st 0x0F) d1 value w
  = Some (tt, add_events
                (if truthy value
                 then [engine_setValue (channel_to_group c w)
                         ("beatloop_" ++ size ++ "_toggle")%string 1]
                 else []) w).
Proof.
  intros Hr Hp Hin. pose proof (reachable_core w Hr) as Hc.
  assert (Ep : p = 0 \/ p = 1 \/ p = 2 \/ p = 3 \/ p = 4 \/ p = 5 \/ p = 6 \/ p = 7).
  { unfold lookupZ in Hp. destruct (p <? 0) eqn:E; [discriminate|].
    apply Z.ltb_ge in E.
    assert (Hl : (Z.to_nat p < List.length beatloop_sizes)%nat).
    { apply nth_error_Some. rewrite Hp. discriminate. }
    cbn in Hl. lia. }
  split.
  { destruct Ep as [->|[->|[->|[->|[->|[->|[->| ->]]]]]]];
      injection Hp as <-; cbn; auto 30. }
  split_world w Hc; destruct c;
    destruct Ep as [->|[->|[->|[->|[->|[->|[->| ->]]]]]]];
    injection Hp as <-;
    vm_compute in Hin; destruct (truthy v0);
    repeat destruct Hin as [Hin|Hin]; try contradiction;
    injection Hin as <- <- <-;
    (split; [reflexivity|]);
    cbv -[truthy]; destruct (truthy value); reflexivity.
Qed.

Lemma beatloop_pad_round_trip_witness :
  @handle_pad no_calls (Z.land 0x97 0x0F) 0x62 0x7F started
  = Some (tt, add_events
                (if truthy 0x7F
                 then [engine_setValue (channel_to_group Ch0 started)
                         ("beatloop_" ++ "1" ++ "_toggle")%string 1]
                 else []) started).
Proof.
  refine (proj2 (proj2 (@beatloop_pad_round_trip no_calls started Ch0 2 "1" 1
                          0x7F 0x97 0x62 0x7F reachable_started _ _))).
  - reflexivity.
  - vm_compute. auto.
Defined.

(** X14. The sampler pads and their lights agree.  When sampler [name] is
    the [p]-th sampler of the deck bound to channel [c], its observer
    lights pad [p] of channel [c], on both layers and nowhere else; and the
    pad at either LED, when pressed, acts on that sampler only. *)
Theorem sampler_pad_round_trip `{host_calls} w c l p name v0 value w1 :
  reachable w ->
  lookupZ constants.sampler_groups (channel_to_deck c w) = Some l ->
  lookupZ l p = Some name ->
  exec (update_sampler v0 name) w = Some w1 ->
  let lit := if truthy v0 then 0x7F else 0 in
  log (host w1)
  = [ midi_sendShortMsg (0x98 + 2 * channel_index c)
        (constants.pad_modes.sampler + p) lit;
      midi_sendShortMsg (0x97 + 2 * channel_index c)
        (constants.pad_modes.sampler + p) lit ] ++ log (host w) /\
  forall shift : bool,
    let st := 0x97 + 2 * channel_index c + (if shift then 1 else 0) in
    padchannel_to_channel (Z.land st 0x0F) = c /\
    padchannel_has_shift (Z.land st 0x0F) = shift /\
    exists evs,
      handle_pad (Z.land st 0x0F) (constants.pad_modes.sampler + p) value w
      = Some (tt, add_events evs w) /\
      Forall (addresses name) evs.
Proof.
  intros Hr Hl Hp E. pose proof (reachable_core w Hr) as Hc.
  pose proof (core_num_decks w Hc) as Hn.
  assert (Ep : p = 0 \/ p = 1 \/ p = 2 \/ p = 3 \/ p = 4 \/ p = 5 \/ p = 6 \/ p = 7).
  { assert (Hlen : List.length l = 8%nat).
    { apply lookupZ_in in Hl. cbn in Hl.
      repeat destruct Hl as [<-|Hl]; try contradiction; reflexivity. }
    unfold lookupZ in Hp. destruct (p <? 0) eqn:E0; [discriminate|].
    apply Z.ltb_ge in E0.
    assert (Hlt : (Z.to_nat p < List.length l)%nat).
    { apply nth_error_Some. rewrite Hp. discriminate. }
    lia. }
  unfold get_num_decks, engine_getValue in Hn.
  split_world w Hc; cbn in Hn; destruct c; vm_compute in Hl;
    injection Hl as <-;
    destruct Ep as [->|[->|[->|[->|[->|[->|[->| ->]]]]]]];
    injection Hp as <-;
    unfold exec, update_sampler, bind at 1, gets at 1, get_num_decks,
      engine_getValue in E;
    cbn [host controls] in E; rewrite Hn in E;
    cbv -[truthy] in E; destruct (truthy v0);
    injection E as <-;
    (split; [reflexivity|]);
    intros [|]; (split; [reflexivity|]); (split; [reflexivity|]);
    cbv -[truthy addresses add_events];
    repeat match goal with
           | |- context [truthy ?x] => destruct (truthy x)
           end;
    first [ exists []; split; [reflexivity | constructor]
          | eexists [_]; split;
            [reflexivity | repeat (constructor; try reflexivity)] ].
Qed.

Lemma sampler_pad_round_trip_witness :
  exists w1,
    exec (update_sampler 1 "[Sampler12]") started = Some w1 /\
    log (host w1)
    = [ midi_sendShortMsg 0x9A 0x33 0x7F; midi_sendShortMsg 0x99 0x33 0x7F ]
      ++ log (host started).
Proof.
  destruct (exec (update_sampler 1 "[Sampler12]") started) as [w1|] eqn:E.
  - exists w1. split; [reflexivity|].
    exact (proj1 (@sampler_pad_round_trip no_calls started Ch1 _ 3 "[Sampler12]"
                    1 0 w1 reachable_started eq_refl eq_refl E)).
  - vm_compute in E. discriminate E.
Defined.

(** ** Effects *)

Lemma switched_focus_cycles (next : bool) n old :
  1 <= n -> 0 <= old <= n ->
  switched_focus next n old
  = Some (if old =? 0 then 1
          else if next then (if old =? n then 1 else old + 1)
               else (if old =? 1 then n else old - 1)).
Proof.
  intros Hn Ho. unfold switched_focus, truthy, js_rem.
  destruct (Z.eqb_spec old 0) as [->|H0]; [reflexivity|]. cbn [negb].
  replace (n =? 0) with false by (symmetry; apply Z.eqb_neq; lia).
  destruct next.
  - replace (old - 1 + 1 <? 0) with false by (symmetry; apply Z.ltb_ge; lia).
    cbn [option_map]. f_equal.
    destruct (Z.eqb_spec old n) as [->|Hne].
    + replace (n - 1 + 1) with n by lia. rewrite Z.rem_same by lia. reflexivity.
    + rewrite Z.rem_small by lia. lia.
  - destruct (Z.eqb_spec old 1) as [->|H1].
    + change (1 - 1 + -1 <? 0) with true. cbn [option_map]. f_equal. lia.
    + replace (old - 1 + -1 <? 0) with false by (symmetry; apply Z.ltb_ge; lia).
      cbn [option_map]. f_equal. rewrite Z.rem_small by lia. lia.
Qed.

Lemma switched_focus_back (next : bool) n old :
  1 <= n -> 1 <= old <= n ->
  let new := if next then (if old =? n then 1 else old + 1)
             else (if old =? 1 then n else old - 1) in
  1 <= new <= n /\ switched_focus (negb next) n new = Some old.
Proof.
  intros Hn Ho new.
  assert (Hnew : 1 <= new <= n).
  { unfold new. destruct next;
      [destruct (Z.eqb_spec old n) | destruct (Z.eqb_spec old 1)]; lia. }
  split; [exact Hnew|].
  rewrite switched_focus_cycles by lia. f_equal.
  destruct (Z.eqb_spec new 0); [lia|]. unfold new in *. clear new.
  destruct next; cbn [negb].
  - destruct (Z.eqb_spec old n).
    + rewrite Z.eqb_refl. lia.
    + destruct (Z.eqb_spec (old + 1) 1); lia.
  - destruct (Z.eqb_spec old 1).
    + rewrite Z.eqb_refl. lia.
    + destruct (Z.eqb_spec (old - 1) n); lia.
Qed.

(** X15. Stepping through the slots of the active effect unit stays inside
    the unit and wraps around.  With [n >= 1] slots and the slot [old]
    focused (0: none), [switch_effect_slot] asks the host for exactly one
    change of [focused_effect]: to slot 1 when none is focused, else to the
    next slot, or from the last to the first; backwards to the previous
    one, or from the first to the last.  So a step forwards and a step
    backwards undo each other. *)
Theorem effect_slot_cycles `{host_calls} w (next : bool) :
  reachable w ->
  let unit := active_effect_unit w in
  let g := get_effect_unit_group unit in
  let n := get_num_effect_slots unit w in
  let old := engine_getValue g "focused_effect" w in
  let new := if old =? 0 then 1
             else if next then (if old =? n then 1 else old + 1)
                  else (if old =? 1 then n else old - 1) in
  1 <= n -> 0 <= old <= n ->
  switch_effect_slot next w
  = Some (tt, add_events [engine_setValue g "focused_effect" new] w) /\
  1 <= new <= n /\
  (1 <= old ->
   switched_focus (negb next) n new = Some old).
Proof.
  intros Hr unit g n old new Hn Ho. pose proof (reachable_core w Hr) as Hc.
  assert (Hd : exists x, lookupZ (deck (js w)) (get_effect_deck w) = Some x).
  { apply core_deck_cell; [exact Hc|]. apply core_mapping_range, Hc. }
  destruct Hd as (x & Hx).
  assert (Eu : unit = effect_unit x).
  { unfold unit, active_effect_unit, get_deck_effect_unit, bind, deck_cell.
    rewrite Hx. reflexivity. }
  split; [|split].
  - unfold switch_effect_slot. unfold bind at 1. unfold gets at 1.
    unfold bind at 1.
    unfold get_deck_effect_unit at 1, bind at 1, deck_cell at 1. rewrite Hx.
    unfold ret at 1. unfold bind at 1. unfold gets at 1. unfold bind at 1.
    unfold get_focussed_effect, get_deck_effect_unit_group,
      get_deck_effect_unit, bind, deck_cell, gets, ret. rewrite Hx.
    rewrite <- Eu. fold g. fold n. fold old.
    rewrite switched_focus_cycles by assumption. fold new.
    unfold setValue, emit, modify. destruct w as [s []]. reflexivity.
  - unfold new. destruct (Z.eqb_spec old 0); [lia|].
    apply switched_focus_back; lia.
  - intros H1. unfold new. destruct (Z.eqb_spec old 0); [lia|].
    apply switched_focus_back; lia.
Qed.

Lemma reachable_three_slots : reachable (after three_slots_last_focused).
Proof.
  apply (reachable_run three_slots_last_focused started);
    [exact reachable_started | reflexivity | vm_compute; reflexivity].
Defined.

Lemma effect_slot_cycles_witness :
  @switch_effect_slot no_calls true (after three_slots_last_focused)
  = Some (tt, add_events
                [engine_setValue "[EffectRack1_EffectUnit1]" "focused_effect" 1]
                (after three_slots_last_focused)).
Proof.
  refine (proj1 (@effect_slot_cycles no_calls (after three_slots_last_focused)
                   true reachable_three_slots _ _));
    vm_compute; try split; discriminate.
Defined.

(** ** The effect units of the decks *)

Lemma map_list_set {A B} (f : A -> B) (l : list A) n x :
  map f (list_set l n x) = list_set (map f l) n (f x).
Proof.
  revert n. induction l as [|y l IH]; intros [|n]; cbn; auto. f_equal. apply IH.
Qed.

Lemma list_set_same {A} (l : list A) n x :
  nth_error l n = Some x -> list_set l n x = l.
Proof.
  revert n. induction l as [|y l IH]; intros [|n]; cbn; try discriminate.
  - intros [= ->]. reflexivity.
  - intros E. f_equal. apply IH, E.
Qed.

(** Writing the loop adjust state of a deck keeps its effect unit. *)
Lemma update_deck_cell_units d (g : deck_state -> option Z) :
  respects (same effect_units)
    (update_deck_cell d (fun c => DeckState (g c) (effect_unit c))).
Proof.
  intros w u w' E. unfold update_deck_cell, bind, deck_cell in E.
  destruct (lookupZ (deck (js w)) d) as [c|] eqn:Hc; [|discriminate].
  unfold modify in E. injection E as _ <-.
  unfold same, effect_units. destruct w as [[] e]. cbn in *.
  rewrite map_list_set. cbn. apply list_set_same.
  unfold lookupZ in Hc. destruct (d <? 0); [discriminate|].
  rewrite nth_error_map, Hc. reflexivity.
Qed.

Ltac units_walk :=
  repeat lazymatch goal with
  | |- forall _, _ => intro
  | |- PreOrder _ => exact _
  | |- respects _ (update_deck_cell _ (fun c => DeckState ?g (effect_unit c))) =>
      apply (update_deck_cell_units _ (fun c => g))
  | |- respects _ (bind _ _) => apply respects_bind
  | |- respects _ (ret _) => apply respects_ret
  | |- respects _ (gets _) => apply respects_gets
  | |- respects _ throw => apply respects_throw
  | |- respects _ (deck_cell _) => apply respects_reads, reads_deck_cell
  | |- respects _ (for_each _ _) => apply respects_for_each
  | |- respects _ (modify _) => apply respects_modify; intro; same_leaf
  | |- respects _ (if ?b then _ else _) => destruct b
  | |- respects _ (match ?x with _ => _ end) => destruct x
  | |- respects _ (let _ := _ in _) => cbv zeta
  | |- respects _ ?m => let h := head_of m in unfold h
  end.

Lemma handle_units i : respects (same effect_units) (handle i).
Proof. units_walk. Qed.

Lemma rest_of_init_units :
  respects (same effect_units)
    (update_channel_cell Ch0 (fun cs =>
       ChannelState (shift_button_pressed cs) (shift_double cs) (shift_time cs)
                    (Some 0) (current_loop_modifier cs)) ;;
     update_channel_cell Ch1 (fun cs =>
       ChannelState (shift_button_pressed cs) (shift_double cs) (shift_time cs)
                    (Some 0) (current_loop_modifier cs)) ;;
     update_beatjump_shift_lights Ch0 ;;
     update_beatjump_shift_lights Ch1 ;;
     set_backspin_length constants.backspin_length ;;
     update_brake_light ;;
     head_split <- gets (engine_getValue "[Master]" "headSplit") ;;
     update_head_split_light head_split ;;
     conn <- makeConnection "[Master]" "headSplit" cb_update_head_split_light ;;
     set_persistent_connection "head_split" conn ;;
     set_current_loop_modifier Ch0 constants.loop_modifiers.none ;;
     set_current_loop_modifier Ch1 constants.loop_modifiers.none ;;
     num_effect_units <- gets (engine_getValue "[EffectRack1]" "num_effectunits") ;;
     for_each (js_range 1 (num_effect_units + 1)) (fun unit =>
       let unit_group := get_effect_unit_group (Some unit) in
       softTakeover unit_group "mix" true ;;
       setValue unit_group "show_focus" 1 ;;
       conn <- makeConnection unit_group "focused_effect" cb_update_fx_light ;;
       set_persistent_connection
         ("effect_unit_" ++ number_to_string unit ++ "_focussed")%string conn ;;
       num_effect_slots <- gets (get_num_effect_slots (Some unit)) ;;
       for_each (js_range 1 (num_effect_slots + 1)) (fun slot =>
         let effect_group := get_effect_group (Some unit) slot in
         softTakeover effect_group "meta" true ;;
         conn <- makeConnection effect_group "enabled" cb_update_fx_light ;;
         set_persistent_connection
           ("effect_unit_" ++ number_to_string unit ++ "_slot_"
            ++ number_to_string slot ++ "_enabled")%string conn)) ;;
     for_each (js_range 0 4) (fun d =>
       let group := deck_to_group d in
       let eq_group := ("[EqualizerRack1_" ++ group ++ "_Effect1]")%string in
       print_line ("Setting up soft takeover for: " ++ eq_group)%string ;;
       softTakeover eq_group "parameter1" true ;;
       softTakeover eq_group "parameter2" true ;;
       softTakeover eq_group "parameter3" true ;;
       softTakeover ("[QuickEffectRack1_" ++ group ++ "]")%string "super1" true ;;
       softTakeover group "pregain" true ;;
       softTakeover group "volume" true) ;;
     connect_channel Ch0 ;;
     connect_channel Ch1).
Proof. units_walk. Qed.

Lemma init_units e w :
  controls e "[Master]" "num_decks" = 4 ->
  exec init (World initial_state e) = Some w ->
  effect_units w = map Some constants.default_effect_unit.
Proof.
  intros Hn E. apply exec_some in E as [u E]. unfold init in E.
  destruct e as [ctrls lcs lts nc nt lg]. cbn in Hn.
  unfold bind at 1 in E.
  change (track_loaded_animation 1 "0" ?w)
    with (Some (tt, add_events [midi_sendShortMsg 0x9F 0 0x7F] w)) in E.
  cbv iota beta in E. unfold bind at 1 in E.
  change (track_loaded_animation 1 "1" ?w)
    with (Some (tt, add_events [midi_sendShortMsg 0x9F 0 0x7F] w)) in E.
  cbv iota beta in E. unfold bind at 1, gets at 1 in E. cbv iota beta in E.
  change (get_num_decks _) with (ctrls "[Master]" "num_decks") in E.
  rewrite Hn in E. change (js_range 0 4) with [0; 1; 2; 3] in E.
  unfold bind at 1 in E.
  match type of E with
  | match ?m with _ => _ end = _ =>
      let r := eval vm_compute in m in change m with r in E
  end.
  cbv iota beta in E.
  apply rest_of_init_units in E. rewrite E. reflexivity.
Qed.

Lemma reachable_units w :
  reachable w -> effect_units w = map Some constants.default_effect_unit.
Proof.
  induction 1 as [e w _ Hn E | w i w' _ IH _ E].
  - apply (init_units e w Hn E).
  - apply exec_some in E as [u E]. rewrite (handle_units i w u w' E). exact IH.
Qed.

(** X16. Assigning the beat effect to a channel is exclusive and stays
    inside the active effect unit.  Every press of one of the assign buttons
    writes all five enable controls of the active unit: the four decks,
    then the master.  A deck is enabled only when the button is that of the
    channel bound to the deck and the deck belongs to the active unit
    ([default_effect_unit]); the master only by its own button.  So at most
    one of the five is enabled, and the button of a channel whose deck
    belongs to the other unit disables all of them. *)
Theorem beat_fx_channel_routes `{host_calls} w control value :
  reachable w -> value <> 0 ->
  let a := get_effect_deck w in
  let g := get_effect_unit_group (active_effect_unit w) in
  let unit_of (d : Z) := nth (Z.to_nat d) constants.default_effect_unit 0 in
  let chosen (d : Z) :=
    (((control =? 0x10) && (channel_to_deck Ch0 w =? d))
     || ((control =? 0x11) && (channel_to_deck Ch1 w =? d)))
    && (unit_of d =? unit_of a) in
  beat_fx_channel control value w
  = Some (tt, add_events
       (engine_setValue g "group_[Master]_enable"
                        (if control =? 0x14 then 1 else 0)
        :: rev (map (fun d =>
                  engine_setValue g
                    ("group_[Channel" ++ number_to_string (d + 1)
                     ++ "]_enable")%string
                    (if chosen d then 1 else 0)) [0; 1; 2; 3])) w).
Proof.
  intros Hr Hv. cbv zeta.
  pose proof (reachable_core w Hr) as Hc.
  pose proof (reachable_units w Hr) as Hu.
  pose proof (core_num_decks w Hc) as Hn.
  unfold beat_fx_channel. rewrite (proj2 (Z.eqb_neq value 0) Hv).
  unfold bind at 1, gets at 1. rewrite Hn.
  unfold get_num_decks, engine_getValue, effect_units in *.
  split_world w Hc; destruct ls; cbn in Hu, Hn;
    destruct x0, x1, x2, x3; cbn in Hu; injection Hu as -> -> -> ->;
    (destruct (control =? 16) eqn:E10;
     [apply Z.eqb_eq in E10; subst control
     |destruct (control =? 17) eqn:E11;
      [apply Z.eqb_eq in E11; subst control
      |destruct (control =? 20) eqn:E14;
       [apply Z.eqb_eq in E14; subst control|]]]);
    vm_compute; reflexivity.
Qed.

Lemma beat_fx_channel_routes_witness :
  @beat_fx_channel no_calls 0x10 0x7F started
  = Some (tt, add_events
       [ engine_setValue "[EffectRack1_EffectUnit1]" "group_[Master]_enable" 0;
         engine_setValue "[EffectRack1_EffectUnit1]" "group_[Channel4]_enable" 0;
         engine_setValue "[EffectRack1_EffectUnit1]" "group_[Channel3]_enable" 0;
         engine_setValue "[EffectRack1_EffectUnit1]" "group_[Channel2]_enable" 0;
         engine_setValue "[EffectRack1_EffectUnit1]" "group_[Channel1]_enable" 1 ]
       started).
Proof.
  exact (@beat_fx_channel_routes no_calls started 0x10 0x7F reachable_started
           ltac:(discriminate)).
Defined.

(** ** The jog wheel in loop adjust *)

Lemma jog_in_adjust `{host_calls} c ticks touch w s :
  0 < get_loop_active (channel_to_group c w) w ->
  get_loop_adjust_state (channel_to_deck c w) w = Some (s, w) ->
  let g := channel_to_group c w in
  let moved (key : string) :=
    Some (tt, add_events
                [engine_setValue g key
                   ((ticks - 64) * loop_adjust_multiply + engine_getValue g key w)]
                w) in
  jogTurn c ticks w
  = (if s =? constants.loop_modifiers.adjust_in then moved "loop_start_position"
     else if s =? constants.loop_modifiers.adjust_out
          then moved "loop_end_position"
          else jog_move (channel_to_deck c w + 1) g (ticks - 64) w) /\
  (s <> constants.loop_modifiers.none -> jogTouch c touch w = Some (tt, w)).
Proof.
  intros Ha Es. cbv zeta. split.
  - unfold jogTurn. unfold bind at 1, gets at 1. cbv zeta.
    unfold bind at 1, gets at 1. fold (channel_to_group c w).
    replace (0 <? _) with true by (symmetry; apply Z.ltb_lt; exact Ha).
    unfold bind at 1. rewrite Es.
    destruct (s =? constants.loop_modifiers.adjust_in);
      [|destruct (s =? constants.loop_modifiers.adjust_out)];
      try reflexivity;
      unfold bind, gets, setValue, emit, modify; destruct w as [st []];
      reflexivity.
  - intros Hs. unfold jogTouch. unfold bind at 1, gets at 1.
    unfold bind at 1. rewrite Es.
    replace (s =? constants.loop_modifiers.none) with false
      by (symmetry; apply Z.eqb_neq; exact Hs).
    reflexivity.
Qed.

Lemma jog_after_button `{host_calls} w c v ticks touch :
  reachable w -> truthy v = true ->
  0 < get_loop_active (channel_to_group c w) w ->
  get_loop_adjust_state (channel_to_deck c w) w
  = Some (constants.loop_modifiers.none, w) ->
  let g := channel_to_group c w in
  forall (button : channel -> Z -> M unit) (i : input) (key : string),
    (button = loop_in /\ i = in_loop_in c v /\ key = "loop_start_position") \/
    (button = loop_out /\ i = in_loop_out c v /\ key = "loop_end_position") ->
    exists w1 w2,
      exec (button c v) w = Some w1 /\
      jogTurn c ticks w1
      = Some (tt, add_events
                    [engine_setValue g key
                       ((ticks - 64) * 50 + engine_getValue g key w)] w1) /\
      jogTouch c touch w1 = Some (tt, w1) /\
      exec (button c v) w1 = Some w2 /\
      jogTurn c ticks w2
      = jog_move (channel_to_deck c w + 1) g (ticks - 64) w2.
Proof.
  intros Hr Hv Ha Es g button i key Hb.
  pose proof (reachable_core w Hr) as Hc.
  assert (Ht : truthy (get_loop_active (channel_to_group c w) w) = true).
  { unfold truthy. apply negb_true_iff, Z.eqb_neq. lia. }
  set (which := if String.eqb key "loop_start_position"
                then constants.loop_modifiers.adjust_in
                else constants.loop_modifiers.adjust_out).
  assert (Hw : (button = loop_in /\ which = constants.loop_modifiers.adjust_in) \/
               (button = loop_out /\ which = constants.loop_modifiers.adjust_out)).
  { destruct Hb as [(-> & _ & ->)|(-> & _ & ->)]; [left|right]; auto. }
  assert (Hi : handle i = button c v).
  { destruct Hb as [(-> & -> & _)|(-> & -> & _)]; reflexivity. }
  assert (Hk : keeps_num_decks 4 i = true).
  { destruct Hb as [(_ & -> & _)|(_ & -> & _)]; reflexivity. }
  destruct (loop_request c v w which button Hw Hc Hv Ht _ Es)
    as (w1 & E1 & S1 & C1 & M1).
  assert (Hr1 : reachable w1).
  { apply (reachable_step w i w1 Hr Hk). rewrite Hi. exact E1. }
  assert (Ed : channel_to_deck c w1 = channel_to_deck c w)
    by (unfold channel_to_deck; rewrite M1; reflexivity).
  assert (Eg : channel_to_group c w1 = g)
    by (unfold channel_to_group; rewrite Ed; reflexivity).
  assert (Ha1 : 0 < get_loop_active (channel_to_group c w1) w1).
  { rewrite Eg. unfold get_loop_active, engine_getValue. rewrite C1. exact Ha. }
  assert (Ht1 : truthy (get_loop_active (channel_to_group c w1) w1) = true).
  { unfold truthy. apply negb_true_iff, Z.eqb_neq. lia. }
  assert (Hne : which <> constants.loop_modifiers.none).
  { destruct Hw as [[_ ->]|[_ ->]]; discriminate. }
  replace (if constants.loop_modifiers.none =? which
           then constants.loop_modifiers.none else which) with which in S1
    by (destruct (Z.eqb_spec constants.loop_modifiers.none which); congruence).
  rewrite <- Ed in S1.
  destruct (jog_in_adjust c ticks touch w1 which Ha1 S1) as [J1 T1].
  destruct (loop_request c v w1 which button Hw (reachable_core _ Hr1) Hv Ht1 _ S1)
    as (w2 & E2 & S2 & C2 & M2).
  rewrite Z.eqb_refl in S2.
  assert (Ed2 : channel_to_deck c w2 = channel_to_deck c w1)
    by (unfold channel_to_deck; rewrite M2; reflexivity).
  assert (Ha2 : 0 < get_loop_active (channel_to_group c w2) w2).
  { unfold channel_to_group. rewrite Ed2. fold (channel_to_group c w1).
    unfold get_loop_active, engine_getValue. rewrite C2. exact Ha1. }
  rewrite <- Ed2 in S2.
  destruct (jog_in_adjust c ticks touch w2 _ Ha2 S2) as [J2 _].
  exists w1, w2. split; [exact E1|]. split; [|split; [|split]].
  - rewrite J1. cbv zeta. rewrite Eg. unfold engine_getValue. rewrite C1.
    destruct Hb as [(_ & _ & ->)|(_ & _ & ->)]; reflexivity.
  - apply T1, Hne.
  - exact E2.
  - rewrite J2. cbv zeta. unfold channel_to_group. rewrite Ed2, Ed.
    reflexivity.
Qed.

(** X17. The loop-in and loop-out buttons decide what the jog wheel does
    while a loop is active.  After a press of loop-in (no adjust mode
    before), every tick of the wheel moves [loop_start_position] of the
    bound deck by 50 per step from the centre value 64 and does nothing
    else, and touching the wheel does not start scratching; after a press
    of loop-out the same holds for [loop_end_position]; after a second
    press of the same button the wheel is back to moving the track. *)
Theorem jog_follows_loop_buttons `{host_calls} w c v ticks touch :
  reachable w -> truthy v = true ->
  0 < get_loop_active (channel_to_group c w) w ->
  get_loop_adjust_state (channel_to_deck c w) w
  = Some (constants.loop_modifiers.none, w) ->
  let g := channel_to_group c w in
  (exists w1 w2,
     exec (loop_in c v) w = Some w1 /\
     jogTurn c ticks w1
     = Some (tt, add_events
                   [engine_setValue g "loop_start_position"
                      ((ticks - 64) * 50
                       + engine_getValue g "loop_start_position" w)] w1) /\
     jogTouch c touch w1 = Some (tt, w1) /\
     exec (loop_in c v) w1 = Some w2 /\
     jogTurn c ticks w2
     = jog_move (channel_to_deck c w + 1) g (ticks - 64) w2) /\
  (exists w1 w2,
     exec (loop_out c v) w = Some w1 /\
     jogTurn c ticks w1
     = Some (tt, add_events
                   [engine_setValue g "loop_end_position"
                      ((ticks - 64) * 50
                       + engine_getValue g "loop_end_position" w)] w1) /\
     jogTouch c touch w1 = Some (tt, w1) /\
     exec (loop_out c v) w1 = Some w2 /\
     jogTurn c ticks w2
     = jog_move (channel_to_deck c w + 1) g (ticks - 64) w2).
Proof.
  intros Hr Hv Ha Es g. split.
  - apply (jog_after_button w c v ticks touch Hr Hv Ha Es loop_in
             (in_loop_in c v) "loop_start_position"). left. auto.
  - apply (jog_after_button w c v ticks touch Hr Hv Ha Es loop_out
             (in_loop_out c v) "loop_end_position"). right. auto.
Qed.

Lemma jog_follows_loop_buttons_witness :
  exists w1 w2,
    exec (loop_in Ch0 0x7F) (after loop_on_deck0) = Some w1 /\
    @jogTurn no_calls Ch0 70 w1
    = Some (tt, add_events
                  [engine_setValue "[Channel1]" "loop_start_position" 300] w1) /\
    @jogTouch no_calls Ch0 0x7F w1 = Some (tt, w1) /\
    exec (loop_in Ch0 0x7F) w1 = Some w2 /\
    @jogTurn no_calls Ch0 70 w2 = Some (tt, w2).
Proof.
  refine (proj1 (@jog_follows_loop_buttons no_calls (after loop_on_deck0) Ch0
                   0x7F 70 0x7F reachable_loop_on_deck0 eq_refl _ _));
    vm_compute; reflexivity.
Defined.

(** ** The lights of the beatjump scale pads *)

Lemma led_off_scale evs l st d1 :
  Forall off_scale evs -> In (st, d1) scale_pads ->
  led (evs ++ l) st d1 = led l st d1.
Proof.
  induction 1 as [|e evs He _ IH]; intros Hin; [reflexivity|].
  destruct e; simpl; auto.
  destruct ((st0 =? st) && (d0 =? d1)) eqn:E; auto.
  apply andb_true_iff in E as [E1 E2]. apply Z.eqb_eq in E1, E2. subst.
  exfalso.
  apply (disjointb_spec [(st, d1)] scale_pads (st, d1) He);
    [left; reflexivity | exact Hin].
Qed.

(** A stretch of the run that sends nothing to the scale pads and keeps the
    steps keeps what the scale pads show. *)
Lemma scale_lights_kept w w' :
  log_grows off_scale w w' -> same scale_steps w w' ->
  scale_lights_shown w -> scale_lights_shown w'.
Proof.
  intros (evs & El & Fe) Hs Hw c. unfold same, scale_steps in Hs.
  injection Hs as S0 S1. specialize (Hw c).
  assert (S : beatjump_scalestep (channel_cell c w')
              = beatjump_scalestep (channel_cell c w))
    by (destruct c; [exact S0 | exact S1]).
  unfold scale_lights_of, allow_beatjump_downscale, allow_beatjump_upscale in *.
  rewrite El, !(led_off_scale _ _ _ _ Fe), S
    by (destruct c; cbn; auto 10).
  exact Hw.
Qed.

Lemma off_scale_footprint l a :
  disjointb l scale_pads = true -> In a l -> disjointb [a] scale_pads = true.
Proof.
  unfold disjointb. rewrite forallb_forall. intros H Ha.
  cbn [forallb]. rewrite (H a Ha). reflexivity.
Qed.

Lemma confined_off_scale (K : string -> Prop) (A : Z * Z -> Prop)
  (F : callback -> Prop) l w w' :
  (forall a, A a -> In a l) -> disjointb l scale_pads = true ->
  confined K A F w w' -> log_grows off_scale w w'.
Proof.
  intros HA Hd (_ & _ & _ & _ & _ & evs & El & Fe).
  exists evs. split; [exact El|].
  eapply Forall_impl; [|exact Fe].
  intros e He. destruct e; try exact I.
  cbn [allowed] in He. cbn [off_scale].
  eapply off_scale_footprint; [exact Hd | apply HA, He].
Qed.

(** No entry of the table of outputs drives a scale pad. *)
Lemma table_off_scale ctl f (trig : bool) :
  In (ctl, (f, trig)) output_control_to_function ->
  disjointb (footprint f) scale_pads = true.
Proof.
  intros Hin.
  assert (H : forallb (fun e => disjointb (footprint (fst (snd e))) scale_pads)
                      output_control_to_function = true)
    by (vm_compute; reflexivity).
  rewrite forallb_forall in H. exact (H _ Hin).
Qed.

Ltac scale_leaf :=
  idtac;
  match goal with
  | |- log_grows _ ?w _ =>
      let s := fresh "s" in
      let e := fresh "e" in
      destruct w as [s e]; destruct s, e; unfold log_grows; cbn;
      first [ exists []; split; [reflexivity | constructor]
            | eexists [_]; split;
              [ reflexivity
              | constructor;
                [ first [ exact I
                        | reflexivity
                        | repeat match goal with
                                 | t : timer |- _ => destruct t
                                 | c : channel |- _ => destruct c
                                 | b : bool |- _ => destruct b
                                 end; reflexivity ]
                | constructor ] ] ]
  end.

Lemma connect_channel_off_scale c :
  respects (log_grows off_scale) (connect_channel c).
Proof.
  unfold connect_channel.
  apply respects_bind; try exact _; [apply respects_gets; exact _|].
  intros d. cbv zeta.
  apply respects_bind; try exact _.
  { unfold print_line, emit. apply respects_modify. intro. scale_leaf. }
  intros _. apply respects_bind; try exact _.
  { change (respects (log_grows off_scale)
              (for_each output_control_to_function
                        (connect_one c (deck_to_group d)))).
    apply respects_for_each_in; try exact _.
    intros [ctl [f trig]] Hin.
    destruct (table_entry _ _ _ Hin) as (Hs & _ & _).
    intros w u w' E.
    eapply confined_off_scale;
      [| exact (table_off_scale _ _ _ Hin)
       | exact (connect_one_confined c (deck_to_group d) ctl f trig Hs w u w' E)].
    intros a Ha. exact Ha. }
  intros _ w u w' E.
  eapply confined_off_scale; [| | exact (rest_confined c w u w' E)].
  - intros a Ha. exact Ha.
  - vm_compute. reflexivity.
Qed.

Ltac scale_walk :=
  repeat lazymatch goal with
  | |- forall _, _ => intro
  | |- PreOrder _ => exact _
  | |- respects _ (connect_channel _) => apply connect_channel_off_scale
  | |- respects _ (bind _ _) => apply respects_bind
  | |- respects _ (ret _) => apply respects_ret
  | |- respects _ (gets _) => apply respects_gets
  | |- respects _ throw => apply respects_throw
  | |- respects _ (deck_cell _) => apply respects_reads, reads_deck_cell
  | |- respects _ (for_each (blink_lights ?b) _) =>
      destruct b; cbn [blink_lights for_each]
  | |- respects _ (for_each _ _) => apply respects_for_each
  | |- respects _ (modify _) => apply respects_modify; intro; scale_leaf
  | |- respects _ (if ?b then _ else _) => destruct b
  | |- respects _ (match ?x with _ => _ end) => destruct x
  | |- respects _ (let _ := _ in _) => cbv zeta
  | |- respects _ ?m => let h := head_of m in unfold h
  end.

Lemma toggle_off_scale c :
  respects (log_grows off_scale) (toggle_deck_channel_gateway c).
Proof. scale_walk. Qed.

Lemma shiftPressed_off_scale c v now :
  respects (log_grows off_scale) (shiftPressed c v now).
Proof. scale_walk. Qed.

Lemma loop_in_off_scale c v : respects (log_grows off_scale) (loop_in c v).
Proof. scale_walk. Qed.

Lemma loop_out_off_scale c v : respects (log_grows off_scale) (loop_out c v).
Proof. scale_walk. Qed.

Lemma timer_fire_off_scale id : respects (log_grows off_scale) (timer_fire id).
Proof. scale_walk. Qed.

(** Only the scaling requests change a step. *)
Lemma toggle_steps c :
  respects (same scale_steps) (toggle_deck_channel_gateway c).
Proof. respects_walk same_leaf. Qed.

Lemma shiftPressed_steps c v now :
  respects (same scale_steps) (shiftPressed c v now).
Proof. respects_walk same_leaf. Qed.

Lemma loop_in_steps c v : respects (same scale_steps) (loop_in c v).
Proof. respects_walk same_leaf. Qed.

Lemma loop_out_steps c v : respects (same scale_steps) (loop_out c v).
Proof. respects_walk same_leaf. Qed.

Lemma timer_fire_steps id : respects (same scale_steps) (timer_fire id).
Proof. respects_walk same_leaf. Qed.

Lemma engine_notify_steps g ctl v :
  respects (same scale_steps) (engine_notify g ctl v).
Proof. respects_walk same_leaf. Qed.

Lemma connect_channel_steps c :
  respects (same scale_steps) (connect_channel c).
Proof. respects_walk same_leaf. Qed.

(** Writing the pad lights of channel [c] makes them show the step of [c]
    and leaves those of the other channel. *)
Lemma update_beatjump_shift_lights_shows c w u w' :
  update_beatjump_shift_lights c w = Some (u, w') ->
  scale_lights_of c w' /\
  (scale_lights_of (other c) w -> scale_lights_of (other c) w').
Proof.
  intros E. destruct w as [[m cs ts [c0 c1] dk pc ls] [ctrls lcs lts nc nt lg]].
  cbn in E. injection E as _ <-.
  unfold scale_lights_of, allow_beatjump_downscale, allow_beatjump_upscale.
  destruct c; cbn; auto.
Qed.

(** A scaling request that is carried out. *)
Lemma rescale_shows c delta w u w' :
  scale_lights_shown w ->
  (add_scalestep c delta ;; update_beatjump_shift_lights c) w = Some (u, w') ->
  scale_lights_shown w'.
Proof.
  intros Hw E. apply bind_some in E as ([] & w1 & E0 & E).
  destruct (update_beatjump_shift_lights_shows c _ _ _ E) as [Hc Ho].
  assert (Hw1 : scale_lights_of (other c) w1).
  { specialize (Hw (other c)).
    unfold add_scalestep, update_channel_cell, modify in E0.
    injection E0 as <-.
    destruct w as [[m cs ts [c0 c1] dk pc ls] e]. destruct e.
    unfold scale_lights_of, allow_beatjump_downscale, allow_beatjump_upscale
      in *.
    destruct c; cbn in *; exact Hw. }
  intros c'. destruct (channel_cases c c') as [-> | ->]; auto.
Qed.

(** No live connection has an observer that drives a scale pad. *)
Lemma live_callback_off_scale w x :
  wired w -> In x (live_connections (host w)) ->
  disjointb (footprint (conn_fun x)) scale_pads = true.
Proof.
  intros (T & G & S0 & S1) Hin. destruct (T x Hin) as [Hp | (c & Hc)].
  - apply G in Hp. unfold is_global in Hp.
    destruct (conn_fun x); try discriminate; vm_compute; reflexivity.
  - assert (Hs : is_deck_output (channel_to_deck c w) x
                 || is_sampler_light (channel_to_deck c w) x = true)
      by (destruct c; [apply S0 | apply S1]; exact Hc).
    apply orb_true_iff in Hs as [Hs|Hs].
    + unfold is_deck_output in Hs. apply andb_true_iff in Hs as [_ Hs].
      apply existsb_exists in Hs as ([ctl [f trig]] & He & Hs).
      apply andb_true_iff in Hs as [_ Hs]. cbn [fst snd] in Hs.
      unfold callback_eqb in Hs.
      destruct (callback_eq_dec f (conn_fun x)) as [<-|]; [|discriminate].
      exact (table_off_scale _ _ _ He).
    + unfold is_sampler_light in Hs. apply andb_true_iff in Hs as [Hs _].
      apply andb_true_iff in Hs as [Hs _]. unfold callback_eqb in Hs.
      destruct (callback_eq_dec (conn_fun x) cb_update_sampler) as [->|];
        [|discriminate].
      vm_compute. reflexivity.
Qed.

Lemma run_callback_off_scale f v g :
  disjointb (footprint f) scale_pads = true ->
  respects (log_grows off_scale) (run_callback f v g).
Proof.
  intros Hd w u w' E.
  destruct (callback_eq_dec f cb_update_sampler) as [->|Hf].
  - eapply confined_off_scale;
      [| exact Hd | exact (update_sampler_confined v g w u w' E)].
    intros a Ha. exact Ha.
  - eapply confined_off_scale;
      [| exact Hd | exact (run_callback_confined f v g Hf w u w' E)].
    intros a Ha. exact Ha.
Qed.

(** A control change reaches the observers of live connections only. *)
Lemma engine_notify_off_scale g ctl v w u w' :
  wired w -> engine_notify g ctl v w = Some (u, w') ->
  log_grows off_scale w w'.
Proof.
  intros Hw E. unfold engine_notify in E.
  apply bind_some in E as ([] & w1 & E1 & E).
  unfold modify in E1. injection E1 as <-.
  apply bind_some in E as (conns & w2 & E2 & E).
  unfold gets in E2. injection E2 as <- <-.
  assert (R : log_grows off_scale
                (on_host (fun e =>
                   with_controls (fun g0 c =>
                     if String.eqb g0 g && String.eqb c ctl then v
                     else controls e g0 c) e) w) w').
  { refine (respects_for_each_in (log_grows off_scale) _ _ _ _ _ _ E).
    intros x Hx. apply filter_In in Hx as [Hx _].
    apply run_callback_off_scale, (live_callback_off_scale w); [exact Hw|].
    destruct w as [s []]. exact Hx. }
  destruct R as (evs & El & Fe). exists evs. split; [|exact Fe].
  rewrite El. destruct w as [s []]. reflexivity.
Qed.

(** Every input keeps what the scale pads show. *)
Lemma handle_scale_lights i w u w' :
  wired w -> scale_lights_shown w ->
  handle i w = Some (u, w') -> scale_lights_shown w'.
Proof.
  intros Hw Hs E. destruct i as [c v now|c v|c v|c p|g ctl v|id]; cbn [handle] in E.
  - eapply scale_lights_kept; [| |exact Hs].
    + exact (shiftPressed_off_scale c v now w u w' E).
    + exact (shiftPressed_steps c v now w u w' E).
  - eapply scale_lights_kept; [| |exact Hs].
    + exact (loop_in_off_scale c v w u w' E).
    + exact (loop_in_steps c v w u w' E).
  - eapply scale_lights_kept; [| |exact Hs].
    + exact (loop_out_off_scale c v w u w' E).
    + exact (loop_out_steps c v w u w' E).
  - unfold handle_beatjump_shift in E.
    destruct (p =? 0).
    { eapply scale_lights_kept; [| |exact Hs].
      - exact (toggle_off_scale c w u w' E).
      - exact (toggle_steps c w u w' E). }
    destruct (p =? 1).
    { unfold toggleControl, emit, modify in E. injection E as _ <-.
      eapply scale_lights_kept; [| |exact Hs].
      - destruct w as [s []]. eexists [_].
        split; [reflexivity | constructor; [exact I | constructor]].
      - destruct w as [[] []]. reflexivity. }
    destruct (p =? 3).
    { apply bind_some in E as (grp & w1 & E1 & E).
      unfold gets in E1. injection E1 as <- <-.
      unfold toggleControl, emit, modify in E. injection E as _ <-.
      eapply scale_lights_kept; [| |exact Hs].
      - destruct w as [s []]. eexists [_].
        split; [reflexivity | constructor; [exact I | constructor]].
      - destruct w as [[] []]. reflexivity. }
    apply bind_some in E as (up & w1 & E1 & E).
    unfold gets in E1. injection E1 as <- <-.
    apply bind_some in E as (down & w1 & E1 & E).
    unfold gets in E1. injection E1 as <- <-.
    destruct ((p =? 6) && allow_beatjump_downscale c w);
      [exact (rescale_shows c (-1) w u w' Hs E)|].
    destruct ((p =? 7) && allow_beatjump_upscale c w);
      [exact (rescale_shows c 1 w u w' Hs E)|].
    unfold ret in E. injection E as _ <-. exact Hs.
  - eapply scale_lights_kept; [| |exact Hs].
    + exact (engine_notify_off_scale g ctl v w u w' Hw E).
    + exact (engine_notify_steps g ctl v w u w' E).
  - eapply scale_lights_kept; [| |exact Hs].
    + exact (timer_fire_off_scale id w u w' E).
    + exact (timer_fire_steps id w u w' E).
Qed.

(** [init] writes the pad lights for the step 0 it has just set, and what
    it does after that leaves them. *)
Lemma init_scale_lights e w :
  exec init (World initial_state e) = Some w -> scale_lights_shown w.
Proof.
  intros E. apply exec_some in E as [u E]. unfold init in E.
  apply bind_some in E as (? & w1 & _ & E).
  apply bind_some in E as (? & w2 & _ & E).
  apply bind_some in E as (n & w3 & _ & E).
  apply bind_some in E as (? & w4 & _ & E).
  apply bind_some in E as (? & w5 & _ & E).
  apply bind_some in E as (? & w6 & _ & E).
  apply bind_some in E as (? & w7 & E7 & E).
  apply bind_some in E as (? & w8 & E8 & E).
  destruct (update_beatjump_shift_lights_shows Ch0 _ _ _ E7) as [H7 _].
  destruct (update_beatjump_shift_lights_shows Ch1 _ _ _ E8) as [H8 K8].
  assert (Hs : scale_lights_shown w8) by (intros []; [exact (K8 H7) | exact H8]).
  eapply scale_lights_kept; [| |exact Hs].
  - refine ((_ : respects (log_grows off_scale) _) _ _ _ E). scale_walk.
  - refine ((_ : respects (same scale_steps) _) _ _ _ E).
    respects_walk same_leaf.
Qed.

Lemma reachable_scale_lights w : reachable w -> scale_lights_shown w.
Proof.
  intros Hr. induction Hr as [e w _ _ E | w i w' Hr IH _ E].
  - exact (init_scale_lights e w E).
  - apply exec_some in E as [u E].
    exact (handle_scale_lights i w u w' (reachable_wired w Hr) IH E).
Qed.

(** C9. In every state of a run the beatjump scale step of each channel is
    a number in [-1, 1].  From 0, three decrease requests leave it at -1,
    with the light of the decrease pad off; a decrease request at -1
    changes nothing; the guard [allow_beatjump_downscale] is false exactly
    when the step is -1; and the light of the decrease pad, the LED of pad
    7 of the shifted beat-jump layer, shows that guard in every state of a
    run: it is off exactly when the step is -1.  The same holds for
    increase requests, +1 and pad 8. *)
Theorem beatjump_scale_bounds w c :
  reachable w ->
  let pad (w : world) (n : Z) :=
    led (log (host w)) (0x98 + 2 * channel_index c)
        (constants.pad_modes.beat_jump + n) in
  (exists s, beatjump_scalestep (channel_cell c w) = Some s /\ -1 <= s <= 1) /\
  (beatjump_scalestep (channel_cell c w) = Some 0 ->
   exists w3,
     run [in_beatjump_shift c 6; in_beatjump_shift c 6; in_beatjump_shift c 6] w
     = Some w3 /\
     beatjump_scalestep (channel_cell c w3) = Some (-1) /\
     pad w3 6 = Some 0x00) /\
  (beatjump_scalestep (channel_cell c w) = Some (-1) ->
   exec (handle_beatjump_shift c 6) w = Some w) /\
  (allow_beatjump_downscale c w = false <->
   beatjump_scalestep (channel_cell c w) = Some (-1)) /\
  pad w 6 = Some (if allow_beatjump_downscale c w then 0x7F else 0x00) /\
  (pad w 6 = Some 0x00 <-> beatjump_scalestep (channel_cell c w) = Some (-1)) /\
  (beatjump_scalestep (channel_cell c w) = Some 0 ->
   exists w3,
     run [in_beatjump_shift c 7; in_beatjump_shift c 7; in_beatjump_shift c 7] w
     = Some w3 /\
     beatjump_scalestep (channel_cell c w3) = Some 1 /\
     pad w3 7 = Some 0x00) /\
  (beatjump_scalestep (channel_cell c w) = Some 1 ->
   exec (handle_beatjump_shift c 7) w = Some w) /\
  (allow_beatjump_upscale c w = false <->
   beatjump_scalestep (channel_cell c w) = Some 1) /\
  pad w 7 = Some (if allow_beatjump_upscale c w then 0x7F else 0x00) /\
  (pad w 7 = Some 0x00 <-> beatjump_scalestep (channel_cell c w) = Some 1).
Proof.
  intros Hr pad. pose proof (reachable_core w Hr) as Hc.
  destruct (core_scale _ Hc c) as (s & Es & Hs).
  destruct (reachable_scale_lights w Hr c) as [Ld Lu].
  change (pad w 6 = Some (if allow_beatjump_downscale c w then 0x7F else 0x00))
    in Ld.
  change (pad w 7 = Some (if allow_beatjump_upscale c w then 0x7F else 0x00))
    in Lu.
  assert (Gd : allow_beatjump_downscale c w = false <->
               beatjump_scalestep (channel_cell c w) = Some (-1)).
  { unfold allow_beatjump_downscale. rewrite Es, negb_false_iff, Z.leb_le.
    split; [intros; f_equal; lia | intros [= ->]; lia]. }
  assert (Gu : allow_beatjump_upscale c w = false <->
               beatjump_scalestep (channel_cell c w) = Some 1).
  { unfold allow_beatjump_upscale. rewrite Es, negb_false_iff, Z.geb_le.
    split; [intros; f_equal; lia | intros [= ->]; lia]. }
  split; [eauto|].
  split; [|split; [|split; [exact Gd|split; [exact Ld|split;
    [|split; [|split; [|split; [exact Gu|split; [exact Lu|]]]]]]]]].
  - intros E0.
    destruct (scale_request c w 0 Hr E0) as [(w1 & R1 & S1 & _) _].
    pose proof (reachable_step w (in_beatjump_shift c 6) w1 Hr eq_refl R1)
      as Hr1.
    destruct (scale_request c w1 (-1) Hr1 S1) as [(w2 & R2 & S2 & _) _].
    pose proof (reachable_step w1 (in_beatjump_shift c 6) w2 Hr1 eq_refl R2)
      as Hr2.
    destruct (scale_request c w2 (-1) Hr2 S2) as [(w3 & R3 & S3 & _) _].
    pose proof (reachable_step w2 (in_beatjump_shift c 6) w3 Hr2 eq_refl R3)
      as Hr3.
    exists w3. simpl. rewrite R1, R2, R3. split; [reflexivity|].
    cbn in S3. split; [exact S3|].
    destruct (reachable_scale_lights w3 Hr3 c) as [L3 _]. unfold pad.
    rewrite L3. unfold allow_beatjump_downscale. rewrite S3. reflexivity.
  - intros E1.
    destruct (scale_request c w (-1) Hr E1) as [(w1 & R1 & _ & N1) _].
    rewrite R1, N1; [reflexivity | lia].
  - rewrite Ld, <- Gd.
    destruct (allow_beatjump_downscale c w); split; congruence.
  - intros E0.
    destruct (scale_request c w 0 Hr E0) as [_ (w1 & R1 & S1 & _)].
    pose proof (reachable_step w (in_beatjump_shift c 7) w1 Hr eq_refl R1)
      as Hr1.
    destruct (scale_request c w1 1 Hr1 S1) as [_ (w2 & R2 & S2 & _)].
    pose proof (reachable_step w1 (in_beatjump_shift c 7) w2 Hr1 eq_refl R2)
      as Hr2.
    destruct (scale_request c w2 1 Hr2 S2) as [_ (w3 & R3 & S3 & _)].
    pose proof (reachable_step w2 (in_beatjump_shift c 7) w3 Hr2 eq_refl R3)
      as Hr3.
    exists w3. simpl. rewrite R1, R2, R3. split; [reflexivity|].
    cbn in S3. split; [exact S3|].
    destruct (reachable_scale_lights w3 Hr3 c) as [_ L3]. unfold pad.
    rewrite L3. unfold allow_beatjump_upscale. rewrite S3. reflexivity.
  - intros E1.
    destruct (scale_request c w 1 Hr E1) as [_ (w1 & R1 & _ & N1)].
    rewrite R1, N1; [reflexivity | lia].
  - rewrite Lu, <- Gu.
    destruct (allow_beatjump_upscale c w); split; congruence.
Qed.

Lemma beatjump_scale_bounds_witness :
  led (log (host started)) 0x98 (constants.pad_modes.beat_jump + 6)
  = Some 0x7F /\
  exists w3,
    run [in_beatjump_shift Ch0 6; in_beatjump_shift Ch0 6; in_beatjump_shift Ch0 6]
        started = Some w3 /\
    beatjump_scalestep (channel_cell Ch0 w3) = Some (-1) /\
    led (log (host w3)) 0x98 (constants.pad_modes.beat_jump + 6) = Some 0x00.
Proof.
  split; [vm_compute; reflexivity|].
  destruct (beatjump_scale_bounds started Ch0 reachable_started)
    as (_ & H & _).
  apply H. vm_compute. reflexivity.
Defined.
